(** * Serpentis Nexus: the simulation core, embedded and verified

    A shallow embedding of the JavaScript classes [SpatialHash],
    [ConstellationManager], [Snake], [GameEngine] and [GravityWell], with
    the properties the design document states about them.

    Conventions of the embedding.
    - A JavaScript object with identity (an entry of the spatial hash, a
      snake held by the engine) is a natural number, its reference.
    - A [Map] is a [gmap], a [Set] a [gset]; the order in which a [Set] is
      iterated is not observed by any property below.
    - Numbers are exact: rationals ([Q]) where the code only adds,
      multiplies, divides, floors and rounds; reals ([R]) in [GravityWell],
      whose code takes square roots and sines.  Rounding error, overflow
      and the special values of IEEE doubles are outside the model, except
      that a division whose divisor is zero is tracked in [GravityWell].
    - [Math.random()] and [Date.now()] are explicit arguments.
    - [setTimeout] callbacks are recorded in the state as pending entries. *)

From Stdlib Require Import ZArith QArith Qround Qminmax Reals Psatz List String.
From stdpp Require Import gmap strings pretty sorting list fin_maps.

#[local] Set Warnings "-clear-no-such-hyp".

(** ** SpatialHash (src/systems/spatial-hash.js) *)

Module SpatialHash.

Local Open Scope Q_scope.

(** An object reference. *)
Definition obj := nat.

(** The value stored in [this.objects] for one object. *)
Record objectData := ObjectData {
  cellKeys : list string;
  obj_x : Q;
  obj_y : Q;
  obj_width : Q;
  obj_height : Q;
  lastUpdate : Z
}.

Record stats := Stats {
  totalObjects : nat;
  totalCells : nat;
  queriesThisFrame : nat;
  collisionChecksAvoided : nat
}.

Record t := Mk {
  cellSize : Q;
  cells : gmap string (gset obj);
  objects : gmap obj objectData;
  hash_stats : stats
}.

(** [resetStats], which is also the initial value of [this.stats]. *)
Definition resetStats : stats := Stats 0 0 0 0.

(** [constructor(cellSize = 20)]. *)
Definition new (size : Q) : t := Mk size ∅ ∅ resetStats.

(** The template string [`${cellX},${cellY}`] of two integers. *)
Definition cellKey (cellX cellY : Z) : string :=
  pretty cellX +:+ "," +:+ pretty cellY.

(** [getCellKey(x, y)]. *)
Definition getCellKey (s : t) (x y : Q) : string :=
  let cellX := Qfloor (x / cellSize s) in
  let cellY := Qfloor (y / cellSize s) in
  cellKey cellX cellY.

(** The values of [for (let c = a; c <= b; c++)]. *)
Definition zrange (a b : Z) : list Z :=
  (λ i : nat, (a + Z.of_nat i)%Z) <$> seq 0 (Z.to_nat (b - a + 1)).

(** [getObjectCells(object, x, y, width = 1, height = 1)]; the object is
    not used by the code.  The default values apply only when the caller
    leaves the argument out, so they belong to the call sites. *)
Definition getObjectCells (s : t) (x y width height : Q) : list string :=
  let startCellX := Qfloor (x / cellSize s) in
  let endCellX := Qfloor ((x + width - 1) / cellSize s) in
  let startCellY := Qfloor (y / cellSize s) in
  let endCellY := Qfloor ((y + height - 1) / cellSize s) in
  cellX ← zrange startCellX endCellX;
  cellY ← zrange startCellY endCellY;
  [cellKey cellX cellY].

(** One round of the [forEach] of [add]: create the cell when it is
    missing, then add the object to it. *)
Definition addToCell (o : obj) (c : gmap string (gset obj)) (key : string)
  : gmap string (gset obj) :=
  let c1 := if c !! key is Some _ then c else <[key := ∅]> c in
  match c1 !! key with
  | Some cellSet => <[key := cellSet ∪ {[o]}]> c1
  | None => c1
  end.

(** One round of the [forEach] of [remove]: delete the object from the
    cell when the cell exists, and the cell when that leaves it empty. *)
Definition removeFromCell (o : obj) (c : gmap string (gset obj)) (key : string)
  : gmap string (gset obj) :=
  match c !! key with
  | Some cellSet =>
      let cellSet' := cellSet ∖ {[o]} in
      if decide (size cellSet' = 0%nat) then delete key c
      else <[key := cellSet']> c
  | None => c
  end.

Definition setCounts (st : stats) (nobjects ncells : nat) : stats :=
  Stats nobjects ncells (queriesThisFrame st) (collisionChecksAvoided st).

(** [remove(object)]: the result and the state after the call. *)
Definition remove (s : t) (o : obj) : bool * t :=
  match objects s !! o with
  | None => (false, s)
  | Some objectData =>
      let cells' := foldl (removeFromCell o) (cells s) (cellKeys objectData) in
      let objects' := delete o (objects s) in
      (true, Mk (cellSize s) cells' objects'
                (setCounts (hash_stats s) (size objects') (size cells')))
  end.

(** [add(object, x, y, width, height)] at time [now]. *)
Definition add (s : t) (o : obj) (x y width height : Q) (now : Z) : t :=
  let s1 := (remove s o).2 in
  let keys := getObjectCells s1 x y width height in
  let cells' := foldl (addToCell o) (cells s1) keys in
  let objects' := <[o := ObjectData keys x y width height now]> (objects s1) in
  Mk (cellSize s1) cells' objects'
     (setCounts (hash_stats s1) (size objects') (size cells')).

(** The order of the default [Array.prototype.sort] on strings: code
    units, left to right. *)
Definition keyLe (a b : string) : Prop := String.leb a b = true.

#[export] Instance keyLe_dec : RelDecision keyLe.
Proof. intros a b. unfold keyLe. apply _. Defined.

Definition sortKeys (l : list string) : list string := merge_sort keyLe l.

(** [arraysEqual(arr1, arr2)]. *)
Definition arraysEqual (arr1 arr2 : list string) : bool :=
  if decide (length arr1 ≠ length arr2) then false
  else bool_decide (sortKeys arr1 = sortKeys arr2).

(** [update(object, newX, newY, newWidth, newHeight)] at time [now]. *)
Definition update (s : t) (o : obj) (newX newY newWidth newHeight : Q)
    (now : Z) : t :=
  match objects s !! o with
  | None => add s o newX newY newWidth newHeight now
  | Some objectData =>
      if Qeq_bool (obj_x objectData) newX && Qeq_bool (obj_y objectData) newY
         && Qeq_bool (obj_width objectData) newWidth
         && Qeq_bool (obj_height objectData) newHeight
      then s
      else
        let newCellKeys := getObjectCells s newX newY newWidth newHeight in
        let oldCellKeys := cellKeys objectData in
        let cellsChanged := negb (arraysEqual oldCellKeys newCellKeys) in
        if cellsChanged then
          let cells1 := foldl (removeFromCell o) (cells s) oldCellKeys in
          let cells2 := foldl (addToCell o) cells1 newCellKeys in
          Mk (cellSize s) cells2
             (<[o := ObjectData newCellKeys newX newY newWidth newHeight now]>
                (objects s))
             (hash_stats s)
        else
          Mk (cellSize s) (cells s)
             (<[o := ObjectData oldCellKeys newX newY newWidth newHeight now]>
                (objects s))
             (hash_stats s)
  end.

(** [calculateDistance(x1, y1, x2, y2) <= radius].  The code compares a
    square root; over exact numbers [sqrt d <= r] holds exactly when
    [0 <= r] and [d <= r * r], which is what is computed here. *)
Definition distanceWithin (x1 y1 x2 y2 radius : Q) : bool :=
  let dx := x2 - x1 in
  let dy := y2 - y1 in
  Qle_bool 0 radius && Qle_bool (dx * dx + dy * dy) (radius * radius).

Definition countQuery (s : t) : t :=
  Mk (cellSize s) (cells s) (objects s)
     (Stats (totalObjects (hash_stats s)) (totalCells (hash_stats s))
            (S (queriesThisFrame (hash_stats s)))
            (collisionChecksAvoided (hash_stats s))).

(** The test of the inner [forEach] of [queryPoint]: the object is still
    registered and its recorded position lies within the radius. *)
Definition withinRadius (s : t) (x y radius : Q) (o : obj) : bool :=
  match objects s !! o with
  | Some objData => distanceWithin x y (obj_x objData) (obj_y objData) radius
  | None => false
  end.

(** [queryPoint(x, y, radius = 0)]: the returned array and the state. *)
Definition queryPoint (s : t) (x y radius : Q) : list obj * t :=
  let results : gset obj :=
    if Qeq_bool radius 0 then
      let key := getCellKey s x y in
      match cells s !! key with
      | Some cell => cell
      | None => ∅
      end
    else
      let keys := getObjectCells s (x - radius) (y - radius)
                                 (radius * 2) (radius * 2) in
      foldl (λ (res : gset obj) key,
               match cells s !! key with
               | Some cell =>
                   res ∪ filter (λ o, withinRadius s x y radius o = true) cell
               | None => res
               end) ∅ keys
  in (elements results, countQuery s).

(** [clear()]. *)
Definition clear (s : t) : t := Mk (cellSize s) ∅ ∅ resetStats.


(** What [remove]'s loop leaves of a cell. *)
Definition rmCell (o : obj) (cell : option (gset obj)) : option (gset obj) :=
  match cell with
  | Some cellSet =>
      if decide (cellSet ∖ {[o]} = ∅) then None else Some (cellSet ∖ {[o]})
  | None => None
  end.

(** *** The invariant of the index *)

(** The object set of a cell, empty when the cell has no entry. *)
Definition cellOf (s : t) (key : string) : gset obj :=
  default ∅ (cells s !! key).

(** The key set that [getObjectCells] computes for the box recorded for
    an object. *)
Definition computedCells (s : t) (od : objectData) : gset string :=
  list_to_set
    (getObjectCells s (obj_x od) (obj_y od) (obj_width od) (obj_height od)).

Record invariant (s : t) : Prop := Invariant {
  (** the recorded key set of an object is the one [getObjectCells]
      computes for its recorded box *)
  inv_cellKeys : ∀ o od, objects s !! o = Some od →
    list_to_set (cellKeys od) = computedCells s od;
  (** a cell has an entry exactly when it holds an object *)
  inv_nonempty : ∀ key, is_Some (cells s !! key) ↔ ∃ o, o ∈ cellOf s key;
  (** an object is in a cell exactly when the cell is among its recorded keys *)
  inv_member : ∀ o key,
    o ∈ cellOf s key ↔ ∃ od, objects s !! o = Some od ∧ key ∈ cellKeys od
}.

(** The states a program can reach through the public operations. *)
Inductive reachable : t → Prop :=
| reach_new size : 0 < size → reachable (new size)
| reach_add s o x y width height now :
    reachable s → reachable (add s o x y width height now)
| reach_remove s o : reachable s → reachable (remove s o).2
| reach_update s o x y width height now :
    reachable s → reachable (update s o x y width height now)
| reach_clear s : reachable s → reachable (clear s)
| reach_queryPoint s x y radius :
    reachable s → reachable (queryPoint s x y radius).2.

(** *** Rectangle queries, collisions, rays and clean-up *)

(** [rectsOverlap(x1, y1, w1, h1, x2, y2, w2, h2)]. *)
Definition rectsOverlap (x1 y1 w1 h1 x2 y2 w2 h2 : Q) : bool :=
  negb (Qle_bool (x2 + w2) x1 || Qle_bool (x1 + w1) x2
        || Qle_bool (y2 + h2) y1 || Qle_bool (y1 + h1) y2).

(** [pointInRect(px, py, rx, ry, rw, rh)]. *)
Definition pointInRect (px py rx ry rw rh : Q) : bool :=
  Qle_bool rx px && negb (Qle_bool (rx + rw) px)
  && Qle_bool ry py && negb (Qle_bool (ry + rh) py).

(** The loop shared by the queries: the objects of the cells [keys] that
    pass [test], gathered in a [Set]. *)
Definition collectFrom (s : t) (test : obj → bool) (keys : list string)
  : gset obj :=
  foldl (λ (res : gset obj) key,
           match cells s !! key with
           | Some cell => res ∪ filter (λ o, test o = true) cell
           | None => res
           end) ∅ keys.

(** The test of the inner [forEach] of [queryRect] and [queryCollisions]:
    the object is still registered and its recorded box overlaps the
    given one. *)
Definition overlapsRect (s : t) (x y width height : Q) (o : obj) : bool :=
  match objects s !! o with
  | Some objData =>
      rectsOverlap x y width height
                   (obj_x objData) (obj_y objData)
                   (obj_width objData) (obj_height objData)
  | None => false
  end.

(** [queryRect(x, y, width, height)]: the returned array and the state. *)
Definition queryRect (s : t) (x y width height : Q) : list obj * t :=
  let cellKeys := getObjectCells s x y width height in
  (elements (collectFrom s (overlapsRect s x y width height) cellKeys),
   countQuery s).

(** [queryCollisions(object)]: the returned array and the state. *)
Definition queryCollisions (s : t) (object : obj) : list obj * t :=
  match objects s !! object with
  | None => ([], s)
  | Some objectData =>
      let test other :=
        negb (bool_decide (other = object))
        && overlapsRect s (obj_x objectData) (obj_y objectData)
                        (obj_width objectData) (obj_height objectData) other in
      (elements (collectFrom s test (cellKeys objectData)), countQuery s)
  end.

(** The value returned by [raycast] when it is not [null]. *)
Record hit := Hit {
  hit_object : obj;
  hit_x : Q;
  hit_y : Q;
  hit_distance : Q
}.

(** The test of the inner loop of [raycast]; [None] is the default
    [filter = null]. *)
Definition hitTest (s : t) (filter : option (obj → bool)) (x y : Q) (o : obj)
  : bool :=
  match filter with
  | Some f => f o
  | None => true
  end
  && match objects s !! o with
     | Some objData =>
         pointInRect x y (obj_x objData) (obj_y objData)
                     (obj_width objData) (obj_height objData)
     | None => false
     end.

(** The loop of [raycast] over the remaining values of [i]. *)
Fixpoint raycastFrom (s : t) (startX startY dirX dirY stepSize : Q)
    (filter : option (obj → bool)) (steps : list Z) : option hit * t :=
  match steps with
  | [] => (None, s)
  | i :: rest =>
      let x := startX + dirX * inject_Z i * stepSize in
      let y := startY + dirY * inject_Z i * stepSize in
      let '(found, s1) := queryPoint s x y 0 in
      match List.find (hitTest s1 filter x y) found with
      | Some o => (Some (Hit o x y (inject_Z i * stepSize)), s1)
      | None => raycastFrom s1 startX startY dirX dirY stepSize filter rest
      end
  end.

(** [raycast(startX, startY, dirX, dirY, maxDistance, filter)]: the hit, or
    [None] for [null], and the state. *)
Definition raycast (s : t) (startX startY dirX dirY maxDistance : Q)
    (filter : option (obj → bool)) : option hit * t :=
  let stepSize := cellSize s / 2 in
  let steps := Qceiling (maxDistance / stepSize) in
  raycastFrom (countQuery s) startX startY dirX dirY stepSize filter
              (zrange 1 steps).

(** The coordinate of the [i]-th sample of a ray, and what it means for
    the ray to hit something there: an object registered in the cell of
    the sample passes the test of the inner loop. *)
Definition rayPoint (start dir stepSize : Q) (i : Z) : Q :=
  start + dir * inject_Z i * stepSize.

Definition hitsAt (s : t) (filter : option (obj → bool)) (x y : Q) : Prop :=
  ∃ o, o ∈ cellOf s (getCellKey s x y) ∧ hitTest s filter x y o = true.

(** The test of the first loop of [optimize]. *)
Definition stale (now : Z) (data : objectData) : bool :=
  (5000 <? now - lastUpdate data)%Z.

(** [optimize()] at time [now].  The objects to remove are gathered in the
    order of the [Map]; the calls of [remove] commute, so the order is not
    observed.  The second loop deletes the cells left empty. *)
Definition optimize (s : t) (now : Z) : t :=
  let toRemove :=
    fst <$> List.filter (λ entry, stale now entry.2)
                        (map_to_list (objects s)) in
  let s1 := foldl (λ s' object, (remove s' object).2) s toRemove in
  let emptyCells :=
    List.filter (λ entry : string * gset obj, (size entry.2 =? 0)%nat)
                (map_to_list (cells s1)) in
  let cells' := foldl (λ c entry, delete entry.1 c) (cells s1) emptyCells in
  Mk (cellSize s1) cells' (objects s1)
     (Stats (totalObjects (hash_stats s1)) (size cells')
            (queriesThisFrame (hash_stats s1))
            (collisionChecksAvoided (hash_stats s1))).

(** *** The cells a box overlaps *)



End SpatialHash.

(** ** ConstellationManager (src/systems/constellation-manager.js) *)

Module ConstellationManager.

Local Open Scope Q_scope.

Record pattern := Pattern {
  name : string;
  stars : list string;
  description : string;
  bonus : Z;
  colors : list string
}.

(** An entry of [completedPatterns]. *)
Record completion := Completion {
  completed_pattern : string;
  completed_name : string;
  completedAt : Z;
  completed_bonus : Z
}.

(** The fields of the manager.  [patterns] is a JavaScript object used as
    a map; its keys are kept in insertion order, which is the order of
    [Object.keys].  [collectedStars] is a [Set], kept in insertion order
    without repetition.  [timeouts] holds the callbacks passed to
    [setTimeout] that have not run yet: the delay and the argument that
    [setPattern] will get. *)
Record t := Mk {
  patterns : list (string * pattern);
  currentPattern : option pattern;
  collectedStars : list string;
  targetPattern : string;
  morphingActive : bool;
  morphTimer : Q;
  completedPatterns : list completion;
  recentPatterns : list string;
  timeouts : list (Q * option string)
}.

(** The table of the constructor. *)
Definition builtinPatterns : list (string * pattern) :=
  [ ("triangle", Pattern "Triangle Céleste" ["alpha"; "beta"; "gamma"]
       "Formez un triangle parfait" 150 ["#ff6b6b"; "#4ecdc4"; "#45b7d1"]);
    ("cross", Pattern "Croix Stellaire"
       ["north"; "south"; "east"; "west"; "center"]
       "Alignez les étoiles cardinales" 200
       ["#96ceb4"; "#feca57"; "#ff9ff3"; "#54a0ff"; "#5f27cd"]);
    ("spiral", Pattern "Spirale Cosmique"
       ["core"; "arm1"; "arm2"; "arm3"; "arm4"; "arm5"]
       "Suivez la spirale galactique" 300
       ["#ffffff"; "#ffd700"; "#ff6b6b"; "#4ecdc4"; "#45b7d1"; "#96ceb4"]);
    ("diamond", Pattern "Diamant Éternel" ["top"; "left"; "right"; "bottom"]
       "Créez un diamant brillant" 180
       ["#e056fd"; "#686de0"; "#4834d4"; "#30336b"]) ].

(** [this.patterns[patternName]]. *)
Definition lookupPattern (ps : list (string * pattern)) (patternName : string)
  : option pattern :=
  snd <$> List.find (λ entry, String.eqb (fst entry) patternName) ps.

(** [Object.keys(this.patterns)]. *)
Definition patternKeys (ps : list (string * pattern)) : list string :=
  fst <$> ps.

(** [array.includes(x)] and [set.has(x)] on strings. *)
Definition includes (l : list string) (x : string) : bool :=
  bool_decide (x ∈ l).

(** [set.add(x)]. *)
Definition setAdd (l : list string) (x : string) : list string :=
  if includes l x then l else l ++ [x].

(** [setPattern(patternName)].  The lookup [this.patterns[patternName]]
    is that of the keys of the table itself.  A name that
    [Object.prototype] defines, such as ["toString"], finds the inherited
    member in the code, which then becomes the current pattern although
    it has no stars; such calls are outside this model (see
    [objectPrototypeKeys] and [reachableOwn]). *)
Definition setPattern (s : t) (patternName : string) : t :=
  match lookupPattern (patterns s) patternName with
  | None => s
  | Some p =>
      Mk (patterns s) (Some p) [] patternName false 0
         (completedPatterns s) (recentPatterns s) (timeouts s)
  end.

(** The state the constructor builds. *)
Definition new : t :=
  setPattern (Mk builtinPatterns None [] "triangle" false 0 [] [] []) "triangle".

(** [array[Math.floor(Math.random() * array.length)]], where [rnd] is the
    value of [Math.random()]; [None] is [undefined]. *)
Definition pickRandom (l : list string) (rnd : Q) : option string :=
  let index := Qfloor (rnd * inject_Z (Z.of_nat (length l))) in
  if (index <? 0)%Z then None else nth_error l (Z.to_nat index).

(** [selectRandomPattern()]. *)
Definition selectRandomPattern (s : t) (rnd : Q) : option string :=
  pickRandom (patternKeys (patterns s)) rnd.

(** [selectNextPattern()]: the pattern selected and the state. *)
Definition selectNextPattern (s : t) (rnd : Q) : option string * t :=
  let availablePatterns :=
    List.filter (λ pattern, negb (includes (recentPatterns s) pattern))
                (patternKeys (patterns s)) in
  if (length availablePatterns =? 0)%nat then
    (selectRandomPattern s rnd,
     Mk (patterns s) (currentPattern s) (collectedStars s) (targetPattern s)
        (morphingActive s) (morphTimer s) (completedPatterns s) []
        (timeouts s))
  else
    let nextPattern := pickRandom availablePatterns rnd in
    let pushed := recentPatterns s ++ [targetPattern s] in
    let recent := if (2 <? length pushed)%nat then tail pushed else pushed in
    (nextPattern,
     Mk (patterns s) (currentPattern s) (collectedStars s) (targetPattern s)
        (morphingActive s) (morphTimer s) (completedPatterns s) recent
        (timeouts s)).

(** [startMorphing()]. *)
Definition startMorphing (s : t) (rnd : Q) : t :=
  let s1 := Mk (patterns s) (currentPattern s) (collectedStars s)
               (targetPattern s) true 3000 (completedPatterns s)
               (recentPatterns s) (timeouts s) in
  let '(nextPattern, s2) := selectNextPattern s1 rnd in
  Mk (patterns s2) (currentPattern s2) (collectedStars s2) (targetPattern s2)
     (morphingActive s2) (morphTimer s2) (completedPatterns s2)
     (recentPatterns s2) (timeouts s2 ++ [(morphTimer s2, nextPattern)]).

(** [completeConstellation()] at time [now].  The code reads
    [this.currentPattern.name]; it is called only with a current pattern,
    and would raise a [TypeError] without one, a case given here as a
    call that changes nothing. *)
Definition completeConstellation (s : t) (now : Z) (rnd : Q) : bool * t :=
  match currentPattern s with
  | None => (true, s)
  | Some current =>
      let entry := Completion (targetPattern s) (name current) now
                              (bonus current) in
      let s1 := Mk (patterns s) (currentPattern s) (collectedStars s)
                   (targetPattern s) (morphingActive s) (morphTimer s)
                   (completedPatterns s ++ [entry]) (recentPatterns s)
                   (timeouts s) in
      (true, startMorphing s1 rnd)
  end.

(** [collectStar(starType)]: the result and the state. *)
Definition collectStar (s : t) (starType : string) (now : Z) (rnd : Q)
  : bool * t :=
  match currentPattern s with
  | None => (false, s)
  | Some current =>
      if negb (includes (stars current) starType) then (false, s)
      else if includes (collectedStars s) starType then (false, s)
      else
        let s1 := Mk (patterns s) (currentPattern s)
                     (setAdd (collectedStars s) starType) (targetPattern s)
                     (morphingActive s) (morphTimer s) (completedPatterns s)
                     (recentPatterns s) (timeouts s) in
        if (length (collectedStars s1) =? length (stars current))%nat
        then completeConstellation s1 now rnd
        else (false, s1)
  end.

(** [update(deltaTime)]. *)
Definition update (s : t) (deltaTime : Q) : t :=
  if morphingActive s && negb (Qle_bool (morphTimer s) 0) then
    let timer := morphTimer s - deltaTime * 1000 in
    Mk (patterns s) (currentPattern s) (collectedStars s) (targetPattern s)
       (if Qle_bool timer 0 then false else morphingActive s) timer
       (completedPatterns s) (recentPatterns s) (timeouts s)
  else s.

(** The oldest pending [setTimeout] callback runs: [setPattern(nextPattern)];
    with [undefined] the lookup in [patterns] finds nothing. *)
Definition runTimeout (s : t) : t :=
  match timeouts s with
  | [] => s
  | (_, nextPattern) :: rest =>
      let s1 := Mk (patterns s) (currentPattern s) (collectedStars s)
                   (targetPattern s) (morphingActive s) (morphTimer s)
                   (completedPatterns s) (recentPatterns s) rest in
      match nextPattern with
      | Some patternName => setPattern s1 patternName
      | None => s1
      end
  end.

(** The tags the current goal requires. *)
Definition requiredStars (s : t) : list string :=
  match currentPattern s with
  | Some current => stars current
  | None => []
  end.

(** *** Progress, procedural patterns, reset and saved states *)

(** [getNeededStars()]. *)
Definition getNeededStars (s : t) : list string :=
  match currentPattern s with
  | None => []
  | Some current =>
      List.filter (λ star, negb (includes (collectedStars s) star))
                  (stars current)
  end.

(** [getAllStars()]. *)
Definition getAllStars (s : t) : list string :=
  match currentPattern s with
  | Some current => stars current
  | None => []
  end.

(** [isStarCollected(starType)]. *)
Definition isStarCollected (s : t) (starType : string) : bool :=
  includes (collectedStars s) starType.

(** The numbers in the object returned by [getProgress()].  A division
    by a total of zero has no number as its result: [None]. *)
Record progress := Progress {
  progress_collected : nat;
  progress_total : nat;
  progress_percentage : option Q;
  progress_morphing : bool;
  progress_morphProgress : Q
}.

(** [getProgress()]. *)
Definition getProgress (s : t) : progress :=
  match currentPattern s with
  | None => Progress 0 0 (Some 0) false 0
  | Some current =>
      let total := length (stars current) in
      let collected := length (collectedStars s) in
      let percentage :=
        if (total =? 0)%nat then None
        else Some (inject_Z (Z.of_nat collected) / inject_Z (Z.of_nat total)
                   * 100) in
      Progress collected total percentage (morphingActive s)
               (if morphingActive s then (3000 - morphTimer s) / 3000 else 0)
  end.

(** The names [generateProceduralPattern] draws the stars from. *)
Definition starNames : list string :=
  ["alpha"; "beta"; "gamma"; "delta"; "epsilon"; "zeta"; "eta"; "theta"].

(** [generateProceduralPattern()], where [rnd] is the first value of
    [Math.random()], which gives the number of stars (3 to 6 for a value
    in [0, 1)).  The name and the colors are strings printed from further
    random numbers; they are given as they come out. *)
Definition generateProceduralPattern (rnd : Q) (name : string)
    (colors : list string) : pattern :=
  let starCount := (3 + Qfloor (rnd * 4))%Z in
  Pattern name (take (Z.to_nat starCount) starNames)
          "Pattern généré procéduralement" (100 + starCount * 25) colors.

(** [this.patterns[patternId] = pattern]: an existing key keeps its place
    among the keys, a new one goes to the end. *)
Fixpoint setEntry (ps : list (string * pattern)) (patternId : string)
    (p : pattern) : list (string * pattern) :=
  match ps with
  | [] => [(patternId, p)]
  | entry :: rest =>
      if String.eqb (fst entry) patternId then (fst entry, p) :: rest
      else entry :: setEntry rest patternId p
  end.

(** [enableProceduralMode()] at time [now]. *)
Definition enableProceduralMode (s : t) (rnd : Q) (name : string)
    (colors : list string) (now : Z) : t :=
  let proceduralPattern := generateProceduralPattern rnd name colors in
  let patternId := "procedural_" +:+ pretty now in
  setPattern
    (Mk (setEntry (patterns s) patternId proceduralPattern) (currentPattern s)
        (collectedStars s) (targetPattern s) (morphingActive s) (morphTimer s)
        (completedPatterns s) (recentPatterns s) (timeouts s))
    patternId.

(** [reset()]. *)
Definition reset (s : t) : t :=
  setPattern
    (Mk (patterns s) (currentPattern s) [] (targetPattern s) false 0 [] []
        (timeouts s))
    "triangle".

(** The object returned by [saveState()] and read by [loadState(state)];
    [None] is a missing field. *)
Record savedState := SavedState {
  saved_targetPattern : option string;
  saved_collectedStars : option (list string);
  saved_completedPatterns : option (list completion);
  saved_recentPatterns : option (list string)
}.

(** [saveState()]. *)
Definition saveState (s : t) : savedState :=
  SavedState (Some (targetPattern s)) (Some (collectedStars s))
             (Some (completedPatterns s)) (Some (recentPatterns s)).

(** [new Set(array)] and the loop [array.forEach(x => set.add(x))]. *)
Definition addAll (set array : list string) : list string :=
  foldl setAdd set array.

(** [loadState(state)].  The empty string is the one string that [||]
    replaces by its right operand. *)
Definition loadState (s : t) (state : savedState) : t :=
  let target :=
    match saved_targetPattern state with
    | Some patternName =>
        if String.eqb patternName "" then "triangle" else patternName
    | None => "triangle"
    end in
  let s1 := Mk (patterns s) (currentPattern s)
               (addAll [] (default [] (saved_collectedStars state))) target
               (morphingActive s) (morphTimer s)
               (default [] (saved_completedPatterns state))
               (default [] (saved_recentPatterns state)) (timeouts s) in
  let s2 := setPattern s1 target in
  match saved_collectedStars state with
  | Some array =>
      Mk (patterns s2) (currentPattern s2) (addAll (collectedStars s2) array)
         (targetPattern s2) (morphingActive s2) (morphTimer s2)
         (completedPatterns s2) (recentPatterns s2) (timeouts s2)
  | None => s2
  end.

(** The states of a manager that the constructor and the methods above
    produce from values of [Math.random()] in [0, 1) and time steps that
    are not negative; [loadState] is left out, since it takes whatever
    object it is given. *)
Inductive reachable : t → Prop :=
| reach_new : reachable new
| reach_setPattern s patternName :
    reachable s → reachable (setPattern s patternName)
| reach_collectStar s starType now rnd :
    reachable s → 0 <= rnd → rnd < 1 →
    reachable (collectStar s starType now rnd).2
| reach_update s deltaTime :
    reachable s → 0 <= deltaTime → reachable (update s deltaTime)
| reach_runTimeout s : reachable s → reachable (runTimeout s)
| reach_reset s : reachable s → reachable (reset s)
| reach_enableProceduralMode s rnd name colors now :
    reachable s → 0 <= rnd → rnd < 1 →
    reachable (enableProceduralMode s rnd name colors now).

(** The names that [Object.prototype] defines, which a lookup in an
    object literal finds when the object has no key of that name. *)
Definition objectPrototypeKeys : list string :=
  ["constructor"; "hasOwnProperty"; "isPrototypeOf"; "propertyIsEnumerable";
   "toLocaleString"; "toString"; "valueOf"; "__proto__";
   "__defineGetter__"; "__defineSetter__"; "__lookupGetter__";
   "__lookupSetter__"].

(** The target that [loadState] reads from the saved object. *)
Definition savedTarget (state : savedState) : string :=
  match saved_targetPattern state with
  | Some patternName =>
      if String.eqb patternName "" then "triangle" else patternName
  | None => "triangle"
  end.

(** A saved object is well formed for a manager when its target names a
    pattern of the table, its collected stars are stars of that pattern
    and it lists at most two recent patterns, as every object that
    [saveState] returned for a manager with the same table does. *)
Definition wellFormedSave (s : t) (state : savedState) : Prop :=
  ∃ p, lookupPattern (patterns s) (savedTarget state) = Some p ∧
       default [] (saved_collectedStars state) ⊆ stars p ∧
       (length (default [] (saved_recentPatterns state)) ≤ 2)%nat.

(** The states of a manager when [setPattern] is given no name that
    [Object.prototype] defines and [loadState] only well-formed objects. *)
Inductive reachableOwn : t → Prop :=
| own_new : reachableOwn new
| own_setPattern s patternName :
    reachableOwn s → patternName ∉ objectPrototypeKeys →
    reachableOwn (setPattern s patternName)
| own_collectStar s starType now rnd :
    reachableOwn s → 0 <= rnd → rnd < 1 →
    reachableOwn (collectStar s starType now rnd).2
| own_update s deltaTime :
    reachableOwn s → 0 <= deltaTime → reachableOwn (update s deltaTime)
| own_runTimeout s : reachableOwn s → reachableOwn (runTimeout s)
| own_reset s : reachableOwn s → reachableOwn (reset s)
| own_enableProceduralMode s rnd name colors now :
    reachableOwn s → 0 <= rnd → rnd < 1 →
    reachableOwn (enableProceduralMode s rnd name colors now)
| own_loadState s state :
    reachableOwn s → wellFormedSave s state → reachableOwn (loadState s state).

(** What holds of every such state. *)
Record sound (s : t) : Prop := Sound {
  (** the current pattern is the entry of the target pattern *)
  sound_current : ∃ current,
    currentPattern s = Some current ∧
    lookupPattern (patterns s) (targetPattern s) = Some current;
  (** the patterns of the table have stars, each once *)
  sound_stars : ∀ patternName p,
    lookupPattern (patterns s) patternName = Some p →
    NoDup (stars p) ∧ stars p ≠ [];
  (** the collected stars are stars of the current pattern, each once *)
  sound_collected :
    NoDup (collectedStars s) ∧ collectedStars s ⊆ requiredStars s;
  (** the memory of recent patterns holds at most two *)
  sound_recent : (length (recentPatterns s) ≤ 2)%nat;
  (** three patterns of the constructor are always in the table *)
  sound_keys : ∀ patternName,
    patternName ∈ ["triangle"; "cross"; "spiral"] →
    is_Some (lookupPattern (patterns s) patternName);
  (** while the transition runs, its timer is positive and at most 3000 *)
  sound_timer :
    morphingActive s = true → 0 < morphTimer s ∧ morphTimer s <= 3000;
  (** every pending callback carries a pattern of the table *)
  sound_timeouts : ∀ delay next,
    (delay, next) ∈ timeouts s →
    ∃ patternName, next = Some patternName ∧
                   is_Some (lookupPattern (patterns s) patternName);
  (** no pattern of the table has the empty string as its key *)
  sound_named : ∀ patternName,
    is_Some (lookupPattern (patterns s) patternName) → patternName ≠ ""
}.

End ConstellationManager.

(** ** Snake (src/entities/snake.js) *)

Module Snake.

Local Open Scope Q_scope.

(** The [type] given to the constructor: ['player'], or anything else,
    which the engine treats as an enemy. *)
Inductive snakeType := player | enemy.

(** The [type] of a segment. *)
Inductive segmentType := head | normal | armored | booster | magnetic.

#[export] Instance segmentType_eq_dec : EqDecision segmentType.
Proof. solve_decision. Defined.

#[export] Instance snakeType_eq_dec : EqDecision snakeType.
Proof. solve_decision. Defined.

(** A segment; positions are grid cells.  The engine creates snakes on
    integer cells and [update] moves them by rounded steps. *)
Record segment := Segment {
  seg_x : Z;
  seg_y : Z;
  seg_type : segmentType
}.

(** A value of [activePowerUps]. *)
Record powerUp := PowerUp {
  powerUp_name : string;
  level : nat;
  duration : Z;
  range : option nat
}.

(** The fields of a snake.  [boostTimeouts] holds the delays of the
    callbacks that [activateBoost] passed to [setTimeout] and that have
    not run yet. *)
Record t := Mk {
  type : snakeType;
  segments : list segment;
  direction : Z * Z;
  nextDirection : Z * Z;
  alive : bool;
  speed : Q;
  baseSpeed : Q;
  boostActive : bool;
  boostCooldown : Q;
  invulnerable : bool;
  invulnerabilityTime : Q;
  velocity : Q * Q;
  gravitationalForce : Q * Q;
  activePowerUps : gmap string powerUp;
  boostTimeouts : list Q
}.

(** [constructor(x, y, type = 'player')]. *)
Definition new (x y : Z) (type : snakeType) : t :=
  Mk type [Segment x y head] (1, 0)%Z (1, 0)%Z true 1 1 false 0 false 0
     (0, 0) (0, 0) ∅ [].

(** [reset(x, y)]. *)
Definition reset (s : t) (x y : Z) : t :=
  Mk (type s) [Segment x y head] (1, 0)%Z (1, 0)%Z true (baseSpeed s)
     (baseSpeed s) false 0 false 0 (0, 0) (0, 0) ∅ (boostTimeouts s).

(** [getCurrentDirectionName()]. *)
Definition getCurrentDirectionName (s : t) : string :=
  let '(x, y) := direction s in
  if ((x =? 0) && (y =? -1))%Z then "up"
  else if ((x =? 0) && (y =? 1))%Z then "down"
  else if ((x =? -1) && (y =? 0))%Z then "left"
  else if ((x =? 1) && (y =? 0))%Z then "right"
  else "right".

(** The table [opposite] of [setDirection]; [None] is [undefined].  (A
    name inherited from [Object.prototype] is outside the model.) *)
Definition opposite (direction : string) : option string :=
  if decide (direction = "up") then Some "down"
  else if decide (direction = "down") then Some "up"
  else if decide (direction = "left") then Some "right"
  else if decide (direction = "right") then Some "left"
  else None.

(** The table [directions] of [setDirection]. *)
Definition directions (direction : string) : option (Z * Z) :=
  if decide (direction = "up") then Some (0, -1)%Z
  else if decide (direction = "down") then Some (0, 1)%Z
  else if decide (direction = "left") then Some (-1, 0)%Z
  else if decide (direction = "right") then Some (1, 0)%Z
  else None.

Definition setNextDirection (s : t) (d : Z * Z) : t :=
  Mk (type s) (segments s) (direction s) d (alive s) (speed s) (baseSpeed s)
     (boostActive s) (boostCooldown s) (invulnerable s)
     (invulnerabilityTime s) (velocity s) (gravitationalForce s)
     (activePowerUps s) (boostTimeouts s).

(** [setDirection(direction)]. *)
Definition setDirection (s : t) (direction : string) : t :=
  if negb (alive s) then s
  else if bool_decide (opposite direction = Some (getCurrentDirectionName s))
  then s
  else setNextDirection s (default (nextDirection s) (directions direction)).

(** [activateBoost()]. *)
Definition activateBoost (s : t) : t :=
  if negb (alive s) || (if Qlt_le_dec 0 (boostCooldown s) then true else false)
  then s
  else
    let boosterSegments :=
      length (List.filter (λ seg, bool_decide (seg_type seg = booster))
                          (segments s)) in
    if (boosterSegments =? 0)%nat then s
    else
      let n := inject_Z (Z.of_nat boosterSegments) in
      Mk (type s) (segments s) (direction s) (nextDirection s) (alive s)
         (baseSpeed s * (1 + n * 0.5)) (baseSpeed s) true 3000
         (invulnerable s) (invulnerabilityTime s) (velocity s)
         (gravitationalForce s) (activePowerUps s)
         (boostTimeouts s ++ [1000 + n * 200]).

(** The oldest pending callback of [activateBoost] runs. *)
Definition runBoostTimeout (s : t) : t :=
  match boostTimeouts s with
  | [] => s
  | _ :: rest =>
      Mk (type s) (segments s) (direction s) (nextDirection s) (alive s)
         (baseSpeed s) (baseSpeed s) false (boostCooldown s) (invulnerable s)
         (invulnerabilityTime s) (velocity s) (gravitationalForce s)
         (activePowerUps s) rest
  end.

(** [setInvulnerable(duration)]. *)
Definition setInvulnerable (s : t) (duration : Q) : t :=
  Mk (type s) (segments s) (direction s) (nextDirection s) (alive s)
     (speed s) (baseSpeed s) (boostActive s) (boostCooldown s) true duration
     (velocity s) (gravitationalForce s) (activePowerUps s) (boostTimeouts s).

Definition setSegments (s : t) (segs : list segment) : t :=
  Mk (type s) segs (direction s) (nextDirection s) (alive s) (speed s)
     (baseSpeed s) (boostActive s) (boostCooldown s) (invulnerable s)
     (invulnerabilityTime s) (velocity s) (gravitationalForce s)
     (activePowerUps s) (boostTimeouts s).

Definition setActivePowerUps (s : t) (m : gmap string powerUp) : t :=
  Mk (type s) (segments s) (direction s) (nextDirection s) (alive s)
     (speed s) (baseSpeed s) (boostActive s) (boostCooldown s)
     (invulnerable s) (invulnerabilityTime s) (velocity s)
     (gravitationalForce s) m (boostTimeouts s).

(** [segmentCounts[kind]], 0 when the key is missing. *)
Definition segmentCount (segs : list segment) (kind : segmentType) : nat :=
  length (List.filter (λ seg, bool_decide (seg_type seg = kind)) segs).

(** [updateSegmentEffects()]. *)
Definition updateSegmentEffects (s : t) : t :=
  let narmored := segmentCount (segments s) armored in
  let nmagnetic := segmentCount (segments s) magnetic in
  let m1 :=
    if (0 <? narmored)%nat
    then <["armor" := PowerUp "Blindage" narmored (-1) None]> (activePowerUps s)
    else delete "armor" (activePowerUps s) in
  let m2 :=
    if (0 <? nmagnetic)%nat
    then <["magnetism" :=
             PowerUp "Magnétisme" nmagnetic (-1) (Some (nmagnetic * 30)%nat)]> m1
    else delete "magnetism" m1 in
  setActivePowerUps s m2.

(** [grow(segmentType = 'normal')].  The tail exists: a snake is built
    with a head and never loses it. *)
Definition grow (s : t) (segmentType : segmentType) : t :=
  if negb (alive s) then s
  else match last (segments s) with
       | Some tail =>
           updateSegmentEffects
             (setSegments s
                (segments s ++ [Segment (seg_x tail) (seg_y tail) segmentType]))
       | None => s
       end.

(** [applyGravitationalForce(fx, fy)]. *)
Definition applyGravitationalForce (s : t) (fx fy : Q) : t :=
  Mk (type s) (segments s) (direction s) (nextDirection s) (alive s)
     (speed s) (baseSpeed s) (boostActive s) (boostCooldown s)
     (invulnerable s) (invulnerabilityTime s) (velocity s)
     (fst (gravitationalForce s) + fx, snd (gravitationalForce s) + fy)
     (activePowerUps s) (boostTimeouts s).

(** [moveSegments(dx, dy)]: the head moves, every other segment takes the
    place its predecessor had. *)
Definition moveSegments (segs : list segment) (dx dy : Z) : list segment :=
  match segs with
  | [] => []
  | first :: body =>
      Segment (seg_x first + dx) (seg_y first + dy) (seg_type first) ::
      zip_with (λ previous seg,
                  Segment (seg_x previous) (seg_y previous) (seg_type seg))
               segs body
  end.

(** [Math.round]: the nearest integer, a half going up. *)
Definition round (q : Q) : Z := Qfloor (q + 0.5).

(** [update(deltaTime)].  The two count-downs and the two numbers that
    are rounded are exact rationals here and doubles in the code: a
    property of [update] is stated below only where an error in the last
    digits cannot change it. *)
Definition update (s : t) (deltaTime : Q) : t :=
  if negb (alive s) then s
  else
    let boostCooldown' :=
      if Qlt_le_dec 0 (boostCooldown s)
      then boostCooldown s - deltaTime * 1000 else boostCooldown s in
    let '(invulnerabilityTime', invulnerable') :=
      if Qlt_le_dec 0 (invulnerabilityTime s) then
        let time := invulnerabilityTime s - deltaTime * 1000 in
        (time, if Qlt_le_dec 0 time then invulnerable s else false)
      else (invulnerabilityTime s, invulnerable s) in
    let direction' := nextDirection s in
    let moveX := inject_Z (fst direction') * speed s
                 + fst (gravitationalForce s) * 0.3 in
    let moveY := inject_Z (snd direction') * speed s
                 + snd (gravitationalForce s) * 0.3 in
    Mk (type s) (moveSegments (segments s) (round moveX) (round moveY))
       direction' (nextDirection s) (alive s) (speed s) (baseSpeed s)
       (boostActive s) boostCooldown' invulnerable' invulnerabilityTime'
       (velocity s) (0, 0) (activePowerUps s) (boostTimeouts s).

(** [getHead()]; [None] is [undefined]. *)
Definition getHead (s : t) : option segment := List.head (segments s).

(** [hasEffect(effectName)]. *)
Definition hasEffect (s : t) (effectName : string) : bool :=
  bool_decide (is_Some (activePowerUps s !! effectName)).

(** [getEffectLevel(effectName)]. *)
Definition getEffectLevel (s : t) (effectName : string) : nat :=
  match activePowerUps s !! effectName with
  | Some powerUp => level powerUp
  | None => 0
  end.

(** The loop of [removeArmoredSegment] over the segments after the first:
    the armored segment nearest to the tail is taken out. *)
Fixpoint removeLastArmored (body : list segment) : option (list segment) :=
  match body with
  | [] => None
  | seg :: rest =>
      match removeLastArmored rest with
      | Some rest' => Some (seg :: rest')
      | None => if bool_decide (seg_type seg = armored) then Some rest else None
      end
  end.

(** [removeArmoredSegment()]. *)
Definition removeArmoredSegment (s : t) : t :=
  match segments s with
  | [] => s
  | first :: body =>
      match removeLastArmored body with
      | Some body' => updateSegmentEffects (setSegments s (first :: body'))
      | None => s
      end
  end.

Definition setAlive (s : t) (b : bool) : t :=
  Mk (type s) (segments s) (direction s) (nextDirection s) b (speed s)
     (baseSpeed s) (boostActive s) (boostCooldown s) (invulnerable s)
     (invulnerabilityTime s) (velocity s) (gravitationalForce s)
     (activePowerUps s) (boostTimeouts s).

(** The chance of surviving a hit with the given armor level. *)
Definition survivalChance (armorLevel : nat) : Q :=
  Qmin (inject_Z (Z.of_nat armorLevel) * 0.2) 0.8.

(** [takeDamage()], where [rnd] is the value of [Math.random()]: whether
    the snake died, and the state. *)
Definition takeDamage (s : t) (rnd : Q) : bool * t :=
  if invulnerable s then (false, s)
  else
    let armorLevel := getEffectLevel s "armor" in
    if (0 <? armorLevel)%nat then
      if Qlt_le_dec rnd (survivalChance armorLevel)
      then (false, setInvulnerable (removeArmoredSegment s) 1000)
      else (true, setAlive s false)
    else (true, setAlive s false).

(** The states of a snake that the methods above can produce. *)
Inductive reachable : t → Prop :=
| reach_new x y type : reachable (new x y type)
| reach_reset s x y : reachable s → reachable (reset s x y)
| reach_setDirection s direction :
    reachable s → reachable (setDirection s direction)
| reach_activateBoost s : reachable s → reachable (activateBoost s)
| reach_runBoostTimeout s : reachable s → reachable (runBoostTimeout s)
| reach_setInvulnerable s duration :
    reachable s → reachable (setInvulnerable s duration)
| reach_grow s segmentType : reachable s → reachable (grow s segmentType)
| reach_applyGravitationalForce s fx fy :
    reachable s → reachable (applyGravitationalForce s fx fy)
| reach_update s deltaTime : reachable s → reachable (update s deltaTime)
| reach_takeDamage s rnd : reachable s → reachable (takeDamage s rnd).2.

(** The four unit steps of the grid. *)
Definition cardinal (d : Z * Z) : Prop :=
  d = (0, -1)%Z ∨ d = (0, 1)%Z ∨ d = (-1, 0)%Z ∨ d = (1, 0)%Z.



(** What [updateSegmentEffects] stores under ["armor"] for given segments. *)
Definition armorEntry (segs : list segment) : option powerUp :=
  let narmored := segmentCount segs armored in
  if (0 <? narmored)%nat then Some (PowerUp "Blindage" narmored (-1) None)
  else None.

(** A snake is well formed when its first segment is the head and the
    armor power-up agrees with its segments. *)
Definition wellFormed (s : t) : Prop :=
  (∃ first body, segments s = first :: body ∧ seg_type first = head) ∧
  activePowerUps s !! "armor" = armorEntry (segments s).

(** [getTail()]; [None] is [undefined]. *)
Definition getTail (s : t) : option segment := last (segments s).

(** [getMagneticRange()]; [None] is [undefined], the [range] of an entry
    that has none. *)
Definition getMagneticRange (s : t) : option nat :=
  match activePowerUps s !! "magnetism" with
  | Some magnetism => range magnetism
  | None => Some 0%nat
  end.

(** [canSurviveCollision()]. *)
Definition canSurviveCollision (s : t) : bool :=
  invulnerable s || hasEffect s "armor".

(** The power-ups that [updateSegmentEffects] derives from given segments
    when no other power-up is active. *)
Definition effectsOf (segs : list segment) : gmap string powerUp :=
  activePowerUps (updateSegmentEffects (setSegments (new 0 0 player) segs)).

(** The bookkeeping of a snake is coherent when its power-ups are those
    its segments give, its base speed is 1 and, outside a boost, so is
    its speed. *)
Definition coherent (s : t) : Prop :=
  activePowerUps s = effectsOf (segments s) ∧
  baseSpeed s = 1 ∧
  (boostActive s = false → speed s = 1).

(** The cell of a segment. *)
Definition position (seg : segment) : Z * Z := (seg_x seg, seg_y seg).

End Snake.

(** ** GameEngine: collisions between snakes (src/engine/game-engine.js) *)

Module GameEngine.

Local Open Scope Z_scope.

Inductive runState := stopped | running | paused.

(** The fields of the engine that the collision handlers read or write.
    [snakes] is the store of the [Snake] objects, by reference;
    [playerSnake] and [enemies] hold references into it, as the array
    [allSnakes] does.  [sounds] lists the calls of
    [audioManager.playSound], oldest first. *)
Record t := Mk {
  gridWidth : Z;
  gridHeight : Z;
  gameState : runState;
  score : Z;
  lives : Z;
  snakes : gmap nat Snake.t;
  playerSnake : nat;
  enemies : list nat;
  sounds : list string
}.

Definition playSound (e : t) (sound : string) : t :=
  Mk (gridWidth e) (gridHeight e) (gameState e) (score e) (lives e)
     (snakes e) (playerSnake e) (enemies e) (sounds e ++ [sound]).

Definition setSnake (e : t) (ref : nat) (sn : Snake.t) : t :=
  Mk (gridWidth e) (gridHeight e) (gameState e) (score e) (lives e)
     (<[ref := sn]> (snakes e)) (playerSnake e) (enemies e) (sounds e).

(** [respawnPlayer()]. *)
Definition respawnPlayer (e : t) : t :=
  let startX := gridWidth e `div` 2 in
  let startY := gridHeight e `div` 2 in
  match snakes e !! playerSnake e with
  | Some sn =>
      setSnake e (playerSnake e)
               (Snake.setInvulnerable (Snake.reset sn startX startY) 2000)
  | None => e
  end.

(** [array.indexOf(x)]; [None] is -1. *)
Fixpoint indexOf (l : list nat) (x : nat) : option nat :=
  match l with
  | [] => None
  | y :: rest => if decide (y = x) then Some 0%nat else S <$> indexOf rest x
  end.

(** [handleSnakeCollision(snake, type)]; the second argument is not used
    by the code. *)
Definition handleSnakeCollision (e : t) (snake : nat) : t :=
  match snakes e !! snake with
  | None => e
  | Some sn =>
      match Snake.type sn with
      | Snake.player =>
          let e1 := playSound
                      (Mk (gridWidth e) (gridHeight e) (gameState e) (score e)
                          (lives e - 1) (snakes e) (playerSnake e) (enemies e)
                          (sounds e)) "playerHit" in
          if lives e1 <=? 0 then
            playSound
              (Mk (gridWidth e1) (gridHeight e1) stopped (score e1) (lives e1)
                  (snakes e1) (playerSnake e1) (enemies e1) (sounds e1))
              "gameOver"
          else respawnPlayer e1
      | Snake.enemy =>
          match indexOf (enemies e) snake with
          | Some index =>
              playSound
                (Mk (gridWidth e) (gridHeight e) (gameState e) (score e + 50)
                    (lives e) (snakes e) (playerSnake e)
                    (delete index (enemies e)) (sounds e))
                "enemyDestroyed"
          | None => e
          end
      end
  end.

(** [snake.grow()] on a reference. *)
Definition growSnake (e : t) (snake : nat) : t :=
  match snakes e !! snake with
  | Some sn => setSnake e snake (Snake.grow sn Snake.normal)
  | None => e
  end.

(** [snake.segments.length] on a reference. *)
Definition segmentsLength (e : t) (snake : nat) : nat :=
  match snakes e !! snake with
  | Some sn => length (Snake.segments sn)
  | None => 0
  end.

(** [handleSnakeVsSnakeCollision(snake1, snake2)]. *)
Definition handleSnakeVsSnakeCollision (e : t) (snake1 snake2 : nat) : t :=
  if (segmentsLength e snake2 <? segmentsLength e snake1)%nat then
    growSnake (handleSnakeCollision e snake2) snake1
  else if (segmentsLength e snake1 <? segmentsLength e snake2)%nat then
    growSnake (handleSnakeCollision e snake1) snake2
  else
    handleSnakeCollision (handleSnakeCollision e snake1) snake2.

(** [checkSnakeCollision(snake1, snake2)]: the head of the first snake is
    on a segment of the second. *)
Definition checkSnakeCollision (e : t) (snake1 snake2 : nat) : bool :=
  match snakes e !! snake1, snakes e !! snake2 with
  | Some s1, Some s2 =>
      match Snake.getHead s1 with
      | Some head1 =>
          existsb (λ segment,
                     (Snake.seg_x head1 =? Snake.seg_x segment)
                     && (Snake.seg_y head1 =? Snake.seg_y segment))
                  (Snake.segments s2)
      | None => false
      end
  | _, _ => false
  end.

(** The pairs [(allSnakes[i], allSnakes[j])] with [i < j], in the order of
    the two nested loops. *)
Fixpoint pairs (l : list nat) : list (nat * nat) :=
  match l with
  | [] => []
  | x :: rest => (pair x <$> rest) ++ pairs rest
  end.

(** [checkSnakeVsSnakeCollisions()]. *)
Definition checkSnakeVsSnakeCollisions (e : t) : t :=
  let allSnakes := playerSnake e :: enemies e in
  foldl (λ e' '(snake1, snake2),
           if checkSnakeCollision e' snake1 snake2
           then handleSnakeVsSnakeCollision e' snake1 snake2 else e')
        e (pairs allSnakes).

(** [cleanupEntities()]. *)
Definition cleanupEntities (e : t) : t :=
  Mk (gridWidth e) (gridHeight e) (gameState e) (score e) (lives e)
     (snakes e) (playerSnake e)
     (List.filter (λ enemy,
                     match snakes e !! enemy with
                     | Some sn => Snake.alive sn
                     | None => false
                     end) (enemies e))
     (sounds e).

(** [snake.alive] on a reference. *)
Definition isAlive (e : t) (snake : nat) : bool :=
  match snakes e !! snake with
  | Some sn => Snake.alive sn
  | None => false
  end.

(** The references of the engine are consistent: the snake of type
    ['player'] is the player, and no enemy is listed twice. *)
Definition consistent (e : t) : Prop :=
  (∀ ref sn, snakes e !! ref = Some sn →
             (Snake.type sn = Snake.player ↔ ref = playerSnake e)) ∧
  NoDup (enemies e).

(** What [handleSnakeCollision] does to the snake that lost: the player
    loses a life, and the game stops or the player starts again from the
    middle of the grid, invulnerable; an enemy leaves the list of enemies. *)
Definition lostCollision (e e' : t) (snake : nat) : Prop :=
  if decide (snake = playerSnake e) then
    lives e' = lives e - 1 ∧
    (lives e' ≤ 0 → gameState e' = stopped) ∧
    (0 < lives e' →
     ∃ sn, snakes e' !! snake = Some sn ∧
           Snake.segments sn =
             [Snake.Segment (gridWidth e `div` 2) (gridHeight e `div` 2)
                            Snake.head] ∧
           Snake.invulnerable sn = true)
  else snake ∉ enemies e'.

(** The engine of the examples: the player at (5, 5) and two enemies of
    one segment each, both at (3, 3). *)
Definition headOnEngine : t :=
  Mk 40 30 running 0 3
     (<[0%nat := Snake.new 5 5 Snake.player]>
        (<[1%nat := Snake.new 3 3 Snake.enemy]>
           (<[2%nat := Snake.new 3 3 Snake.enemy]> ∅)))
     0%nat [1%nat; 2%nat] [].

(** The engine of the second example: as [headOnEngine], after the first
    enemy has grown to two segments. *)
Definition unequalEngine : t := growSnake headOnEngine 1%nat.

(** The engine of the third example: the player, of two segments, with
    its head at (5, 5) and its second segment at (4, 5), where the head
    of the one enemy is. *)
Definition bodyHitEngine : t :=
  Mk 40 30 running 0 3
     (<[0%nat := Snake.update (Snake.grow (Snake.new 4 5 Snake.player)
                                          Snake.normal) 0.1]>
        (<[1%nat := Snake.new 4 5 Snake.enemy]> ∅))
     0%nat [1%nat] [].

(** A snake is spared by the handlers of collisions, from a state [e] to
    a state [e']: the player keeps lives and game state, an enemy is in
    the list of enemies. *)
Definition spared (e e' : t) (snake : nat) : Prop :=
  if decide (snake = playerSnake e) then
    lives e' = lives e ∧ gameState e' = gameState e
  else snake ∈ enemies e'.

(** The collision of [snake1] with [snake2] is the only one the pass
    finds: no other pair of the pass collides, before this collision is
    handled or after it. *)
Definition onlyCollision (e : t) (snake1 snake2 : nat) : Prop :=
  ∀ a b, (a, b) ∈ pairs (playerSnake e :: enemies e) →
         (a, b) ≠ (snake1, snake2) →
         checkSnakeCollision e a b = false ∧
         checkSnakeCollision (handleSnakeVsSnakeCollision e snake1 snake2) a b
         = false.

(** One round of the inner loop of [checkSnakeVsSnakeCollisions]. *)
Definition passStep (e' : t) (p : nat * nat) : t :=
  if checkSnakeCollision e' p.1 p.2
  then handleSnakeVsSnakeCollision e' p.1 p.2 else e'.

(** What the handlers of collisions between snakes may change, from a
    state [e] to a state [e']: enemies leave the list, each for 50 points;
    lives are lost; no snake of the store is lost or dies. *)
Definition collisionOutcome (e e' : t) : Prop :=
  score e' = score e
             + 50 * (Z.of_nat (length (enemies e))
                     - Z.of_nat (length (enemies e'))) ∧
  enemies e' `sublist_of` enemies e ∧
  lives e' ≤ lives e ∧
  playerSnake e' = playerSnake e ∧
  gridWidth e' = gridWidth e ∧ gridHeight e' = gridHeight e ∧
  ∀ snake, isAlive e snake = true → isAlive e' snake = true.

End GameEngine.

(** ** GravityWell (src/entities/gravity-well.js) *)

Module GravityWell.

Local Open Scope R_scope.

(** The [type] of a well. *)
Inductive wellType := attract | repel | vortex | pulse.

(** A number computed by the well: a real, or [None] for the result of a
    division by zero, which is [NaN] or an infinity in JavaScript; adding,
    subtracting or multiplying it with a real never gives a real again. *)
Definition num := option R.

Definition nadd (a b : num) : num :=
  match a, b with Some u, Some v => Some (u + v) | _, _ => None end.

Definition nsub (a b : num) : num :=
  match a, b with Some u, Some v => Some (u - v) | _, _ => None end.

Definition nmul (a b : num) : num :=
  match a, b with Some u, Some v => Some (u * v) | _, _ => None end.

Definition ndiv (a b : R) : num :=
  if Req_dec_T b 0 then None else Some (a / b).

(** The fields of the well that the simulation reads; the particles are
    only drawn. *)
Record t := Mk {
  well_x : R;
  well_y : R;
  strength : R;
  radius : R;
  type : wellType;
  active : bool;
  phase : R
}.

(** What [applyGravity] reads and writes of a snake: [alive], the head
    returned by [getHead()], and the force that
    [applyGravitationalForce] accumulates. *)
Record target := Target {
  alive : bool;
  head_x : R;
  head_y : R;
  force_x : num;
  force_y : num
}.

(** [snake.applyGravitationalForce(fx, fy)].  The sums are those of exact
    reals; the code adds doubles, whose sum depends on the order of the
    terms in the last digits.  The properties below are signs, zeros and
    bounds, which rounding to nearest keeps. *)
Definition applyGravitationalForce (tg : target) (fx fy : num) : target :=
  Target (alive tg) (head_x tg) (head_y tg)
         (nadd (force_x tg) fx) (nadd (force_y tg) fy).

(** [Math.max(-0.5, Math.min(0.5, force))]. *)
Definition clamp (force : R) : R := Rmax (-0.5) (Rmin 0.5 force).

(** [calculateAttractiveForce(dx, dy, distance, isY = false)]. *)
Definition calculateAttractiveForce (w : t) (dx dy distance : R) (isY : bool)
  : R :=
  if Req_dec_T distance 0 then 0
  else
    let component := if isY then dy else dx in
    let force := strength w * component / (distance * distance + 1) in
    clamp force.

(** [calculateTangentialForce(dx, dy, distance)]. *)
Definition calculateTangentialForce (w : t) (dx dy distance : R) : R :=
  strength w * 0.3 / (distance + 1).

(** The offsets from the center of the head cell to the well, and their
    length, as [applyGravity] computes them. *)
Definition offset_x (w : t) (tg : target) : R := well_x w - (head_x tg + 0.5).
Definition offset_y (w : t) (tg : target) : R := well_y w - (head_y tg + 0.5).
Definition distanceTo (w : t) (tg : target) : R :=
  sqrt (offset_x w tg * offset_x w tg + offset_y w tg * offset_y w tg).

(** The body of [applyGravity(snake)] up to its last statement: [None]
    when the method returns early, otherwise the pair [(forceX, forceY)]
    handed to [applyGravitationalForce]. *)
Definition computedForce (w : t) (tg : target) : option (num * num) :=
  if negb (active w) || negb (alive tg) then None
  else
    let dx := offset_x w tg in
    let dy := offset_y w tg in
    let distance := distanceTo w tg in
    if Rlt_dec (radius w / 20) distance then None
    else
      Some
        match type w with
        | attract =>
            (Some (calculateAttractiveForce w dx dy distance false),
             Some (calculateAttractiveForce w dx dy distance true))
        | repel =>
            (Some (- calculateAttractiveForce w dx dy distance false),
             Some (- calculateAttractiveForce w dx dy distance true))
        | vortex =>
            let attractForce := calculateAttractiveForce w dx dy distance false in
            let tangentForce := calculateTangentialForce w dx dy distance in
            (nsub (Some attractForce)
                  (nmul (ndiv dy distance) (Some tangentForce)),
             nadd (Some (calculateAttractiveForce w dx dy distance true))
                  (nmul (ndiv dx distance) (Some tangentForce)))
        | pulse =>
            let pulseIntensity := sin (phase w * 3) * 0.5 + 0.5 in
            let baseForce :=
              calculateAttractiveForce w dx dy distance false * pulseIntensity in
            (Some baseForce,
             Some (calculateAttractiveForce w dx dy distance true
                   * pulseIntensity))
        end.

(** [applyGravity(snake)]. *)
Definition applyGravity (w : t) (tg : target) : target :=
  match computedForce w tg with
  | None => tg
  | Some (forceX, forceY) => applyGravitationalForce tg forceX forceY
  end.

(** [isInRange(x, y)]. *)
Definition isInRange (w : t) (x y : R) : bool :=
  let dx := well_x w - x in
  let dy := well_y w - y in
  let distance := sqrt (dx * dx + dy * dy) in
  if Rle_dec distance (radius w) then true else false.

(** A component within the bound of [clamp]. *)
Definition bounded (force : R) : Prop := -0.5 <= force <= 0.5.

(** The vortex of level 5 ("Vortex Spatial") in the level manager. *)
Definition level5Vortex : t := Mk 25 20 1.2 100 vortex true 0.

(** A snake on the cell (24, 19), next to that vortex. *)
Definition nearVortex : target := Target true 24 19 (Some 0) (Some 0).

(** An attracting well of radius 0 and a snake on the cell of its center. *)
Definition pointWell : t := Mk 0 0 1 0 attract true 0.
Definition onPointWell : target := Target true 0 0 (Some 0) (Some 0).

(** An attracting well of negative strength, and a snake one cell to its
    left. *)
Definition negativeWell : t := Mk 1.5 0.5 (-1) 50 attract true 0.
Definition leftOfWell : target := Target true 0 0 (Some 0) (Some 0).

End GravityWell.

(** ** LevelManager (src/systems/level-manager.js) *)

Module LevelManager.

Local Open Scope Q_scope.

(** The [difficulty] of a level. *)
Inductive difficulty := easy | medium | hard | extreme.

(** [calculateDifficulty(levelNumber)]. *)
Definition calculateDifficulty (levelNumber : Z) : difficulty :=
  if (levelNumber <=? 3)%Z then easy
  else if (levelNumber <=? 8)%Z then medium
  else if (levelNumber <=? 15)%Z then hard
  else extreme.

(** *** The seeded generator *)

(** [ToInt32], which the bit operators apply to their operands. *)
Definition toInt32 (z : Z) : Z := ((z + 2 ^ 31) `mod` 2 ^ 32 - 2 ^ 31)%Z.

(** [str.charCodeAt(i)] for the characters of a string. *)
Definition charCodes (str : string) : list Z :=
  (λ c, Z.of_nat (Ascii.nat_of_ascii c)) <$> String.list_ascii_of_string str.

(** One round of the loop of [hashCode]: [hash << 5], minus [hash], plus
    the code, then [hash & hash]. *)
Definition hashStep (hash char : Z) : Z :=
  toInt32 (toInt32 (hash * 32) - hash + char).

(** [hashCode(str)]. *)
Definition hashCode (str : string) : Z :=
  Z.abs (foldl hashStep 0%Z (charCodes str)).

(** One call of the function that [createSeededRandom(seed)] returns:
    the value returned and the new value of [currentSeed]. *)
Definition seededRandom (currentSeed : Z) : Q * Z :=
  let currentSeed' := Z.rem (currentSeed * 9301 + 49297) 233280 in
  (inject_Z currentSeed' / 233280, currentSeed').

(** A computation that draws from the seeded generator: from the seed
    before, its result and the seed after. *)
Definition gen (A : Type) : Type := Z → A * Z.

#[export] Instance gen_ret : MRet gen := λ A a seed, (a, seed).

#[export] Instance gen_bind : MBind gen := λ A B f m seed,
  let '(a, seed') := m seed in f a seed'.

(** [rng()]. *)
Definition rng : gen Q := seededRandom.

(** [array[Math.floor(r * array.length)]]; [None] is [undefined]. *)
Definition pick {A} (array : list A) (r : Q) : option A :=
  let index := Qfloor (r * inject_Z (Z.of_nat (length array))) in
  if (index <? 0)%Z then None else array !! Z.to_nat index.

(** The body of a [for] loop run [n] times, its results in order. *)
Fixpoint repeatGen {A} (n : nat) (body : gen A) : gen (list A) :=
  match n with
  | O => mret []
  | S n' => a ← body; rest ← repeatGen n' body; mret (a :: rest)
  end.

(** *** The parts of a generated level *)

(** [selectTheme(levelNumber, rng)]. *)
Definition selectTheme (levelNumber : Z) : gen (option string) :=
  r ← rng;
  mret (pick ["space"; "nebula"; "asteroid"; "blackhole"; "plasma"; "crystal"]
             r).

(** [themeDescriptions[theme] || themeDescriptions.space]. *)
Definition themeDescriptions (theme : option string) : list string :=
  if decide (theme = Some "nebula") then
    ["les nuages stellaires"; "la poussière d'étoile"; "les brumes cosmiques"]
  else if decide (theme = Some "asteroid") then
    ["le champ d'astéroïdes"; "les rochers spatiaux"; "la ceinture de débris"]
  else if decide (theme = Some "blackhole") then
    ["l'horizon des événements"; "la singularité"; "la distorsion spatiale"]
  else if decide (theme = Some "plasma") then
    ["les tempêtes solaires"; "l'énergie pure"; "les flux magnétiques"]
  else if decide (theme = Some "crystal") then
    ["les formations cristallines"; "les résonances harmoniques";
     "les géodes spatiales"]
  else ["l'espace infini"; "les étoiles lointaines"; "le vide cosmique"].

(** [generateDescription(levelNumber, theme, rng)]. *)
Definition generateDescription (levelNumber : Z) (theme : option string)
  : gen string :=
  r ← rng;
  mret ("Naviguez dans "
        +:+ default "undefined" (pick (themeDescriptions theme) r)).

(** [getMaxWellsForDifficulty(difficulty)]. *)
Definition getMaxWellsForDifficulty (d : difficulty) : Z :=
  match d with easy => 2 | medium => 3 | hard => 4 | extreme => 6 end.

(** [getMaxEnemiesForDifficulty(difficulty)]. *)
Definition getMaxEnemiesForDifficulty (d : difficulty) : Z :=
  match d with easy => 1 | medium => 2 | hard => 4 | extreme => 6 end.

(** [getAvailableBehaviors(difficulty)]. *)
Definition getAvailableBehaviors (d : difficulty) : list string :=
  match d with
  | easy => ["collector"]
  | medium => ["collector"; "territorial"]
  | hard => ["collector"; "hunter"; "territorial"; "mimic"]
  | extreme => ["collector"; "hunter"; "territorial"; "mimic"; "opportunist"]
  end.

(** The table [difficultyMultiplier] of [generateGravityWells]. *)
Definition difficultyMultiplier (d : difficulty) : Q :=
  match d with easy => 0.5 | medium => 0.8 | hard => 1 | extreme => 1.3 end.

(** An entry of [gravityWells] in the data of a level. *)
Record wellData := WellData {
  wd_x : Q;
  wd_y : Q;
  wd_strength : Q;
  wd_radius : Q;
  wd_type : option GravityWell.wellType
}.

(** One round of the loop of [generateGravityWells]: the draws are made
    in the order type, strength, radius, x, y. *)
Definition generateWell (d : difficulty) : gen wellData :=
  r1 ← rng;
  r2 ← rng;
  r3 ← rng;
  r4 ← rng;
  r5 ← rng;
  mret (WellData (10 + r4 * 30) (8 + r5 * 24)
                 ((0.3 + r2 * 0.8) * difficultyMultiplier d)
                 (40 + r3 * 60)
                 (pick [GravityWell.attract; GravityWell.repel;
                        GravityWell.vortex; GravityWell.pulse] r1)).

(** [generateGravityWells(levelNumber, difficulty, rng)]. *)
Definition generateGravityWells (levelNumber : Z) (d : difficulty)
  : gen (list wellData) :=
  r ← rng;
  let wellCount :=
    (Qfloor (r * inject_Z (getMaxWellsForDifficulty d)) + 1)%Z in
  repeatGen (Z.to_nat wellCount) (generateWell d).

(** An entry of [enemies] in the data of a level. *)
Record enemyData := EnemyData {
  ed_x : Q;
  ed_y : Q;
  ed_behavior : option string;
  ed_difficulty : difficulty
}.

(** One round of the loop of [generateEnemies]. *)
Definition generateEnemy (d : difficulty) : gen enemyData :=
  r1 ← rng;
  r2 ← rng;
  r3 ← rng;
  mret (EnemyData (5 + r2 * 40) (5 + r3 * 30)
                  (pick (getAvailableBehaviors d) r1) d).

(** [generateEnemies(levelNumber, difficulty, rng)]. *)
Definition generateEnemies (levelNumber : Z) (d : difficulty)
  : gen (list enemyData) :=
  r ← rng;
  let enemyCount :=
    (Qfloor (r * inject_Z (getMaxEnemiesForDifficulty d))
     + match d with easy => 0 | _ => 1 end)%Z in
  repeatGen (Z.to_nat enemyCount) (generateEnemy d).

(** [selectConstellationPattern(levelNumber, rng)], for level numbers
    from 0 on (a negative end of [slice] counts from the end). *)
Definition selectConstellationPattern (levelNumber : Z) : gen (option string) :=
  let patterns := ["triangle"; "cross"; "diamond"; "spiral"] in
  let availablePatterns :=
    take (Z.to_nat (Z.min (Z.of_nat (length patterns))
                          (levelNumber `div` 2 + 1))) patterns in
  r ← rng;
  mret (pick availablePatterns r).

(** [calculateCollectibleCount(levelNumber, difficulty)]. *)
Definition calculateCollectibleCount (levelNumber : Z) (d : difficulty) : Z :=
  let baseCount := 5%Z in
  let difficultyBonus :=
    match d with easy => 0 | medium => 2 | hard => 4 | extreme => 6 end%Z in
  let levelBonus := (levelNumber `div` 3)%Z in
  (baseCount + difficultyBonus + levelBonus)%Z.

(** [calculateTimeLimit(levelNumber, difficulty)]. *)
Definition calculateTimeLimit (levelNumber : Z) (d : difficulty) : Z :=
  match d with
  | easy => 0%Z
  | _ =>
      let baseTime := 120 in
      let difficultyMultiplier :=
        match d with medium => 1.2 | hard => 1 | _ => 0.8 end in
      let levelBonus := (levelNumber `div` 5 * 15)%Z in
      (Qfloor (baseTime * difficultyMultiplier) + levelBonus)%Z
  end.

(** An entry of [specialFeatures]. *)
Inductive feature :=
| portals (count : Z) (color : string)
| enhanced_segments (probability : Q)
| space_weather (weather : option string) (intensity : Q).

(** [generateSpecialFeatures(levelNumber, rng)]; [&&] draws only when the
    level number is large enough. *)
Definition generateSpecialFeatures (levelNumber : Z) : gen (list feature) :=
  features1 ←
    (if (10 <=? levelNumber)%Z then
       r ← rng;
       mret (if Qlt_le_dec r 0.3 then [portals 2 "#ff00ff"] else [])
     else mret []);
  features2 ←
    (if (5 <=? levelNumber)%Z then
       r ← rng;
       mret (if Qlt_le_dec r 0.5 then [enhanced_segments 0.3] else [])
     else mret []);
  features3 ←
    (if (8 <=? levelNumber)%Z then
       r ← rng;
       if Qlt_le_dec r 0.4 then
         r1 ← rng;
         r2 ← rng;
         mret [space_weather
                 (pick ["solar_wind"; "cosmic_storm"; "gravity_waves"] r1)
                 (0.3 + r2 * 0.4)]
       else mret []
     else mret []);
  mret (features1 ++ features2 ++ features3).

(** The data of a level. *)
Record level := Level {
  level_name : string;
  level_description : string;
  levelNumber : Z;
  generated : bool;
  level_difficulty : difficulty;
  theme : option string;
  gravityWells : list wellData;
  enemies : list enemyData;
  constellationPattern : option string;
  collectibleCount : Z;
  timeLimit : Q;
  specialFeatures : list feature
}.

(** The draws of [generateProceduralLevel], in the order of the code. *)
Definition generateLevelFrom (levelNumber : Z) : gen level :=
  let difficulty := calculateDifficulty levelNumber in
  theme ← selectTheme levelNumber;
  description ← generateDescription levelNumber theme;
  gravityWells ← generateGravityWells levelNumber difficulty;
  enemies ← generateEnemies levelNumber difficulty;
  constellationPattern ← selectConstellationPattern levelNumber;
  specialFeatures ← generateSpecialFeatures levelNumber;
  mret (Level ("Secteur " +:+ pretty levelNumber) description levelNumber true
              difficulty theme gravityWells enemies constellationPattern
              (calculateCollectibleCount levelNumber difficulty)
              (inject_Z (calculateTimeLimit levelNumber difficulty))
              specialFeatures).

(** [generateProceduralLevel(levelNumber)]: the generator is seeded with
    the hash of the decimal notation of the level number. *)
Definition generateProceduralLevel (levelNumber : Z) : level :=
  (generateLevelFrom levelNumber (hashCode (pretty levelNumber))).1.

(** *** Validation and balancing *)

(** The test of [strongWells]. *)
Definition strongWell (well : wellData) : bool :=
  if Qlt_le_dec 1 (wd_strength well) then true else false.

(** The third test of [validateLevel], also made by [balanceLevel]. *)
Definition timeTooShort (limit : Q) : bool :=
  (if Qlt_le_dec 0 limit then true else false)
  && (if Qlt_le_dec limit 60 then true else false).

(** [validateLevel(levelData)]: [valid] and [issues]. *)
Definition validateLevel (levelData : level) : bool * list string :=
  let issues1 :=
    if (collectibleCount levelData <? Z.of_nat (length (enemies levelData)))%Z
    then ["Trop d'ennemis par rapport aux collectibles"] else [] in
  let strongWells := List.filter strongWell (gravityWells levelData) in
  let issues2 :=
    if (2 <? length strongWells)%nat
    then ["Trop de puits gravitationnels puissants"] else [] in
  let issues3 :=
    if timeTooShort (timeLimit levelData)
    then ["Limite de temps trop courte"] else [] in
  let issues := issues1 ++ issues2 ++ issues3 in
  ((length issues =? 0)%nat, issues).

(** [balanceLevel(levelData)]. *)
Definition balanceLevel (levelData : level) : level :=
  if (validateLevel levelData).1 then levelData
  else
    let wells :=
      (λ well,
         if strongWell well
         then WellData (wd_x well) (wd_y well)
                       (Qmin (wd_strength well * 0.8) 1)
                       (wd_radius well) (wd_type well)
         else well) <$> gravityWells levelData in
    let limit :=
      if timeTooShort (timeLimit levelData)
      then Qmax (timeLimit levelData * 1.5) 90 else timeLimit levelData in
    Level (level_name levelData) (level_description levelData)
          (levelNumber levelData) (generated levelData)
          (level_difficulty levelData) (theme levelData) wells
          (enemies levelData) (constellationPattern levelData)
          (collectibleCount levelData) limit (specialFeatures levelData).

(** A computation that, run from a seed that is not negative, gives a
    result that satisfies [P] and leaves a seed that is not negative. *)
Definition yields {A} (m : gen A) (P : A → Prop) : Prop :=
  ∀ seed, (0 ≤ seed)%Z → P (m seed).1 ∧ (0 ≤ (m seed).2)%Z.

(** The bounds of a generated well for a difficulty. *)
Definition wellInBounds (d : difficulty) (well : wellData) : Prop :=
  10 <= wd_x well ∧ wd_x well < 40 ∧ 8 <= wd_y well ∧ wd_y well < 32 ∧
  0.3 * difficultyMultiplier d <= wd_strength well ∧
  wd_strength well < 1.1 * difficultyMultiplier d ∧
  40 <= wd_radius well ∧ wd_radius well < 100 ∧
  is_Some (wd_type well).

End LevelManager.

(** ** EnemyAI: choosing a direction (src/entities/enemy-ai.js) *)

Module EnemyAI.

Local Open Scope Z_scope.

(** What [isPositionSafe] reads of a gravity well.  Its positions are
    grid cells, so the well is given over the rationals, and the two
    distances the code takes square roots of are compared by their
    squares, as in [SpatialHash.distanceWithin]. *)
Record well := Well {
  well_x : Q;
  well_y : Q;
  well_radius : Q;
  well_type : GravityWell.wellType
}.

(** [well.isInRange(x, y)]. *)
Definition isInRange (w : well) (x y : Q) : bool :=
  let dx := (well_x w - x)%Q in
  let dy := (well_y w - y)%Q in
  Qle_bool 0 (well_radius w)
  && Qle_bool (dx * dx + dy * dy) (well_radius w * well_radius w).

(** [calculateDistance(pos1, pos2) < 2]. *)
Definition closerThan2 (x1 y1 x2 y2 : Q) : bool :=
  let dx := (x2 - x1)%Q in
  let dy := (y2 - y1)%Q in
  negb (Qle_bool 4 (dx * dx + dy * dy)).

(** [snake.segments] on a reference. *)
Definition segmentsOf (e : GameEngine.t) (snake : nat) : list Snake.segment :=
  match GameEngine.snakes e !! snake with
  | Some sn => Snake.segments sn
  | None => []
  end.

(** [segments.some(segment => segment.x === x && segment.y === y)], the
    test of the loops over segments. *)
Definition occupies (segs : list Snake.segment) (x y : Z) : bool :=
  existsb (λ segment, (Snake.seg_x segment =? x) && (Snake.seg_y segment =? y))
          segs.

(** [isPositionSafe(position)] for the AI of the snake [self], in an
    engine with the gravity wells [wells]. *)
Definition isPositionSafe (e : GameEngine.t) (wells : list well) (self : nat)
    (position : Z * Z) : bool :=
  let '(x, y) := position in
  if (x <? 0) || (GameEngine.gridWidth e <=? x)
     || (y <? 0) || (GameEngine.gridHeight e <=? y)
  then false
  else if occupies (segmentsOf e self) x y then false
  else if existsb (λ snake,
                     if decide (snake = self) then false
                     else if negb (GameEngine.isAlive e snake) then false
                     else occupies (segmentsOf e snake) x y)
                  (GameEngine.playerSnake e :: GameEngine.enemies e)
  then false
  else if existsb (λ w,
                     match well_type w with
                     | GravityWell.repel => true
                     | _ => false
                     end
                     && isInRange w (inject_Z x) (inject_Z y)
                     && closerThan2 (inject_Z x) (inject_Z y)
                                    (well_x w) (well_y w))
                  wells
  then false
  else true.

(** An entry of the array [directions] of [calculateBestDirection]. *)
Record candidate := Candidate {
  name : string;
  dx : Z;
  dy : Z;
  cost : Z
}.

(** [directions.sort((a, b) => a.cost - b.cost)]: the sort is stable, an
    entry stays before the later entries of the same cost. *)
Fixpoint insertByCost (c : candidate) (sorted : list candidate)
  : list candidate :=
  match sorted with
  | [] => [c]
  | c' :: rest =>
      if cost c <=? cost c' then c :: sorted else c' :: insertByCost c rest
  end.

Definition sortByCost (l : list candidate) : list candidate :=
  foldr insertByCost [] l.

(** The array [directions] before it is sorted, for the offsets [dx] and
    [dy] from the head to the target. *)
Definition candidates (dx dy : Z) : list candidate :=
  [ Candidate "right" 1 0 (Z.abs (dx - 1) + Z.abs dy);
    Candidate "left" (-1) 0 (Z.abs (dx + 1) + Z.abs dy);
    Candidate "down" 0 1 (Z.abs dx + Z.abs (dy - 1));
    Candidate "up" 0 (-1) (Z.abs dx + Z.abs (dy + 1)) ].

(** [calculateBestDirection(target)]; [None] stands for the [TypeError]
    of reading the head of a snake without segments. *)
Definition calculateBestDirection (e : GameEngine.t) (wells : list well)
    (self : nat) (target : Z * Z) : option string :=
  match segmentsOf e self with
  | [] => None
  | head :: _ =>
      let dx := target.1 - Snake.seg_x head in
      let dy := target.2 - Snake.seg_y head in
      let directions := sortByCost (candidates dx dy) in
      match List.find (λ dir,
                         isPositionSafe e wells self
                           (Snake.seg_x head + EnemyAI.dx dir,
                            Snake.seg_y head + EnemyAI.dy dir))
                      directions with
      | Some dir => Some (name dir)
      | None => name <$> List.head directions
      end
  end.



(** [vectorToDirection(vector)]. *)
Definition vectorToDirection (x y : Q) : string :=
  let absX := Qabs.Qabs x in
  let absY := Qabs.Qabs y in
  if Qlt_le_dec absY absX
  then (if Qlt_le_dec 0 x then "right" else "left")
  else (if Qlt_le_dec 0 y then "down" else "up").

(** The number of steps between two cells. *)
Definition manhattan (a b : Z * Z) : Z :=
  Z.abs (a.1 - b.1) + Z.abs (a.2 - b.2).


End EnemyAI.

(** ** SpatialHash: properties *)

Module SpatialHashSpec.
Import SpatialHash.
Local Open Scope Q_scope.

(** *** How the two loops change one cell *)

Lemma lookup_addToCell o c key k :
  addToCell o c key !! k =
  if decide (k = key) then Some (default ∅ (c !! k) ∪ {[o]}) else c !! k.
Proof.
  unfold addToCell. destruct (c !! key) as [cellSet|] eqn:Hkey.
  - rewrite Hkey. destruct (decide (k = key)) as [->|Hne].
    + by rewrite lookup_insert_eq, Hkey.
    + by rewrite lookup_insert_ne.
  - rewrite lookup_insert_eq. destruct (decide (k = key)) as [->|Hne].
    + by rewrite lookup_insert_eq, Hkey.
    + by rewrite !lookup_insert_ne.
Qed.

Lemma lookup_removeFromCell o c key k :
  removeFromCell o c key !! k =
  if decide (k = key) then rmCell o (c !! k) else c !! k.
Proof.
  unfold removeFromCell, rmCell.
  destruct (decide (k = key)) as [->|Hne].
  - destruct (c !! key) as [cellSet|] eqn:Hkey; [|done].
    destruct (decide (size (cellSet ∖ {[o]}) = 0%nat)) as [Hz|Hnz].
    + rewrite lookup_delete_eq. apply size_empty_inv in Hz.
      apply leibniz_equiv in Hz. by case_decide.
    + rewrite lookup_insert_eq. case_decide as He; [|done].
      destruct Hnz. by rewrite He, size_empty.
  - destruct (c !! key) as [cellSet|]; [|done].
    case_decide; by rewrite ?lookup_delete_ne, ?lookup_insert_ne.
Qed.

Lemma rmCell_idemp o cell : rmCell o (rmCell o cell) = rmCell o cell.
Proof.
  destruct cell as [cellSet|]; [|done]. simpl.
  destruct (decide (cellSet ∖ {[o]} = ∅)) as [He|Hne]; [done|].
  simpl. assert (cellSet ∖ {[o]} ∖ {[o]} = cellSet ∖ {[o]}) as -> by set_solver.
  by case_decide.
Qed.

Lemma lookup_foldl_addToCell o keys c k :
  foldl (addToCell o) c keys !! k =
  if decide (k ∈ keys) then Some (default ∅ (c !! k) ∪ {[o]}) else c !! k.
Proof.
  revert c. induction keys as [|key keys IH]; intros c; cbn [foldl].
  - destruct (decide (k ∈ [])) as [Hin|]; [|done]. by apply elem_of_nil in Hin.
  - rewrite IH, lookup_addToCell.
    destruct (decide (k = key)) as [->|Hne].
    + destruct (decide (key ∈ key :: keys)) as [_|Hn]; [|destruct Hn; by left].
      destruct (decide (key ∈ keys)); [|done].
      simpl. f_equal. set_solver.
    + destruct (decide (k ∈ keys)) as [Hin|Hnin];
        destruct (decide (k ∈ key :: keys)) as [Hin'|Hnin']; try done.
      * destruct Hnin'. by right.
      * apply elem_of_cons in Hin' as [?|?]; done.
Qed.

Lemma lookup_foldl_removeFromCell o keys c k :
  foldl (removeFromCell o) c keys !! k =
  if decide (k ∈ keys) then rmCell o (c !! k) else c !! k.
Proof.
  revert c. induction keys as [|key keys IH]; intros c; cbn [foldl].
  - destruct (decide (k ∈ [])) as [Hin|]; [|done]. by apply elem_of_nil in Hin.
  - rewrite IH, lookup_removeFromCell.
    destruct (decide (k = key)) as [->|Hne].
    + destruct (decide (key ∈ key :: keys)) as [_|Hn]; [|destruct Hn; by left].
      destruct (decide (key ∈ keys)); [|done]. apply rmCell_idemp.
    + destruct (decide (k ∈ keys)) as [Hin|Hnin];
        destruct (decide (k ∈ key :: keys)) as [Hin'|Hnin']; try done.
      * destruct Hnin'. by right.
      * apply elem_of_cons in Hin' as [?|?]; done.
Qed.

Lemma default_rmCell o cell :
  default ∅ (rmCell o cell) = default ∅ cell ∖ {[o]}.
Proof.
  destruct cell as [cellSet|]; simpl; [|set_solver].
  case_decide as He; simpl; [by rewrite He|done].
Qed.

Lemma invariant_ext s s' :
  cellSize s = cellSize s' → cells s = cells s' → objects s = objects s' →
  invariant s → invariant s'.
Proof.
  intros Hsize Hcells Hobjects [Hk Hn Hm]. split.
  - intros o od. rewrite <- Hobjects. intros Hod.
    rewrite (Hk o od Hod). unfold computedCells, getObjectCells.
    by rewrite Hsize.
  - intros key. unfold cellOf. rewrite <- Hcells. apply Hn.
  - intros o key. unfold cellOf. rewrite <- Hcells, <- Hobjects. apply Hm.
Qed.

Lemma cellOf_is_Some s o key : o ∈ cellOf s key → is_Some (cells s !! key).
Proof.
  unfold cellOf. destruct (cells s !! key); [by eexists|]. set_solver.
Qed.

Lemma invariant_new size : invariant (new size).
Proof.
  split.
  - intros o od. simpl. by rewrite lookup_empty.
  - intros key. unfold cellOf. simpl. rewrite lookup_empty. split.
    + by intros [? ?].
    + intros [o Ho]. simpl in Ho. set_solver.
  - intros o key. unfold cellOf. simpl. rewrite !lookup_empty. simpl. split.
    + set_solver.
    + by intros (od & ? & _).
Qed.

Lemma invariant_remove s o : invariant s → invariant (remove s o).2.
Proof.
  intros [Hk Hn Hm]. unfold remove.
  destruct (objects s !! o) as [od|] eqn:Hod; [|by split]. simpl.
  assert (Hcell : ∀ key,
    default ∅ (foldl (removeFromCell o) (cells s) (cellKeys od) !! key) =
    if decide (key ∈ cellKeys od) then cellOf s key ∖ {[o]} else cellOf s key).
  { intros key. rewrite lookup_foldl_removeFromCell.
    case_decide; [apply default_rmCell|done]. }
  split; simpl.
  - intros o' od' [_ Hod']%lookup_delete_Some. by rewrite (Hk o' od' Hod').
  - intros key. unfold cellOf. simpl. split.
    + intros [cellSet Hset]. rewrite Hset. simpl.
      rewrite lookup_foldl_removeFromCell in Hset. case_decide.
      * destruct (cells s !! key) as [cellSet0|]; [|done]. simpl in Hset.
        case_decide as Hne; [done|]. injection Hset as <-.
        by apply set_choose_L.
      * destruct (Hn key) as [Hex _]. rewrite Hset in Hex.
        destruct Hex as [o' Ho']; [by eexists|]. exists o'.
        unfold cellOf in Ho'. by rewrite Hset in Ho'.
    + intros [o' Ho'].
      destruct (foldl _ _ _ !! key); [by eexists|]. set_solver.
  - intros o' key. unfold cellOf. simpl. rewrite Hcell.
    specialize (Hm o' key). destruct (decide (o' = o)) as [->|Hne].
    + rewrite lookup_delete_eq. split; [|by intros (? & ? & _)].
      case_decide as Hin; [set_solver|].
      intros Ho. apply Hm in Ho as (od' & Hod' & Hkey). congruence.
    + rewrite lookup_delete_ne; [|done]. case_decide; set_solver.
Qed.

Lemma objects_remove s o : objects (remove s o).2 !! o = None.
Proof.
  unfold remove. destruct (objects s !! o) eqn:Hod; simpl; [|done].
  apply lookup_delete_eq.
Qed.


(** Registering an object that the index does not know. *)
Lemma invariant_register s o x y width height now st :
  invariant s → objects s !! o = None →
  let keys := getObjectCells s x y width height in
  invariant (Mk (cellSize s) (foldl (addToCell o) (cells s) keys)
                (<[o := ObjectData keys x y width height now]> (objects s)) st).
Proof.
  intros [Hk Hn Hm] Hfresh keys.
  assert (Hcell : ∀ key,
    default ∅ (foldl (addToCell o) (cells s) keys !! key) =
    if decide (key ∈ keys) then cellOf s key ∪ {[o]} else cellOf s key).
  { intros key. rewrite lookup_foldl_addToCell. by case_decide. }
  split; simpl.
  - intros o' od'. destruct (decide (o' = o)) as [->|Hne].
    + rewrite lookup_insert_eq. by intros [= <-].
    + rewrite lookup_insert_ne; [|done]. intros Hod'. by rewrite (Hk o' od' Hod').
  - intros key. unfold cellOf. simpl. rewrite Hcell.
    rewrite lookup_foldl_addToCell. case_decide.
    + split; [intros _; exists o; set_solver|by eexists].
    + apply Hn.
  - intros o' key. unfold cellOf. simpl. rewrite Hcell.
    specialize (Hm o' key). destruct (decide (o' = o)) as [->|Hne].
    + rewrite lookup_insert_eq. case_decide as Hin.
      * split; [by eexists|set_solver].
      * split; [|by intros (? & [= <-] & ?)].
        intros Ho. apply Hm in Ho as (od' & Hod' & _). congruence.
    + rewrite lookup_insert_ne; [|done]. case_decide; set_solver.
Qed.

Lemma invariant_add s o x y width height now :
  invariant s → invariant (add s o x y width height now).
Proof.
  intros Hinv. unfold add.
  apply invariant_register; [by apply invariant_remove|apply objects_remove].
Qed.

Lemma arraysEqual_Permutation arr1 arr2 :
  arraysEqual arr1 arr2 = true → arr1 ≡ₚ arr2.
Proof.
  unfold arraysEqual. case_decide; [done|].
  intros Heq%bool_decide_eq_true. unfold sortKeys in Heq.
  rewrite <- (merge_sort_Permutation keyLe arr1), Heq.
  apply merge_sort_Permutation.
Qed.



(** *** Registration and point queries *)

Lemma elem_of_zrange z a b : z ∈ zrange a b ↔ (a ≤ z ≤ b)%Z.
Proof.
  unfold zrange. rewrite list_elem_of_fmap. split.
  - intros (i & -> & Hi). apply elem_of_seq in Hi. lia.
  - intros Hz. exists (Z.to_nat (z - a)). split; [lia|].
    apply elem_of_seq. lia.
Qed.

Lemma elem_of_getObjectCells s x y width height key :
  key ∈ getObjectCells s x y width height ↔
  ∃ cellX cellY, key = cellKey cellX cellY ∧
    (Qfloor (x / cellSize s) ≤ cellX ≤ Qfloor ((x + width - 1) / cellSize s))%Z ∧
    (Qfloor (y / cellSize s) ≤ cellY ≤ Qfloor ((y + height - 1) / cellSize s))%Z.
Proof.
  unfold getObjectCells. rewrite list_elem_of_bind. split.
  - intros (cellX & (cellY & ->%list_elem_of_singleton & Hy)%list_elem_of_bind & Hx).
    apply elem_of_zrange in Hx, Hy. by exists cellX, cellY.
  - intros (cellX & cellY & -> & Hx & Hy). exists cellX. split.
    + apply list_elem_of_bind. exists cellY.
      split; [apply list_elem_of_singleton; done|by apply elem_of_zrange].
    + by apply elem_of_zrange.
Qed.

Lemma Qfloor_le_iff (q : Q) (c : Z) :
  (Qfloor q ≤ c)%Z ↔ q < inject_Z (c + 1).
Proof.
  split.
  - intros Hle. apply Qlt_le_trans with (inject_Z (Qfloor q + 1)).
    + apply Qlt_floor.
    + rewrite <- Zle_Qle. lia.
  - intros Hlt. pose proof (Qfloor_le q) as Hfloor.
    assert (Hz : inject_Z (Qfloor q) < inject_Z (c + 1))
      by by apply Qle_lt_trans with q.
    rewrite <- Zlt_Qlt in Hz. lia.
Qed.

Lemma Qfloor_ge_iff (q : Q) (c : Z) :
  (c ≤ Qfloor q)%Z ↔ inject_Z c <= q.
Proof.
  split.
  - intros Hle. apply Qle_trans with (inject_Z (Qfloor q)).
    + by rewrite <- Zle_Qle.
    + apply Qfloor_le.
  - intros Hle. rewrite <- (Qfloor_Z c). by apply Qfloor_resp_le.
Qed.

Lemma Qdiv_mult_cancel (a size : Q) : 0 < size → a / size * size == a.
Proof. intros Hsize. field. intros Hzero. rewrite Hzero in Hsize. lra. Qed.


Lemma Qfloor_div_le (a b size : Q) :
  0 < size → a <= b → (Qfloor (a / size) ≤ Qfloor (b / size))%Z.
Proof.
  intros Hsize Hab. apply Qfloor_resp_le. unfold Qdiv.
  apply Qmult_le_compat_r; [done|].
  apply Qlt_le_weak. by apply Qinv_lt_0_compat.
Qed.



Lemma queryPoint_radius_0 s x y o :
  o ∈ (queryPoint s x y 0).1 ↔ o ∈ cellOf s (getCellKey s x y).
Proof.
  unfold queryPoint, cellOf. simpl. rewrite elem_of_elements.
  by destruct (cells s !! getCellKey s x y).
Qed.



(** Under the invariant, [remove] leaves the object in no cell at all. *)
Lemma remove_all_cells s o key :
  invariant s → o ∉ cellOf (remove s o).2 key.
Proof.
  intros Hs Ho.
  pose proof (invariant_remove s o Hs) as [_ _ Hm].
  apply Hm in Ho as (od & Hod & _). by rewrite objects_remove in Hod.
Qed.

(** *** The stated properties *)




(** *** The recorded cells and the cells a box overlaps *)

Lemma pointInRect_true px py rx ry rw rh :
  pointInRect px py rx ry rw rh = true ↔
  rx <= px ∧ px < rx + rw ∧ ry <= py ∧ py < ry + rh.
Proof.
  unfold pointInRect. rewrite !andb_true_iff, !negb_true_iff.
  rewrite <- !not_true_iff_false, !Qle_bool_iff. split.
  - intros [[[A B] C] D]. repeat split; try done; by apply Qnot_le_lt.
  - intros (A & B & C & D). repeat split; try done; by apply Qlt_not_le.
Qed.

Lemma Qfloor_eq_iff (q : Q) (c : Z) :
  Qfloor q = c ↔ inject_Z c <= q ∧ q < inject_Z (c + 1).
Proof.
  rewrite <- Qfloor_le_iff, <- Qfloor_ge_iff. lia.
Qed.

Lemma Qfloor_div_eq_iff (x size : Q) (c : Z) :
  0 < size →
  Qfloor (x / size) = c ↔ inject_Z c * size <= x ∧ x < inject_Z (c + 1) * size.
Proof.
  intros Hsize. rewrite Qfloor_eq_iff.
  rewrite <- (Qmult_lt_r _ _ size Hsize), <- (Qmult_le_r _ _ size Hsize).
  by rewrite !Qdiv_mult_cancel.
Qed.








(** *** Further properties of the index *)

(** *** Rectangles *)

Lemma rectsOverlap_true x1 y1 w1 h1 x2 y2 w2 h2 :
  rectsOverlap x1 y1 w1 h1 x2 y2 w2 h2 = true ↔
  x1 < x2 + w2 ∧ x2 < x1 + w1 ∧ y1 < y2 + h2 ∧ y2 < y1 + h1.
Proof.
  unfold rectsOverlap. rewrite negb_true_iff, !orb_false_iff.
  rewrite <- !not_true_iff_false, !Qle_bool_iff. split.
  - intros [[[A B] C] D]. repeat split; by apply Qnot_le_lt.
  - intros (A & B & C & D). repeat split; by apply Qlt_not_le.
Qed.


Lemma rectsOverlap_sym x1 y1 w1 h1 x2 y2 w2 h2 :
  rectsOverlap x1 y1 w1 h1 x2 y2 w2 h2 = rectsOverlap x2 y2 w2 h2 x1 y1 w1 h1.
Proof. apply eq_true_iff_eq. rewrite !rectsOverlap_true. tauto. Qed.

(** X1.  Two boxes of positive width and height overlap, in the sense of
    [rectsOverlap], exactly when some point lies in both, in the sense of
    [pointInRect]; and the test does not depend on the order of the two
    boxes. *)
Theorem rectsOverlap_common_point x1 y1 w1 h1 x2 y2 w2 h2 :
  0 < w1 → 0 < h1 → 0 < w2 → 0 < h2 →
  (rectsOverlap x1 y1 w1 h1 x2 y2 w2 h2 = true ↔
   ∃ px py, pointInRect px py x1 y1 w1 h1 = true ∧
            pointInRect px py x2 y2 w2 h2 = true) ∧
  rectsOverlap x1 y1 w1 h1 x2 y2 w2 h2 = rectsOverlap x2 y2 w2 h2 x1 y1 w1 h1.
Proof.
  intros Hw1 Hh1 Hw2 Hh2. split; [|apply rectsOverlap_sym].
  rewrite rectsOverlap_true. split.
  - intros (A & B & C & D).
    exists (if Qlt_le_dec x1 x2 then x2 else x1),
           (if Qlt_le_dec y1 y2 then y2 else y1).
    rewrite !pointInRect_true.
    destruct (Qlt_le_dec x1 x2), (Qlt_le_dec y1 y2); repeat split; lra.
  - intros (px & py & [A B]). apply pointInRect_true in A, B. lra.
Qed.

Lemma rectsOverlap_common_point_witness :
  (rectsOverlap 0 0 2 2 1 1 3 3 = true ↔
   ∃ px py, pointInRect px py 0 0 2 2 = true ∧
            pointInRect px py 1 1 3 3 = true) ∧
  rectsOverlap 0 0 2 2 1 1 3 3 = rectsOverlap 1 1 3 3 0 0 2 2.
Proof. apply (rectsOverlap_common_point 0 0 2 2 1 1 3 3); reflexivity. Defined.

(** *** The loop of the queries *)

Lemma elem_of_collectFrom s test keys o :
  o ∈ collectFrom s test keys ↔
  ∃ key, key ∈ keys ∧ o ∈ cellOf s key ∧ test o = true.
Proof.
  unfold collectFrom.
  cut (∀ acc : gset obj,
         o ∈ foldl (λ (res : gset obj) key,
                      match cells s !! key with
                      | Some cell => res ∪ filter (λ o, test o = true) cell
                      | None => res
                      end) acc keys ↔
         o ∈ acc ∨ ∃ key, key ∈ keys ∧ o ∈ cellOf s key ∧ test o = true).
  { intros H. rewrite H. set_solver. }
  induction keys as [|k keys IH]; intros acc; cbn [foldl].
  - split; [by left|]. intros [?|(key & Hkey & _)]; [done|].
    by apply elem_of_nil in Hkey.
  - rewrite IH. split.
    + intros [Hacc|(key & Hkey & Ho & Ht)].
      * destruct (cells s !! k) as [cell|] eqn:Hk; [|by left].
        apply elem_of_union in Hacc as [?|[Ht Ho]%elem_of_filter]; [by left|].
        right. exists k. split; [by left|]. unfold cellOf. by rewrite Hk.
      * right. exists key. split; [by right|done].
    + intros [Hacc|(key & Hkey & Ho & Ht)].
      * left. destruct (cells s !! k); [|done]. set_solver.
      * apply elem_of_cons in Hkey as [->|Hkey].
        -- left. unfold cellOf in Ho. destruct (cells s !! k); [|set_solver].
           apply elem_of_union. right. by apply elem_of_filter.
        -- right. by exists key.
Qed.

Lemma elem_of_queryRect s x y width height o :
  o ∈ (queryRect s x y width height).1 ↔
  ∃ key, key ∈ getObjectCells s x y width height ∧ o ∈ cellOf s key ∧
         overlapsRect s x y width height o = true.
Proof.
  unfold queryRect. simpl. rewrite elem_of_elements.
  apply elem_of_collectFrom.
Qed.

(** Under the invariant, an object is in every cell that its recorded box
    overlaps. *)
Lemma registered_cell s o od cellX cellY :
  invariant s → objects s !! o = Some od →
  (Qfloor (obj_x od / cellSize s) ≤ cellX
   ≤ Qfloor ((obj_x od + obj_width od - 1) / cellSize s))%Z →
  (Qfloor (obj_y od / cellSize s) ≤ cellY
   ≤ Qfloor ((obj_y od + obj_height od - 1) / cellSize s))%Z →
  cellKey cellX cellY ∈ cellKeys od ∧ o ∈ cellOf s (cellKey cellX cellY).
Proof.
  intros [Hk _ Hm] Hod Hx Hy.
  assert (Hkey : cellKey cellX cellY ∈ cellKeys od).
  { apply (elem_of_list_to_set (C := gset string)). rewrite (Hk o od Hod).
    unfold computedCells. apply elem_of_list_to_set, elem_of_getObjectCells.
    by exists cellX, cellY. }
  split; [done|]. apply Hm. by exists od.
Qed.

(** The cell of a point that lies in a box shrunk by one unit is among
    the cells of the box. *)
Lemma point_cell_range (x width size p : Q) :
  0 < size → x <= p → p <= x + width - 1 →
  (Qfloor (x / size) ≤ Qfloor (p / size) ≤ Qfloor ((x + width - 1) / size))%Z.
Proof. intros Hsize Hlo Hhi. split; by apply Qfloor_div_le. Qed.

(** A registered object whose box, shrunk by one unit, shares a point
    with the query box, shrunk likewise, shares a cell with it. *)
Lemma shared_cell s x y width height o od px py :
  invariant s → 0 < cellSize s → objects s !! o = Some od →
  x <= px → px <= x + width - 1 → y <= py → py <= y + height - 1 →
  obj_x od <= px → px <= obj_x od + obj_width od - 1 →
  obj_y od <= py → py <= obj_y od + obj_height od - 1 →
  ∃ key, key ∈ getObjectCells s x y width height ∧
         key ∈ cellKeys od ∧ o ∈ cellOf s key.
Proof.
  intros Hinv Hsize Hod Hx1 Hx2 Hy1 Hy2 Hox1 Hox2 Hoy1 Hoy2.
  exists (cellKey (Qfloor (px / cellSize s)) (Qfloor (py / cellSize s))).
  split.
  - apply elem_of_getObjectCells. eexists _, _. split; [done|].
    split; by apply point_cell_range.
  - apply registered_cell; try done; by apply point_cell_range.
Qed.

Lemma grid_lt_le (a b c : Z) :
  inject_Z a < inject_Z b + inject_Z c →
  inject_Z a <= inject_Z b + inject_Z c - 1.
Proof.
  intros Hlt. rewrite <- inject_Z_plus, <- Zlt_Qlt in Hlt.
  unfold Qminus. rewrite <- inject_Z_plus.
  change (- (1)) with (inject_Z (-1)). rewrite <- inject_Z_plus, <- Zle_Qle.
  lia.
Qed.

(** Two overlapping boxes with integer corners and sizes of at least one
    share a point of the boxes shrunk by one unit. *)
Lemma grid_common_point (x y width height ox oy ow oh : Z) :
  (1 ≤ width)%Z → (1 ≤ height)%Z → (1 ≤ ow)%Z → (1 ≤ oh)%Z →
  rectsOverlap (inject_Z x) (inject_Z y) (inject_Z width) (inject_Z height)
               (inject_Z ox) (inject_Z oy) (inject_Z ow) (inject_Z oh) = true →
  ∃ px py,
    (inject_Z x <= px ∧ px <= inject_Z x + inject_Z width - 1 ∧
     inject_Z y <= py ∧ py <= inject_Z y + inject_Z height - 1) ∧
    (inject_Z ox <= px ∧ px <= inject_Z ox + inject_Z ow - 1 ∧
     inject_Z oy <= py ∧ py <= inject_Z oy + inject_Z oh - 1).
Proof.
  intros Hw Hh How Hoh (A & B & C & D)%rectsOverlap_true.
  apply grid_lt_le in A, B, C, D.
  rewrite Zle_Qle in Hw, Hh, How, Hoh.
  change (inject_Z 1) with 1 in Hw, Hh, How, Hoh.
  exists (if Qlt_le_dec (inject_Z x) (inject_Z ox)
          then inject_Z ox else inject_Z x),
         (if Qlt_le_dec (inject_Z y) (inject_Z oy)
          then inject_Z oy else inject_Z y).
  destruct (Qlt_le_dec (inject_Z x) (inject_Z ox)),
           (Qlt_le_dec (inject_Z y) (inject_Z oy)); repeat split; lra.
Qed.

Lemma rectsOverlap_proper x1 y1 w1 h1 x2 y2 w2 h2 x2' y2' w2' h2' :
  x2 == x2' → y2 == y2' → w2 == w2' → h2 == h2' →
  rectsOverlap x1 y1 w1 h1 x2 y2 w2 h2 = rectsOverlap x1 y1 w1 h1 x2' y2' w2' h2'.
Proof.
  intros Hx Hy Hw Hh. apply eq_true_iff_eq. rewrite !rectsOverlap_true.
  by rewrite Hx, Hy, Hw, Hh.
Qed.

(** X2.  On a grid (integer corners, sizes of at least one) the
    rectangle query is exact: a registered object is returned exactly
    when its recorded box overlaps the query box. *)
Theorem queryRect_exact_on_grid s (x y width height ox oy ow oh : Z) o od :
  invariant s → 0 < cellSize s → objects s !! o = Some od →
  obj_x od == inject_Z ox → obj_y od == inject_Z oy →
  obj_width od == inject_Z ow → obj_height od == inject_Z oh →
  (1 ≤ width)%Z → (1 ≤ height)%Z → (1 ≤ ow)%Z → (1 ≤ oh)%Z →
  o ∈ (queryRect s (inject_Z x) (inject_Z y)
                 (inject_Z width) (inject_Z height)).1 ↔
  rectsOverlap (inject_Z x) (inject_Z y) (inject_Z width) (inject_Z height)
               (obj_x od) (obj_y od) (obj_width od) (obj_height od) = true.
Proof.
  intros Hinv Hsize Hod Hox Hoy How Hoh Hw Hh Hw' Hh'.
  rewrite elem_of_queryRect. unfold overlapsRect. rewrite Hod. split.
  - by intros (_ & _ & _ & Hover).
  - intros Hover.
    rewrite (rectsOverlap_proper _ _ _ _ _ _ _ _ _ _ _ _ Hox Hoy How Hoh)
      in Hover.
    destruct (grid_common_point _ _ _ _ _ _ _ _ Hw Hh Hw' Hh' Hover)
      as (px & py & (? & ? & ? & ?) & (? & ? & ? & ?)).
    destruct (shared_cell s (inject_Z x) (inject_Z y) (inject_Z width)
                (inject_Z height) o od px py) as (key & Hkey & _ & Ho);
      try done; try lra.
    exists key. repeat split; try done.
    by rewrite (rectsOverlap_proper _ _ _ _ _ _ _ _ _ _ _ _ Hox Hoy How Hoh).
Qed.

Lemma queryRect_exact_on_grid_witness :
  let s := add (new 20) 1%nat 19 (-3) 2 5 7 in
  let od := ObjectData (getObjectCells (new 20) 19 (-3) 2 5) 19 (-3) 2 5 7 in
  1%nat ∈ (queryRect s (inject_Z 20) (inject_Z 0)
                     (inject_Z 1) (inject_Z 1)).1 ↔
  rectsOverlap (inject_Z 20) (inject_Z 0) (inject_Z 1) (inject_Z 1)
               (obj_x od) (obj_y od) (obj_width od) (obj_height od) = true.
Proof.
  apply (queryRect_exact_on_grid
           (add (new 20) 1%nat 19 (-3) 2 5 7) 20 0 1 1 19 (-3) 2 5 1%nat
           (ObjectData (getObjectCells (new 20) 19 (-3) 2 5) 19 (-3) 2 5 7)).
  - apply invariant_add, invariant_new.
  - reflexivity.
  - vm_compute. reflexivity.
  - reflexivity.
  - reflexivity.
  - reflexivity.
  - reflexivity.
  - lia.
  - lia.
  - lia.
  - lia.
Defined.

(** *** Collisions of one object *)

Lemma overlapsRect_true s x y width height o :
  overlapsRect s x y width height o = true ↔
  ∃ od, objects s !! o = Some od ∧
        rectsOverlap x y width height (obj_x od) (obj_y od)
                     (obj_width od) (obj_height od) = true.
Proof.
  unfold overlapsRect. destruct (objects s !! o) as [od|].
  - split; [by exists od|by intros (? & [= <-] & ?)].
  - split; [done|by intros (? & ? & _)].
Qed.

Lemma elem_of_queryCollisions s o od o' :
  objects s !! o = Some od →
  o' ∈ (queryCollisions s o).1 ↔
  o' ≠ o ∧ (∃ key, key ∈ cellKeys od ∧ o' ∈ cellOf s key) ∧
  overlapsRect s (obj_x od) (obj_y od) (obj_width od) (obj_height od) o' = true.
Proof.
  intros Hod. unfold queryCollisions. rewrite Hod. simpl.
  rewrite elem_of_elements, elem_of_collectFrom. split.
  - intros (key & Hkey & Ho' & [Hne Hover]%andb_true_iff).
    apply negb_true_iff, bool_decide_eq_false in Hne.
    split; [done|]. split; [by exists key|done].
  - intros (Hne & (key & Hkey & Ho') & Hover). exists key.
    split; [done|]. split; [done|]. apply andb_true_iff. split; [|done].
    by apply negb_true_iff, bool_decide_eq_false.
Qed.

Lemma queryCollisions_unknown s o :
  objects s !! o = None → queryCollisions s o = ([], s).
Proof. intros Hod. unfold queryCollisions. by rewrite Hod. Qed.

Lemma queryCollisions_half s o o' :
  invariant s → o' ∈ (queryCollisions s o).1 → o ∈ (queryCollisions s o').1.
Proof.
  intros Hinv Ho'. destruct (objects s !! o) as [od|] eqn:Hod.
  - destruct (proj1 (elem_of_queryCollisions _ _ _ _ Hod) Ho')
      as (Hne & (key & Hkey & Hcell) & Hover).
    apply overlapsRect_true in Hover as (od' & Hod' & Hover).
    destruct Hinv as [_ _ Hm].
    apply (elem_of_queryCollisions _ _ _ _ Hod'). split; [done|]. split.
    + exists key. split.
      * apply Hm in Hcell as (od'' & Hod'' & Hkey'). congruence.
      * apply Hm. by exists od.
    + apply overlapsRect_true. exists od. split; [done|].
      by rewrite rectsOverlap_sym.
  - rewrite (queryCollisions_unknown _ _ Hod) in Ho'.
    by apply elem_of_nil in Ho'.
Qed.

(** X3.  In an index that satisfies the invariant, the collisions
    reported by [queryCollisions] form a symmetric relation, and no object
    collides with itself. *)
Theorem queryCollisions_symmetric s o o' :
  invariant s →
  (o ∉ (queryCollisions s o).1) ∧
  (o' ∈ (queryCollisions s o).1 ↔ o ∈ (queryCollisions s o').1).
Proof.
  intros Hinv. split.
  - intros Ho. destruct (objects s !! o) as [od|] eqn:Hod.
    + by destruct (proj1 (elem_of_queryCollisions _ _ _ _ Hod) Ho) as (Hne & _).
    + rewrite (queryCollisions_unknown _ _ Hod) in Ho.
      by apply elem_of_nil in Ho.
  - split; by apply queryCollisions_half.
Qed.

Lemma queryCollisions_symmetric_witness :
  let s := add (add (new 20) 1%nat 19 (-3) 2 5 7) 2%nat 20 0 3 3 8 in
  (1%nat ∉ (queryCollisions s 1%nat).1) ∧
  (2%nat ∈ (queryCollisions s 1%nat).1 ↔ 1%nat ∈ (queryCollisions s 2%nat).1).
Proof.
  apply (queryCollisions_symmetric
           (add (add (new 20) 1%nat 19 (-3) 2 5 7) 2%nat 20 0 3 3 8)
           1%nat 2%nat).
  apply invariant_add, invariant_add, invariant_new.
Defined.

(** X4.  On a grid, the collisions reported for a registered object are
    exactly the other registered objects whose recorded boxes overlap
    its own. *)
Theorem queryCollisions_exact_on_grid s (x y width height ox oy ow oh : Z)
    o od o' od' :
  invariant s → 0 < cellSize s →
  objects s !! o = Some od → objects s !! o' = Some od' →
  obj_x od == inject_Z x → obj_y od == inject_Z y →
  obj_width od == inject_Z width → obj_height od == inject_Z height →
  obj_x od' == inject_Z ox → obj_y od' == inject_Z oy →
  obj_width od' == inject_Z ow → obj_height od' == inject_Z oh →
  (1 ≤ width)%Z → (1 ≤ height)%Z → (1 ≤ ow)%Z → (1 ≤ oh)%Z →
  o' ∈ (queryCollisions s o).1 ↔
  o' ≠ o ∧
  rectsOverlap (obj_x od) (obj_y od) (obj_width od) (obj_height od)
               (obj_x od') (obj_y od') (obj_width od') (obj_height od') = true.
Proof.
  intros Hinv Hsize Hod Hod' Hx Hy Hw Hh Hox Hoy How Hoh Hw1 Hh1 How1 Hoh1.
  rewrite (elem_of_queryCollisions _ _ _ _ Hod). unfold overlapsRect.
  rewrite Hod'. split.
  - by intros (Hne & _ & Hover).
  - intros [Hne Hover]. split; [done|]. split; [|done].
    assert (Hgrid :
      rectsOverlap (inject_Z x) (inject_Z y) (inject_Z width) (inject_Z height)
                   (inject_Z ox) (inject_Z oy) (inject_Z ow) (inject_Z oh)
      = true).
    { rewrite <- (rectsOverlap_proper _ _ _ _ _ _ _ _ _ _ _ _ Hox Hoy How Hoh).
      rewrite rectsOverlap_sym.
      rewrite <- (rectsOverlap_proper _ _ _ _ _ _ _ _ _ _ _ _ Hx Hy Hw Hh).
      by rewrite rectsOverlap_sym. }
    destruct (grid_common_point _ _ _ _ _ _ _ _ Hw1 Hh1 How1 Hoh1 Hgrid)
      as (px & py & (? & ? & ? & ?) & (? & ? & ? & ?)).
    destruct (shared_cell s (obj_x od) (obj_y od) (obj_width od)
                (obj_height od) o' od' px py) as (key & Hkey & _ & Ho');
      try done; try lra.
    exists key. split; [|done].
    destruct Hinv as [Hk _ _].
    apply (elem_of_list_to_set (C := gset string)). rewrite (Hk o od Hod).
    by apply elem_of_list_to_set.
Qed.

Lemma queryCollisions_exact_on_grid_witness :
  let s := add (add (new 20) 1%nat 19 (-3) 2 5 7) 2%nat 20 0 3 3 8 in
  2%nat ∈ (queryCollisions s 1%nat).1 ↔
  2%nat ≠ 1%nat ∧ rectsOverlap 19 (-3) 2 5 20 0 3 3 = true.
Proof.
  apply (queryCollisions_exact_on_grid
           (add (add (new 20) 1%nat 19 (-3) 2 5 7) 2%nat 20 0 3 3 8)
           19 (-3) 2 5 20 0 3 3 1%nat
           (ObjectData (getObjectCells (new 20) 19 (-3) 2 5) 19 (-3) 2 5 7)
           2%nat
           (ObjectData (getObjectCells (new 20) 20 0 3 3) 20 0 3 3 8)).
  - apply invariant_add, invariant_add, invariant_new.
  - reflexivity.
  - vm_compute. reflexivity.
  - vm_compute. reflexivity.
  - reflexivity.
  - reflexivity.
  - reflexivity.
  - reflexivity.
  - reflexivity.
  - reflexivity.
  - reflexivity.
  - reflexivity.
  - lia.
  - lia.
  - lia.
  - lia.
Defined.

(** *** Point queries with a radius *)

Lemma withinRadius_true s x y radius o :
  withinRadius s x y radius o = true ↔
  ∃ od, objects s !! o = Some od ∧ 0 <= radius ∧
        (obj_x od - x) * (obj_x od - x) + (obj_y od - y) * (obj_y od - y)
        <= radius * radius.
Proof.
  unfold withinRadius, distanceWithin. destruct (objects s !! o) as [od|].
  - rewrite andb_true_iff, !Qle_bool_iff. split.
    + intros [? ?]. by exists od.
    + by intros (? & [= <-] & ? & ?).
  - split; [done|by intros (? & ? & _)].
Qed.

Lemma Qsquare_nonneg (a : Q) : 0 <= a * a.
Proof. nra. Qed.

Lemma within_radius_lower (a b c radius : Q) :
  0 <= radius → (a - c) * (a - c) + b * b <= radius * radius →
  c - radius <= a.
Proof.
  intros Hpos Hdist. destruct (Qlt_le_dec a (c - radius)) as [Hlt|]; [|done].
  assert (0 < (c - a - radius) * (c - a + radius))
    by (apply Qmult_lt_0_compat; lra).
  pose proof (Qsquare_nonneg b). lra.
Qed.

Lemma elem_of_queryPoint_radius s x y radius o :
  ¬ radius == 0 →
  o ∈ (queryPoint s x y radius).1 ↔
  ∃ key, key ∈ getObjectCells s (x - radius) (y - radius)
                              (radius * 2) (radius * 2) ∧
         o ∈ cellOf s key ∧ withinRadius s x y radius o = true.
Proof.
  intros Hr. unfold queryPoint.
  destruct (Qeq_bool radius 0) eqn:Hzero;
    [by apply Qeq_bool_iff in Hzero|].
  simpl. rewrite elem_of_elements. apply (elem_of_collectFrom s).
Qed.

(** X5.  A point query with a radius returns only registered objects whose
    recorded corner is within the radius of the point.  It returns every
    such object whose box is at least one unit wide and high and whose
    corner is at most [radius - 1] to the right of and below the point:
    the cells searched end at [x + radius - 1] and [y + radius - 1]. *)
Theorem queryPoint_radius_spec s x y radius o od :
  invariant s → 0 < cellSize s → ¬ radius == 0 →
  objects s !! o = Some od →
  (o ∈ (queryPoint s x y radius).1 →
   0 <= radius ∧
   (obj_x od - x) * (obj_x od - x) + (obj_y od - y) * (obj_y od - y)
   <= radius * radius) ∧
  (0 <= radius →
   (obj_x od - x) * (obj_x od - x) + (obj_y od - y) * (obj_y od - y)
   <= radius * radius →
   1 <= obj_width od → 1 <= obj_height od →
   obj_x od <= x + radius - 1 → obj_y od <= y + radius - 1 →
   o ∈ (queryPoint s x y radius).1).
Proof.
  intros Hinv Hsize Hr Hod. rewrite (elem_of_queryPoint_radius _ _ _ _ _ Hr).
  split.
  - intros (_ & _ & _ & (od' & Hod' & Hpos & Hdist)%withinRadius_true).
    by replace od with od' by congruence.
  - intros Hpos Hdist Hw Hh Hx Hy.
    assert (x - radius <= obj_x od) by by eapply within_radius_lower.
    assert (y - radius <= obj_y od).
    { apply (within_radius_lower _ (obj_x od - x)); [done|lra]. }
    destruct (shared_cell s (x - radius) (y - radius) (radius * 2) (radius * 2)
                o od (obj_x od) (obj_y od)) as (key & Hkey & _ & Ho);
      try done; try lra.
    exists key. split; [done|]. split; [done|].
    apply withinRadius_true. by exists od.
Qed.

Lemma queryPoint_radius_spec_witness :
  let s := add (new 20) 1%nat 19 (-3) 2 5 7 in
  (1%nat ∈ (queryPoint s 20 0 5).1 →
   0 <= 5 ∧ (19 - 20) * (19 - 20) + (-3 - 0) * (-3 - 0) <= 5 * 5) ∧
  (0 <= 5 →
   (19 - 20) * (19 - 20) + (-3 - 0) * (-3 - 0) <= 5 * 5 →
   1 <= 2 → 1 <= 5 → 19 <= 20 + 5 - 1 → -3 <= 0 + 5 - 1 →
   1%nat ∈ (queryPoint s 20 0 5).1).
Proof.
  apply (queryPoint_radius_spec
           (add (new 20) 1%nat 19 (-3) 2 5 7) 20 0 5 1%nat
           (ObjectData (getObjectCells (new 20) 19 (-3) 2 5) 19 (-3) 2 5 7)).
  - apply invariant_add, invariant_new.
  - reflexivity.
  - discriminate.
  - vm_compute. reflexivity.
Defined.

(** *** Adding and removing *)

Lemma remove_unknown s o : objects s !! o = None → remove s o = (false, s).
Proof. intros Hod. unfold remove. by rewrite Hod. Qed.

Lemma objects_remove_eq s o : objects (remove s o).2 = delete o (objects s).
Proof.
  unfold remove. destruct (objects s !! o) eqn:Hod; simpl; [done|].
  by rewrite delete_id.
Qed.

Lemma union_difference_singleton (X : gset obj) o :
  o ∈ X → X ∖ {[o]} ∪ {[o]} = X.
Proof.
  intros Ho. apply set_eq. intros z. destruct (decide (z = o)); set_solver.
Qed.

(** Registering an unknown object and removing it again restores the
    cells and the objects. *)
Lemma remove_register s o keys x y width height now st :
  invariant s → objects s !! o = None →
  let s' := Mk (cellSize s) (foldl (addToCell o) (cells s) keys)
               (<[o := ObjectData keys x y width height now]> (objects s)) st in
  (remove s' o).1 = true ∧
  cells (remove s' o).2 = cells s ∧ objects (remove s' o).2 = objects s.
Proof.
  intros [Hk Hn Hm] Hfresh s'. unfold remove, s'. simpl.
  rewrite lookup_insert_eq. simpl. split; [done|]. split.
  - apply map_eq. intros k.
    rewrite lookup_foldl_removeFromCell, lookup_foldl_addToCell.
    case_decide as Hin; [|done].
    assert (Hno : o ∉ cellOf s k).
    { intros (od & Hod & _)%Hm. congruence. }
    unfold rmCell.
    assert ((default ∅ (cells s !! k) ∪ {[o]}) ∖ {[o]} = cellOf s k) as ->
      by (unfold cellOf in *; set_solver).
    case_decide as Hempty.
    + destruct (cells s !! k) as [cell|] eqn:Hcell; [|done].
      destruct (Hn k) as [Hex _]. destruct Hex as [o' Ho']; [by eexists|].
      rewrite Hempty in Ho'. set_solver.
    + unfold cellOf in *. destruct (cells s !! k); [done|]. by destruct Hempty.
  - by apply delete_insert_id.
Qed.

(** X6.  Adding an object and removing it again leaves the cells and the
    objects as removing it alone does; for an object that was not
    registered, they are those before the two calls. *)
Theorem add_remove_round_trip s o x y width height now :
  invariant s →
  (remove (add s o x y width height now) o).1 = true ∧
  cells (remove (add s o x y width height now) o).2 = cells (remove s o).2 ∧
  objects (remove (add s o x y width height now) o).2
  = objects (remove s o).2 ∧
  (objects s !! o = None →
   cells (remove s o).2 = cells s ∧ objects (remove s o).2 = objects s).
Proof.
  intros Hinv. split; [|split; [|split]].
  - apply (remove_register (remove s o).2); [by apply invariant_remove|].
    apply objects_remove.
  - apply (remove_register (remove s o).2); [by apply invariant_remove|].
    apply objects_remove.
  - apply (remove_register (remove s o).2); [by apply invariant_remove|].
    apply objects_remove.
  - intros Hfresh. by rewrite remove_unknown.
Qed.

Lemma add_remove_round_trip_witness :
  let s := add (new 20) 1%nat 19 (-3) 2 5 7 in
  (remove (add s 2%nat 0 0 30 30 9) 2%nat).1 = true ∧
  cells (remove (add s 2%nat 0 0 30 30 9) 2%nat).2 = cells (remove s 2%nat).2 ∧
  objects (remove (add s 2%nat 0 0 30 30 9) 2%nat).2
  = objects (remove s 2%nat).2 ∧
  (objects s !! 2%nat = None →
   cells (remove s 2%nat).2 = cells s ∧ objects (remove s 2%nat).2 = objects s).
Proof.
  apply (add_remove_round_trip (add (new 20) 1%nat 19 (-3) 2 5 7)
                               2%nat 0 0 30 30 9).
  apply invariant_add, invariant_new.
Defined.

(** *** Updating *)

Lemma getObjectCells_proper s x y width height x' y' width' height' :
  x == x' → y == y' → width == width' → height == height' →
  getObjectCells s x y width height = getObjectCells s x' y' width' height'.
Proof.
  intros Hx Hy Hw Hh. unfold getObjectCells.
  assert (Qfloor (x / cellSize s) = Qfloor (x' / cellSize s)) as ->
    by by rewrite Hx.
  assert (Qfloor (y / cellSize s) = Qfloor (y' / cellSize s)) as ->
    by by rewrite Hy.
  assert (Qfloor ((x + width - 1) / cellSize s)
          = Qfloor ((x' + width' - 1) / cellSize s)) as ->
    by by rewrite Hx, Hw.
  assert (Qfloor ((y + height - 1) / cellSize s)
          = Qfloor ((y' + height' - 1) / cellSize s)) as ->
    by by rewrite Hy, Hh.
  done.
Qed.

(** Taking a registered object out of its cells and putting it into the
    same cells again changes no cell. *)
Lemma reregister_same_cells s o od newKeys :
  invariant s → objects s !! o = Some od →
  (∀ k, k ∈ newKeys ↔ k ∈ cellKeys od) →
  foldl (addToCell o) (foldl (removeFromCell o) (cells s) (cellKeys od))
        newKeys = cells s.
Proof.
  intros [Hk Hn Hm] Hod Hsame. apply map_eq. intros k.
  rewrite lookup_foldl_addToCell, lookup_foldl_removeFromCell.
  case_decide as Hnew.
  - rewrite decide_True by by apply Hsame.
    rewrite default_rmCell.
    assert (Ho : o ∈ cellOf s k).
    { apply Hm. exists od. split; [done|]. by apply Hsame. }
    rewrite union_difference_singleton by done.
    unfold cellOf in *. destruct (cells s !! k); [done|]. set_solver.
  - rewrite decide_False; [done|]. intros Hold. by apply Hnew, Hsame.
Qed.

(** X7.  [update] leaves the cells exactly as [add] with the same
    arguments does, records the new box for the object, and changes the
    record of no other object. *)
Theorem update_as_add s o x y width height now :
  invariant s →
  cells (update s o x y width height now)
  = cells (add s o x y width height now) ∧
  (∃ od, objects (update s o x y width height now) !! o = Some od ∧
         obj_x od == x ∧ obj_y od == y ∧
         obj_width od == width ∧ obj_height od == height) ∧
  (∀ o', o' ≠ o →
         objects (update s o x y width height now) !! o' = objects s !! o').
Proof.
  intros Hinv.
  assert (Hadd : ∀ od, objects s !! o = Some od →
    cells (add s o x y width height now) =
    foldl (addToCell o) (foldl (removeFromCell o) (cells s) (cellKeys od))
          (getObjectCells s x y width height)).
  { intros od Hod. unfold add, remove. rewrite Hod. done. }
  unfold update. destruct (objects s !! o) as [od|] eqn:Hod.
  - rewrite (Hadd od eq_refl). clear Hadd.
    destruct (_ && _) eqn:Hsame.
    + (* nothing moved *)
      apply andb_true_iff in Hsame as [[[Hx Hy]%andb_true_iff Hw]%andb_true_iff Hh].
      apply Qeq_bool_iff in Hx, Hy, Hw, Hh.
      split; [|split; [by exists od|done]]. symmetry.
      apply reregister_same_cells; [done..|]. intros k.
      rewrite <- (getObjectCells_proper s _ _ _ _ _ _ _ _ Hx Hy Hw Hh).
      destruct Hinv as [Hk _ _]. specialize (Hk o od Hod).
      unfold computedCells in Hk.
      rewrite <- (elem_of_list_to_set (C := gset string)), <- Hk.
      by rewrite elem_of_list_to_set.
    + destruct (arraysEqual _ _) eqn:Hequal; simpl.
      * (* the same cells *)
        apply arraysEqual_Permutation in Hequal.
        split; [|split].
        -- symmetry.
           apply reregister_same_cells; [done..|]. intros k.
           symmetry. by apply elem_of_Permutation_proper.
        -- eexists. rewrite lookup_insert_eq. split; [done|]. by simpl.
        -- intros o' Hne. by rewrite lookup_insert_ne.
      * split; [|split].
        -- done.
        -- eexists. rewrite lookup_insert_eq. split; [done|]. by simpl.
        -- intros o' Hne. by rewrite lookup_insert_ne.
  - split; [done|]. split.
    + unfold add. simpl. eexists. rewrite lookup_insert_eq.
      split; [done|]. by simpl.
    + intros o' Hne. unfold add. simpl.
      rewrite lookup_insert_ne by done.
      rewrite remove_unknown by done. done.
Qed.

Lemma update_as_add_witness :
  let s := add (new 20) 1%nat 19 (-3) 2 5 7 in
  cells (update s 1%nat 45 0 1 1 8) = cells (add s 1%nat 45 0 1 1 8) ∧
  (∃ od, objects (update s 1%nat 45 0 1 1 8) !! 1%nat = Some od ∧
         obj_x od == 45 ∧ obj_y od == 0 ∧
         obj_width od == 1 ∧ obj_height od == 1) ∧
  (∀ o', o' ≠ 1%nat →
         objects (update s 1%nat 45 0 1 1 8) !! o' = objects s !! o').
Proof.
  apply (update_as_add (add (new 20) 1%nat 19 (-3) 2 5 7) 1%nat 45 0 1 1 8).
  apply invariant_add, invariant_new.
Defined.

(** *** Removing in either order *)

Lemma rmCell_commute a b cell :
  rmCell a (rmCell b cell) = rmCell b (rmCell a cell).
Proof.
  destruct cell as [cellSet|]; [|done]. simpl.
  destruct (decide (cellSet ∖ {[b]} = ∅)) as [Hb|Hb];
    destruct (decide (cellSet ∖ {[a]} = ∅)) as [Ha|Ha]; simpl; try done.
  - rewrite decide_True; [done|]. set_solver.
  - rewrite decide_True; [done|]. set_solver.
  - assert (cellSet ∖ {[b]} ∖ {[a]} = cellSet ∖ {[a]} ∖ {[b]}) as ->
      by set_solver.
    done.
Qed.

Lemma foldl_removeFromCell_commute a b keysA keysB c :
  foldl (removeFromCell b) (foldl (removeFromCell a) c keysA) keysB =
  foldl (removeFromCell a) (foldl (removeFromCell b) c keysB) keysA.
Proof.
  apply map_eq. intros k. rewrite !lookup_foldl_removeFromCell.
  repeat case_decide; try done. apply rmCell_commute.
Qed.

(** X8.  Two calls of [remove] give the same index in either order. *)
Theorem remove_commute s a b :
  (remove (remove s a).2 b).2 = (remove (remove s b).2 a).2.
Proof.
  destruct (decide (a = b)) as [->|Hne]; [done|].
  destruct (objects s !! a) as [odA|] eqn:HA.
  - destruct (objects s !! b) as [odB|] eqn:HB.
    + unfold remove at 2 4. rewrite HA, HB. unfold remove. simpl.
      rewrite !lookup_delete_ne by done. rewrite HA, HB. simpl.
      rewrite (foldl_removeFromCell_commute a b).
      rewrite (delete_delete (objects s) b a). done.
    + rewrite (remove_unknown s b) by done. simpl.
      rewrite (remove_unknown (remove s a).2 b); [done|].
      rewrite objects_remove_eq, lookup_delete_ne; done.
  - rewrite (remove_unknown s a) by done. simpl.
    rewrite (remove_unknown (remove s b).2 a); [done|].
    rewrite objects_remove_eq, lookup_delete_ne; done.
Qed.

(** *** Clean-up *)

Lemma foldl_remove_objects l s o :
  objects (foldl (λ s' object, (remove s' object).2) s l) !! o =
  if decide (o ∈ l) then None else objects s !! o.
Proof.
  revert s. induction l as [|a l IH]; intros s; cbn [foldl].
  - destruct (decide (o ∈ [])) as [Hin|]; [|done]. by apply elem_of_nil in Hin.
  - rewrite IH, objects_remove_eq.
    destruct (decide (o ∈ l)) as [Hin|Hnin].
    + rewrite decide_True; [done|by right].
    + destruct (decide (o = a)) as [->|Hne].
      * rewrite lookup_delete_eq, decide_True; [done|by left].
      * rewrite lookup_delete_ne by done. rewrite decide_False; [done|].
        intros [?|?]%elem_of_cons; done.
Qed.

Lemma foldl_remove_invariant l s :
  invariant s → invariant (foldl (λ s' object, (remove s' object).2) s l).
Proof.
  revert s. induction l as [|a l IH]; intros s Hinv; cbn [foldl]; [done|].
  by apply IH, invariant_remove.
Qed.

Lemma filter_none {A} (f : A → bool) (l : list A) :
  (∀ x, x ∈ l → f x = false) → List.filter f l = [].
Proof.
  induction l as [|a l IH]; intros Hall; [done|]. simpl.
  rewrite (Hall a) by by left. apply IH. intros x Hx. apply Hall. by right.
Qed.

(** Under the invariant no cell is empty. *)
Lemma no_empty_cells s :
  invariant s →
  List.filter (λ entry : string * gset obj, (size entry.2 =? 0)%nat)
              (map_to_list (cells s)) = [].
Proof.
  intros [_ Hn _]. apply filter_none. intros [key cell] Hin.
  apply elem_of_map_to_list in Hin. simpl. apply Nat.eqb_neq.
  destruct (Hn key) as [Hex _]. destruct Hex as [o Ho]; [by eexists|].
  unfold cellOf in Ho. rewrite Hin in Ho. simpl in Ho.
  intros Hsize. apply size_empty_inv in Hsize. set_solver.
Qed.

Lemma elem_of_stale_objects s now o :
  o ∈ (fst <$> List.filter (λ entry : obj * objectData, stale now entry.2)
                          (map_to_list (objects s))) ↔
  ∃ od, objects s !! o = Some od ∧ stale now od = true.
Proof.
  rewrite list_elem_of_fmap. split.
  - intros ([o' od] & -> & Hin). apply list_elem_of_In, filter_In in Hin.
    destruct Hin as [Hin Hstale]. apply list_elem_of_In in Hin.
    apply elem_of_map_to_list in Hin. by exists od.
  - intros (od & Hod & Hstale). exists (o, od). split; [done|].
    apply list_elem_of_In, filter_In. split; [|done].
    by apply list_elem_of_In, elem_of_map_to_list.
Qed.

(** X9.  [optimize] keeps the invariant of the index; afterwards the
    registered objects are those that were registered and were updated at
    most 5000 ms before, with their records unchanged, and an object
    dropped for its age is left in no cell. *)
Theorem optimize_spec s now :
  invariant s →
  invariant (optimize s now) ∧
  (∀ o od, objects (optimize s now) !! o = Some od ↔
           objects s !! o = Some od ∧ (now - lastUpdate od ≤ 5000)%Z) ∧
  (∀ o od key, objects s !! o = Some od → (5000 < now - lastUpdate od)%Z →
               o ∉ cellOf (optimize s now) key).
Proof.
  intros Hinv.
  set (toRemove := fst <$> List.filter
                     (λ entry : obj * objectData, stale now entry.2)
                     (map_to_list (objects s))).
  set (s1 := foldl (λ s' object, (remove s' object).2) s toRemove).
  assert (Hinv1 : invariant s1) by by apply foldl_remove_invariant.
  assert (Hcells : cells (optimize s now) = cells s1).
  { unfold optimize. fold toRemove. fold s1. simpl.
    by rewrite (no_empty_cells s1 Hinv1). }
  assert (Hobjects : ∀ o od, objects (optimize s now) !! o = Some od ↔
                     objects s !! o = Some od ∧ (now - lastUpdate od ≤ 5000)%Z).
  { intros o od. unfold optimize. fold toRemove. fold s1. simpl.
    unfold s1. rewrite foldl_remove_objects. case_decide as Hin.
    - apply elem_of_stale_objects in Hin as (od' & Hod' & Hstale).
      unfold stale in Hstale. apply Z.ltb_lt in Hstale.
      split; [done|]. intros [Hod ?]. replace od' with od in * by congruence.
      lia.
    - split.
      + intros Hod. split; [done|].
        destruct (Z_le_gt_dec (now - lastUpdate od) 5000); [done|].
        destruct Hin. apply elem_of_stale_objects. exists od.
        split; [done|]. unfold stale. apply Z.ltb_lt. lia.
      + by intros [? _]. }
  assert (Hinv' : invariant (optimize s now)).
  { apply (invariant_ext s1); [done|done|done|done]. }
  split; [done|]. split; [done|].
  intros o od key Hod Hold. destruct Hinv' as [_ _ Hm].
  intros (od' & Hod' & _)%Hm. apply Hobjects in Hod' as [Hod' ?].
  replace od' with od in * by congruence. lia.
Qed.

Lemma optimize_spec_witness :
  let s := add (add (new 20) 1%nat 19 (-3) 2 5 7) 2%nat 0 0 30 30 6000 in
  invariant (optimize s 6500) ∧
  (∀ o od, objects (optimize s 6500) !! o = Some od ↔
           objects s !! o = Some od ∧ (6500 - lastUpdate od ≤ 5000)%Z) ∧
  (∀ o od key, objects s !! o = Some od → (5000 < 6500 - lastUpdate od)%Z →
               o ∉ cellOf (optimize s 6500) key).
Proof.
  apply (optimize_spec
           (add (add (new 20) 1%nat 19 (-3) 2 5 7) 2%nat 0 0 30 30 6000) 6500).
  apply invariant_add, invariant_add, invariant_new.
Defined.

(** *** Rays *)

Lemma raycastFrom_cons s startX startY dirX dirY stepSize filter i rest :
  raycastFrom s startX startY dirX dirY stepSize filter (i :: rest) =
  let x := startX + dirX * inject_Z i * stepSize in
  let y := startY + dirY * inject_Z i * stepSize in
  match List.find (hitTest s filter x y) (queryPoint s x y 0).1 with
  | Some o => (Some (Hit o x y (inject_Z i * stepSize)), countQuery s)
  | None =>
      raycastFrom (countQuery s) startX startY dirX dirY stepSize filter rest
  end.
Proof. reflexivity. Qed.


Lemma hitTest_true s filter x y o :
  hitTest s filter x y o = true ↔
  match filter with Some f => f o = true | None => True end ∧
  ∃ od, objects s !! o = Some od ∧
        pointInRect x y (obj_x od) (obj_y od) (obj_width od) (obj_height od)
        = true.
Proof.
  unfold hitTest. rewrite andb_true_iff.
  destruct (objects s !! o) as [od|].
  - split.
    + intros [Hf Hin]. split; [by destruct filter|by exists od].
    + intros [Hf (? & [= <-] & Hin)]. split; [by destruct filter|done].
  - split; [by intros [_ ?]|by intros [_ (? & ? & _)]].
Qed.

Lemma raycastFrom_spec startX startY dirX dirY stepSize filter steps s :
  let result := raycastFrom s startX startY dirX dirY stepSize filter steps in
  cellSize result.2 = cellSize s ∧ cells result.2 = cells s ∧
  objects result.2 = objects s ∧
  match result.1 with
  | Some h =>
      ∃ k i, steps !! k = Some i ∧
        h = Hit (hit_object h) (rayPoint startX dirX stepSize i)
                (rayPoint startY dirY stepSize i) (inject_Z i * stepSize) ∧
        hit_object h ∈ cellOf s (getCellKey s (hit_x h) (hit_y h)) ∧
        hitTest s filter (hit_x h) (hit_y h) (hit_object h) = true ∧
        ∀ k' j, (k' < k)%nat → steps !! k' = Some j →
                ¬ hitsAt s filter (rayPoint startX dirX stepSize j)
                                  (rayPoint startY dirY stepSize j)
  | None =>
      ∀ i, i ∈ steps →
           ¬ hitsAt s filter (rayPoint startX dirX stepSize i)
                             (rayPoint startY dirY stepSize i)
  end.
Proof.
  revert s. induction steps as [|i rest IH]; intros s.
  - simpl. repeat split; try done. by intros i Hi%elem_of_nil.
  - cbv zeta. rewrite raycastFrom_cons. cbv zeta.
    fold (rayPoint startX dirX stepSize i) (rayPoint startY dirY stepSize i).
    set (x := rayPoint startX dirX stepSize i).
    set (y := rayPoint startY dirY stepSize i).
    destruct (List.find _ _) as [o|] eqn:Hfind.
    + simpl. repeat split; try done.
      apply find_some in Hfind as [Hin Htest].
      apply list_elem_of_In, queryPoint_radius_0 in Hin.
      exists 0%nat, i. repeat split; try done. intros k' j Hk'. lia.
    + pose proof (find_none _ _ Hfind) as Hnone.
      assert (Hmiss : ¬ hitsAt s filter x y).
      { intros (o & Ho & Htest). rewrite (Hnone o) in Htest; [done|].
        by apply list_elem_of_In, queryPoint_radius_0. }
      specialize (IH (countQuery s)). cbv zeta in IH.
      destruct IH as (Hsize & Hcells & Hobjects & IH).
      split; [done|]. split; [done|]. split; [done|].
      destruct (raycastFrom _ _ _ _ _ _ _ _).1 as [h|].
      * destruct IH as (k & i' & Hk & Hh & Hcell & Htest & Hfirst).
        exists (S k), i'. repeat split; try done.
        intros [|k'] j Hlt Hj.
        -- simpl in Hj. by injection Hj as <-.
        -- apply (Hfirst k' j); [lia|done].
      * intros j [->|Hj]%elem_of_cons; [done|]. by apply IH.
Qed.

Lemma lookup_zrange a b k i :
  zrange a b !! k = Some i ↔ (i = a + Z.of_nat k ∧ i ≤ b)%Z.
Proof.
  unfold zrange. rewrite list_lookup_fmap, fmap_Some. split.
  - intros (n & [-> Hn]%lookup_seq & ->). simpl. lia.
  - intros [-> Hle]. exists k. split; [|done]. apply lookup_seq. lia.
Qed.

(** X10.  [raycast] changes nothing but the query counter.  A hit it
    returns is a sample of the ray, at a whole number [i >= 1] of half
    cells from the start, that lies in the recorded box of a registered
    object which passes the filter and is registered in the cell of the
    sample, and no earlier sample hits anything; [null] means that no
    sample up to the maximal distance hits anything. *)
Theorem raycast_spec s startX startY dirX dirY maxDistance filter :
  let result := raycast s startX startY dirX dirY maxDistance filter in
  let stepSize := cellSize s / 2 in
  let x i := rayPoint startX dirX stepSize i in
  let y i := rayPoint startY dirY stepSize i in
  cells result.2 = cells s ∧ objects result.2 = objects s ∧
  match result.1 with
  | Some h =>
      ∃ i od, (1 ≤ i ≤ Qceiling (maxDistance / stepSize))%Z ∧
        hit_x h = x i ∧ hit_y h = y i ∧
        hit_distance h = inject_Z i * stepSize ∧
        objects s !! hit_object h = Some od ∧
        pointInRect (x i) (y i) (obj_x od) (obj_y od)
                    (obj_width od) (obj_height od) = true ∧
        match filter with Some f => f (hit_object h) = true | None => True end ∧
        hit_object h ∈ cellOf s (getCellKey s (x i) (y i)) ∧
        ∀ j, (1 ≤ j < i)%Z → ¬ hitsAt s filter (x j) (y j)
  | None =>
      ∀ i, (1 ≤ i ≤ Qceiling (maxDistance / stepSize))%Z →
           ¬ hitsAt s filter (x i) (y i)
  end.
Proof.
  intros result stepSize x y. unfold result, raycast. fold stepSize.
  pose proof (raycastFrom_spec startX startY dirX dirY stepSize filter
                (zrange 1 (Qceiling (maxDistance / stepSize))) (countQuery s))
    as Hspec.
  cbv zeta in Hspec. destruct Hspec as (_ & Hcells & Hobjects & Hspec).
  split; [done|]. split; [done|].
  destruct (raycastFrom _ _ _ _ _ _ _ _).1 as [h|].
  - destruct Hspec as (k & i & Hk & Hh & Hcell & Htest & Hfirst).
    apply lookup_zrange in Hk as [Hi Hle].
    rewrite Hh in Hcell, Htest. simpl in Hcell, Htest.
    apply hitTest_true in Htest as (Hf & od & Hod & Hin).
    exists i, od. rewrite Hh. simpl. repeat split; try done; try lia.
    intros j Hj. apply (Hfirst (Z.to_nat (j - 1)) j); [lia|].
    apply lookup_zrange. lia.
  - intros i Hi. apply Hspec. by apply elem_of_zrange.
Qed.

(** *** Cell keys *)

Lemma no_comma_cons c s :
  String c "" ≠ "," → (∀ a b, s ≠ a +:+ "," +:+ b) →
  ∀ a b, String c s ≠ a +:+ "," +:+ b.
Proof.
  intros Hc Hs [|c' a] b; simpl; intros [= ? ?]; [by subst|]. by eapply Hs.
Qed.

Lemma pretty_N_go_no_comma x s :
  (∀ a b, s ≠ a +:+ "," +:+ b) →
  ∀ a b, pretty_N_go x s ≠ a +:+ "," +:+ b.
Proof.
  revert s. induction (N.lt_wf_0 x) as [x _ IH]; intros s Hs.
  assert (x = 0 ∨ 0 < x)%N as [->|?] by lia.
  - by rewrite pretty_N_go_0.
  - rewrite pretty_N_go_step by done. apply IH.
    { by apply N.div_lt. }
    apply no_comma_cons; [|done].
    unfold pretty_N_char. by repeat case_match.
Qed.

Lemma pretty_Z_no_comma (z : Z) a b : pretty z ≠ a +:+ "," +:+ b.
Proof.
  assert (Hempty : ∀ a b, "" ≠ a +:+ "," +:+ b) by by intros [|??] ?.
  assert (Hzero : ∀ a b, "0" ≠ a +:+ "," +:+ b).
  { by apply no_comma_cons. }
  assert (HN : ∀ (n : N) a b, pretty n ≠ a +:+ "," +:+ b).
  { intros n. unfold pretty, pretty_N. case_decide; [done|].
    by apply pretty_N_go_no_comma. }
  revert a b. destruct z as [|p|p]; unfold pretty, pretty_Z.
  - done.
  - apply HN.
  - apply no_comma_cons; [done|]. apply HN.
Qed.

Lemma split_at_comma a a' b b' :
  (∀ u v, a ≠ u +:+ "," +:+ v) → (∀ u v, a' ≠ u +:+ "," +:+ v) →
  a +:+ "," +:+ b = a' +:+ "," +:+ b' → a = a' ∧ b = b'.
Proof.
  revert a'. induction a as [|c a IH]; intros [|c' a'] Ha Ha'; simpl.
  - by intros [= ?].
  - intros [= <- Hb]. by destruct (Ha' "" a').
  - intros [= Hc Hb]. subst c. by destruct (Ha "" a).
  - intros [= Hc Heq]. subst c'. destruct (IH a') as [Ha0 Hb0]; try done.
    + intros u v Hu. subst a. by destruct (Ha (String c u) v).
    + intros u v Hu. subst a'. by destruct (Ha' (String c u) v).
    + by subst.
Qed.

Lemma cellKey_inj cellX cellY cellX' cellY' :
  cellKey cellX cellY = cellKey cellX' cellY' → cellX = cellX' ∧ cellY = cellY'.
Proof.
  unfold cellKey. intros Heq.
  apply split_at_comma in Heq as [Hx Hy]; try apply pretty_Z_no_comma.
  split; by apply (inj pretty).
Qed.



(** X11.  The keys of two cells are equal only when the cells are the
    same, so for a positive cell size two points get the same key exactly
    when they lie in the same square of the grid, lower and left edges
    included. *)
Theorem getCellKey_same_cell s x y x' y' :
  0 < cellSize s →
  getCellKey s x y = getCellKey s x' y' ↔
  ∃ cellX cellY : Z,
    (inject_Z cellX * cellSize s <= x ∧ x < inject_Z (cellX + 1) * cellSize s) ∧
    (inject_Z cellX * cellSize s <= x' ∧ x' < inject_Z (cellX + 1) * cellSize s) ∧
    (inject_Z cellY * cellSize s <= y ∧ y < inject_Z (cellY + 1) * cellSize s) ∧
    (inject_Z cellY * cellSize s <= y' ∧ y' < inject_Z (cellY + 1) * cellSize s).
Proof.
  intros Hsize. unfold getCellKey. split.
  - intros [Hx Hy]%cellKey_inj.
    exists (Qfloor (x / cellSize s)), (Qfloor (y / cellSize s)).
    repeat split; try (by apply (Qfloor_div_eq_iff _ _ _ Hsize)).
  - intros (cellX & cellY & Hx & Hx' & Hy & Hy').
    apply (Qfloor_div_eq_iff _ _ _ Hsize) in Hx, Hx', Hy, Hy'.
    by rewrite Hx, Hx', Hy, Hy'.
Qed.

Lemma getCellKey_same_cell_witness :
  getCellKey (new 20) 19 (-3) = getCellKey (new 20) 0 (-20) ↔
  ∃ cellX cellY : Z,
    (inject_Z cellX * 20 <= 19 ∧ 19 < inject_Z (cellX + 1) * 20) ∧
    (inject_Z cellX * 20 <= 0 ∧ 0 < inject_Z (cellX + 1) * 20) ∧
    (inject_Z cellY * 20 <= -3 ∧ -3 < inject_Z (cellY + 1) * 20) ∧
    (inject_Z cellY * 20 <= -20 ∧ -20 < inject_Z (cellY + 1) * 20).
Proof. apply (getCellKey_same_cell (new 20) 19 (-3) 0 (-20)). reflexivity. Defined.

End SpatialHashSpec.

(** ** ConstellationManager: properties *)

Module ConstellationManagerSpec.
Import ConstellationManager.
Local Open Scope Q_scope.

Lemma includes_true l x : includes l x = true ↔ x ∈ l.
Proof. apply bool_decide_eq_true. Qed.

Lemma includes_false l x : includes l x = false ↔ x ∉ l.
Proof. apply bool_decide_eq_false. Qed.

Lemma length_setAdd_fresh l x : x ∉ l → length (setAdd l x) = S (length l).
Proof.
  intros Hx. unfold setAdd. apply includes_false in Hx. rewrite Hx.
  rewrite length_app. simpl. lia.
Qed.

(** [selectNextPattern] touches only the memory of recent patterns. *)
Lemma selectNextPattern_frame s rnd :
  let s' := (selectNextPattern s rnd).2 in
  patterns s' = patterns s ∧ currentPattern s' = currentPattern s ∧
  collectedStars s' = collectedStars s ∧ targetPattern s' = targetPattern s ∧
  morphingActive s' = morphingActive s ∧ morphTimer s' = morphTimer s ∧
  completedPatterns s' = completedPatterns s ∧ timeouts s' = timeouts s.
Proof. unfold selectNextPattern. by destruct (_ =? _)%nat. Qed.

Lemma completeConstellation_effect s now rnd current :
  currentPattern s = Some current →
  let result := completeConstellation s now rnd in
  result.1 = true ∧
  completedPatterns result.2 =
    completedPatterns s ++
      [Completion (targetPattern s) (name current) now (bonus current)] ∧
  morphingActive result.2 = true ∧ morphTimer result.2 = 3000 ∧
  ∃ nextPattern, timeouts result.2 = timeouts s ++ [(3000, nextPattern)].
Proof.
  intros Hcur. unfold completeConstellation. rewrite Hcur. simpl.
  unfold startMorphing.
  match goal with |- context [selectNextPattern ?s1 rnd] =>
    pose proof (selectNextPattern_frame s1 rnd) as Hframe;
    destruct (selectNextPattern s1 rnd) as [nextPattern s2] end.
  simpl in Hframe. destruct Hframe as (_ & _ & _ & _ & Ha & Ht & Hc & Hp).
  simpl. rewrite Ha, Ht, Hc, Hp. eauto 6.
Qed.

(** The pattern selected is never in the memory of recent patterns as it
    was before the call, unless every pattern is in that memory. *)
Lemma selectNextPattern_avoids_recent s rnd next :
  (selectNextPattern s rnd).1 = Some next →
  next ∈ recentPatterns s →
  ∀ pattern, pattern ∈ patternKeys (patterns s) → pattern ∈ recentPatterns s.
Proof.
  unfold selectNextPattern.
  set (available := List.filter _ _).
  destruct (length available =? 0)%nat eqn:Hlen; simpl.
  - intros _ _ pattern Hin. apply Nat.eqb_eq in Hlen.
    destruct available eqn:Hav; [|done].
    destruct (decide (pattern ∈ recentPatterns s)) as [|Hnot]; [done|].
    assert (Hf : In pattern available).
    { apply filter_In. split; [by apply list_elem_of_In|].
      apply negb_true_iff. by apply includes_false. }
    rewrite Hav in Hf. destruct Hf.
  - unfold pickRandom. destruct (_ <? _)%Z; [done|].
    intros Hnth%nth_error_In Hrecent.
    apply filter_In in Hnth as [_ Hnot]. apply negb_true_iff in Hnot.
    apply includes_false in Hnot. done.
Qed.

(** [completeConstellation] leaves the table, the current goal and the
    collected tags as they are. *)
Lemma completeConstellation_frame s now rnd :
  let s' := (completeConstellation s now rnd).2 in
  patterns s' = patterns s ∧ currentPattern s' = currentPattern s ∧
  collectedStars s' = collectedStars s ∧ targetPattern s' = targetPattern s.
Proof.
  unfold completeConstellation.
  destruct (currentPattern s) as [current|] eqn:Hcur; [|done]. simpl.
  unfold startMorphing.
  match goal with |- context [selectNextPattern ?s1 rnd] =>
    pose proof (selectNextPattern_frame s1 rnd) as Hframe;
    destruct (selectNextPattern s1 rnd) as [nextPattern s2] end.
  simpl in Hframe. destruct Hframe as (Hp & Hc & Hs & Ht & _). simpl.
  by rewrite Hp, Hc, Hs, Ht.
Qed.

(** C7.  [collectStar] returns [false] and leaves the state as it is when
    the tag is not required by the current goal or is already collected.
    For a required tag that is not yet collected it records the tag as
    the latest collected one, and returns [true] exactly when the number
    of collected tags then equals the number required; when it returns
    [false], nothing else has changed.  The call that returns [true]
    appends an entry to [completedPatterns], turns the transition on with
    its timer at 3000 and schedules the change of pattern; the required
    tags are the same after every call, and no call that returns [false]
    touches [completedPatterns]. *)
Theorem collectStar_spec s starType now rnd :
  let result := collectStar s starType now rnd in
  (starType ∉ requiredStars s ∨ starType ∈ collectedStars s →
   result = (false, s)) ∧
  (starType ∈ requiredStars s → starType ∉ collectedStars s →
   collectedStars result.2 = collectedStars s ++ [starType] ∧
   (result.1 = true ↔
    length (collectedStars result.2) = length (requiredStars s)) ∧
   (result.1 = false →
    result.2 =
      Mk (patterns s) (currentPattern s) (collectedStars s ++ [starType])
         (targetPattern s) (morphingActive s) (morphTimer s)
         (completedPatterns s) (recentPatterns s) (timeouts s))) ∧
  (result.1 = true ↔
   starType ∈ requiredStars s ∧ (starType ∉ collectedStars s) ∧
   S (length (collectedStars s)) = length (requiredStars s)) ∧
  (result.1 = true →
   ∃ current nextPattern,
     currentPattern s = Some current ∧
     completedPatterns result.2 =
       completedPatterns s ++
         [Completion (targetPattern s) (name current) now (bonus current)] ∧
     morphingActive result.2 = true ∧ morphTimer result.2 = 3000 ∧
     timeouts result.2 = timeouts s ++ [(3000, nextPattern)]) ∧
  requiredStars result.2 = requiredStars s ∧
  (result.1 = false → completedPatterns result.2 = completedPatterns s).
Proof.
  unfold collectStar, requiredStars.
  destruct (currentPattern s) as [current|] eqn:Hcur; simpl.
  2:{ rewrite Hcur. split; [done|]. split; [by intros ?%elem_of_nil|].
      split; [|done]. split; [done|]. by intros [?%elem_of_nil _]. }
  destruct (includes (stars current) starType) eqn:Hreq; simpl.
  2:{ apply includes_false in Hreq. rewrite Hcur. split; [done|].
      split; [done|]. split; [|done]. split; [done|]. by intros [? _]. }
  apply includes_true in Hreq.
  destruct (includes (collectedStars s) starType) eqn:Hhas; simpl.
  { apply includes_true in Hhas. rewrite Hcur. split; [done|].
    split; [done|]. split; [|done]. split; [done|]. by intros (_ & ? & _). }
  assert (Hadd : setAdd (collectedStars s) starType
                 = collectedStars s ++ [starType]).
  { unfold setAdd. by rewrite Hhas. }
  apply includes_false in Hhas.
  rewrite Hadd, length_app. simpl.
  replace (length (collectedStars s) + 1)%nat
    with (S (length (collectedStars s))) by lia.
  destruct (S (length (collectedStars s)) =? length (stars current))%nat
    eqn:Hfull.
  - apply Nat.eqb_eq in Hfull.
    match goal with |- context [completeConstellation ?s1 now rnd] =>
      pose proof (completeConstellation_effect s1 now rnd current eq_refl)
        as (Hres & Hdone & Hactive & Htimer & nextPattern & Htimeouts);
      pose proof (completeConstellation_frame s1 now rnd)
        as (_ & Hcurrent & Hcollected & _);
      cbn [patterns currentPattern collectedStars targetPattern
           completedPatterns timeouts] in Hdone, Htimeouts, Hcurrent, Hcollected;
      destruct (completeConstellation s1 now rnd) as [res s'] end.
    cbn [fst snd] in *. subst res.
    rewrite Hcurrent, Hcollected.
    split; [intros [?|?]; done|].
    split.
    { intros _ _. split; [done|]. split; [|done].
      rewrite length_app. simpl. split; [lia|done]. }
    split; [done|].
    split; [|done]. intros _. by exists current, nextPattern.
  - apply Nat.eqb_neq in Hfull. simpl.
    split; [intros [?|?]; done|].
    split.
    { intros _ _. split; [done|]. split; [|done].
      rewrite length_app. simpl. split; [done|lia]. }
    split; [|done]. split; [done|]. by intros (_ & _ & ?).
Qed.

(** C7 on the manager as constructed: "alpha", "beta", then "gamma". *)
Lemma collectStar_spec_witness :
  let s := (collectStar (collectStar new "alpha" 1 0).2 "beta" 2 0).2 in
  (collectStar s "delta" 3 0 = (false, s)) ∧
  (collectStar s "beta" 3 0 = (false, s)) ∧
  (collectStar s "gamma" 3 0).1 = true ∧
  collectedStars (collectStar s "gamma" 3 0).2 = collectedStars s ++ ["gamma"].
Proof.
  intros s.
  split; [|split; [|split]].
  - apply (collectStar_spec s "delta" 3 0). left.
    apply includes_false. reflexivity.
  - apply (collectStar_spec s "beta" 3 0). right.
    apply includes_true. reflexivity.
  - apply (proj1 (proj2 (proj2 (collectStar_spec s "gamma" 3 0)))).
    split; [apply includes_true; reflexivity|].
    split; [apply includes_false; reflexivity|reflexivity].
  - apply (proj1 (proj2 (collectStar_spec s "gamma" 3 0))).
    + apply includes_true. reflexivity.
    + apply includes_false. reflexivity.
Defined.

(** C8 on the manager as constructed, with [Math.random()] returning 0
    when the first goal is completed.  The goal being completed,
    "triangle", is not yet in [recentPatterns] when the candidates are
    filtered, so it is selected again: the callback scheduled by
    [startMorphing] sets the pattern "triangle" once more, although three
    other patterns are available. *)
Lemma selectNextPattern_repeats_completed_goal :
  let s := (collectStar (collectStar new "alpha" 1 0).2 "beta" 2 0).2 in
  let result := collectStar s "gamma" 3 0 in
  targetPattern s = "triangle" ∧ recentPatterns s = [] ∧
  patternKeys (patterns s) = ["triangle"; "cross"; "spiral"; "diamond"] ∧
  result.1 = true ∧
  timeouts result.2 = [(3000, Some "triangle")] ∧
  recentPatterns result.2 = ["triangle"] ∧
  targetPattern (runTimeout result.2) = "triangle" ∧
  collectedStars (runTimeout result.2) = [].
Proof. vm_compute. repeat split. Qed.

(** *** Further properties of the manager *)

(** *** The table of patterns *)

Lemma lookupPattern_is_Some ps patternName :
  is_Some (lookupPattern ps patternName) ↔ patternName ∈ patternKeys ps.
Proof.
  unfold lookupPattern, patternKeys.
  induction ps as [|[k p] ps IH]; simpl.
  - split; [by intros [? ?]|by intros ?%elem_of_nil].
  - destruct (String.eqb_spec k patternName) as [->|Hne]; simpl.
    + split; [intros _; by left|by eexists].
    + rewrite IH. split; [by right|].
      by intros [?|?]%elem_of_cons.
Qed.

Lemma lookupPattern_setEntry ps patternId p patternName :
  lookupPattern (setEntry ps patternId p) patternName =
  if decide (patternName = patternId) then Some p
  else lookupPattern ps patternName.
Proof.
  unfold lookupPattern. induction ps as [|[k q] ps IH]; simpl.
  - destruct (String.eqb_spec patternId patternName) as [->|Hne]; simpl.
    + by rewrite decide_True.
    + by rewrite decide_False.
  - destruct (String.eqb_spec k patternId) as [->|Hne]; simpl.
    + destruct (String.eqb_spec patternId patternName) as [->|Hne]; simpl.
      * by rewrite decide_True.
      * by rewrite decide_False.
    + destruct (String.eqb_spec k patternName) as [->|Hne']; simpl.
      * by rewrite decide_False.
      * apply IH.
Qed.

Lemma lookupPattern_elem_of ps patternName p :
  lookupPattern ps patternName = Some p → p ∈ snd <$> ps.
Proof.
  unfold lookupPattern. induction ps as [|[k q] ps IH]; simpl; [done|].
  destruct (String.eqb k patternName); simpl.
  - intros [= <-]. by left.
  - intros Hp. right. by apply IH.
Qed.

Lemma builtin_stars patternName p :
  lookupPattern builtinPatterns patternName = Some p →
  NoDup (stars p) ∧ stars p ≠ [].
Proof.
  intros Hp%lookupPattern_elem_of. revert p Hp. apply Forall_forall.
  unfold builtinPatterns. simpl.
  repeat (apply Forall_cons; split;
          [simpl; split; [|done];
           repeat (apply NoDup_cons; split; [set_solver|]); apply NoDup_nil_2|]).
  apply Forall_nil_2.
Qed.

Lemma procedural_stars rnd name colors :
  0 <= rnd →
  let p := generateProceduralPattern rnd name colors in
  NoDup (stars p) ∧ stars p ≠ [].
Proof.
  intros Hrnd p. unfold p, generateProceduralPattern. cbn [stars]. split.
  - apply (sublist_NoDup _ starNames); [|apply sublist_take].
    unfold starNames.
    repeat (apply NoDup_cons; split; [set_solver|]). apply NoDup_nil_2.
  - assert (0 ≤ Qfloor (rnd * 4))%Z.
    { apply SpatialHashSpec.Qfloor_ge_iff. change (inject_Z 0) with 0. lra. }
    destruct (Z.to_nat (3 + Qfloor (rnd * 4))) as [|n] eqn:Hn; [lia|done].
Qed.

(** *** The invariant of the manager *)

Lemma sound_setPattern_known s patternName p :
  lookupPattern (patterns s) patternName = Some p →
  (∀ k q, lookupPattern (patterns s) k = Some q →
          NoDup (stars q) ∧ stars q ≠ []) →
  (length (recentPatterns s) ≤ 2)%nat →
  (∀ k, k ∈ ["triangle"; "cross"; "spiral"] →
        is_Some (lookupPattern (patterns s) k)) →
  (∀ delay next, (delay, next) ∈ timeouts s →
     ∃ k, next = Some k ∧ is_Some (lookupPattern (patterns s) k)) →
  (∀ k, is_Some (lookupPattern (patterns s) k) → k ≠ "") →
  sound (setPattern s patternName).
Proof.
  intros Hp Hstars Hrecent Hkeys Htimeouts Hnamed. unfold setPattern.
  rewrite Hp.
  split; simpl; try done.
  - by exists p.
  - split; [apply NoDup_nil_2|]. by intros x Hx%elem_of_nil.
Qed.

Lemma sound_setPattern s patternName :
  sound s → sound (setPattern s patternName).
Proof.
  intros Hs. destruct (lookupPattern (patterns s) patternName) as [p|] eqn:Hp.
  - destruct Hs. by eapply sound_setPattern_known.
  - unfold setPattern. by rewrite Hp.
Qed.

Lemma sound_new : sound new.
Proof.
  unfold new.
  eapply (sound_setPattern_known _ "triangle"); simpl.
  - reflexivity.
  - apply builtin_stars.
  - lia.
  - intros k Hk. apply lookupPattern_is_Some. simpl. set_solver.
  - by intros delay next Hin%elem_of_nil.
  - intros k Hk%lookupPattern_is_Some. simpl in Hk.
    repeat (apply elem_of_cons in Hk as [->|Hk]; [done|]).
    by apply elem_of_nil in Hk.
Qed.

Lemma pickRandom_Some l rnd :
  l ≠ [] → 0 <= rnd → rnd < 1 → ∃ x, pickRandom l rnd = Some x ∧ x ∈ l.
Proof.
  intros Hl Hlo Hhi. unfold pickRandom.
  set (n := inject_Z (Z.of_nat (length l))).
  assert (Hn : 0 < n).
  { unfold n. change 0 with (inject_Z 0). rewrite <- Zlt_Qlt.
    destruct l; [done|]. simpl. lia. }
  assert (Hge : (0 ≤ Qfloor (rnd * n))%Z).
  { apply SpatialHashSpec.Qfloor_ge_iff. change (inject_Z 0) with 0.
    apply Qmult_le_0_compat; lra. }
  assert (Hlt : (Qfloor (rnd * n) ≤ Z.of_nat (length l) - 1)%Z).
  { apply SpatialHashSpec.Qfloor_le_iff.
    replace (Z.of_nat (length l) - 1 + 1)%Z with (Z.of_nat (length l)) by lia.
    fold n. assert (0 < (1 - rnd) * n) by (apply Qmult_lt_0_compat; lra).
    lra. }
  destruct (Qfloor (rnd * n) <? 0)%Z eqn:Hneg; [apply Z.ltb_lt in Hneg; lia|].
  destruct (nth_error l (Z.to_nat (Qfloor (rnd * n)))) as [x|] eqn:Hx.
  - exists x. split; [done|]. apply list_elem_of_In. by eapply nth_error_In.
  - apply nth_error_None in Hx. lia.
Qed.

(** With at most two recent patterns, one of three patterns is not
    recent. *)
Lemma fresh_pattern ps (recent : list string) :
  (length recent ≤ 2)%nat →
  (∀ k, k ∈ ["triangle"; "cross"; "spiral"] → is_Some (lookupPattern ps k)) →
  ∃ k, k ∈ patternKeys ps ∧ k ∉ recent.
Proof.
  intros Hlen Hkeys.
  assert (Hin : ∀ k, k ∈ ["triangle"; "cross"; "spiral"] → k ∈ patternKeys ps).
  { intros k Hk. by apply lookupPattern_is_Some, Hkeys. }
  destruct (decide ("triangle" ∈ recent)) as [Ht|Ht];
    [|exists "triangle"; split; [apply Hin; set_solver|done]].
  destruct (decide ("cross" ∈ recent)) as [Hc|Hc];
    [|exists "cross"; split; [apply Hin; set_solver|done]].
  destruct (decide ("spiral" ∈ recent)) as [Hs|Hs];
    [|exists "spiral"; split; [apply Hin; set_solver|done]].
  exfalso.
  assert (Hsub : ["triangle"; "cross"; "spiral"] ⊆ recent).
  { intros k Hk. repeat (apply elem_of_cons in Hk as [->|Hk]; [done|]).
    by apply elem_of_nil in Hk. }
  assert (Hnd : NoDup ["triangle"; "cross"; "spiral"]).
  { repeat (apply NoDup_cons; split; [set_solver|]). apply NoDup_nil_2. }
  pose proof (submseteq_length _ _ (NoDup_submseteq _ _ Hnd Hsub)) as Hle.
  simpl in Hle. lia.
Qed.

Lemma selectNextPattern_Some s rnd :
  (length (recentPatterns s) ≤ 2)%nat →
  (∀ k, k ∈ ["triangle"; "cross"; "spiral"] →
        is_Some (lookupPattern (patterns s) k)) →
  0 <= rnd → rnd < 1 →
  ∃ next,
    (selectNextPattern s rnd).1 = Some next ∧
    next ∈ patternKeys (patterns s) ∧ (next ∉ recentPatterns s) ∧
    recentPatterns (selectNextPattern s rnd).2 =
      let pushed := recentPatterns s ++ [targetPattern s] in
      if (2 <? length pushed)%nat then tail pushed else pushed.
Proof.
  intros Hlen Hkeys Hlo Hhi. unfold selectNextPattern.
  set (available := List.filter _ _).
  destruct (fresh_pattern _ _ Hlen Hkeys) as (k & Hk & Hfresh).
  assert (Hav : k ∈ available).
  { apply list_elem_of_In, filter_In. split; [by apply list_elem_of_In|].
    by apply negb_true_iff, includes_false. }
  assert (available ≠ []) by (intros Hnil; rewrite Hnil in Hav;
                              by apply elem_of_nil in Hav).
  destruct (length available =? 0)%nat eqn:Hzero.
  { apply Nat.eqb_eq in Hzero. by destruct available. }
  destruct (pickRandom_Some available rnd) as (next & Hnext & Hin); try done.
  exists next. simpl. split; [done|].
  apply list_elem_of_In, filter_In in Hin as [Hin Hnot].
  split; [by apply list_elem_of_In|]. split; [|done].
  by apply includes_false, negb_true_iff.
Qed.

Lemma length_recent_after (recent : list string) target :
  (length recent ≤ 2)%nat →
  let pushed := recent ++ [target] in
  (length (if (2 <? length pushed)%nat then tail pushed else pushed) ≤ 2)%nat.
Proof.
  intros Hlen pushed. unfold pushed. rewrite length_app. simpl.
  destruct (2 <? length recent + 1)%nat eqn:Hfull.
  - destruct recent; simpl in *; [lia|]. rewrite length_app. simpl. lia.
  - apply Nat.ltb_ge in Hfull. rewrite length_app. simpl. lia.
Qed.

(** What [startMorphing] does in a state with at most two recent
    patterns. *)
Lemma startMorphing_effect s rnd :
  (length (recentPatterns s) ≤ 2)%nat →
  (∀ k, k ∈ ["triangle"; "cross"; "spiral"] →
        is_Some (lookupPattern (patterns s) k)) →
  0 <= rnd → rnd < 1 →
  ∃ next recent,
    startMorphing s rnd =
      Mk (patterns s) (currentPattern s) (collectedStars s) (targetPattern s)
         true 3000 (completedPatterns s) recent
         (timeouts s ++ [(3000, Some next)]) ∧
    is_Some (lookupPattern (patterns s) next) ∧
    (next ∉ recentPatterns s) ∧ (length recent ≤ 2)%nat.
Proof.
  intros Hlen Hkeys Hlo Hhi. unfold startMorphing.
  match goal with |- context [selectNextPattern ?s1 rnd] =>
    pose proof (selectNextPattern_frame s1 rnd) as Hframe;
    destruct (selectNextPattern_Some s1 rnd Hlen Hkeys Hlo Hhi)
      as (next & Hnext & Hin & Hfresh & Hrecent);
    destruct (selectNextPattern s1 rnd) as [nextPattern s2] end.
  simpl in *. destruct Hframe as (-> & -> & -> & -> & -> & -> & -> & ->).
  subst nextPattern. exists next, (recentPatterns s2).
  split; [done|]. split; [by apply lookupPattern_is_Some|]. split; [done|].
  rewrite Hrecent. by apply length_recent_after.
Qed.

Lemma NoDup_setAdd l x : NoDup l → NoDup (setAdd l x).
Proof.
  intros Hl. unfold setAdd. destruct (includes l x) eqn:Hx; [done|].
  apply includes_false in Hx. apply NoDup_app. split; [done|].
  split; [|apply NoDup_singleton].
  intros y Hy ->%list_elem_of_singleton. done.
Qed.

Lemma elem_of_setAdd l x y : y ∈ setAdd l x ↔ y ∈ l ∨ y = x.
Proof.
  unfold setAdd. destruct (includes l x) eqn:Hx.
  - apply includes_true in Hx. split; [by left|]. by intros [?| ->].
  - rewrite elem_of_app, list_elem_of_singleton. done.
Qed.

Lemma sound_collectStar s starType now rnd :
  sound s → 0 <= rnd → rnd < 1 → sound (collectStar s starType now rnd).2.
Proof.
  intros Hs Hlo Hhi. pose proof Hs as [Hcur Hstars [Hnd Hsub] Hrec Hkeys Htim Hto Hnamed].
  unfold collectStar. destruct (currentPattern s) as [current|] eqn:Hc; [|done].
  destruct (includes (stars current) starType) eqn:Hreq; [|done]. simpl.
  destruct (includes (collectedStars s) starType) eqn:Hhas; [done|].
  apply includes_true in Hreq.
  assert (Hnd' : NoDup (setAdd (collectedStars s) starType))
    by by apply NoDup_setAdd.
  assert (Hsub' : setAdd (collectedStars s) starType ⊆ stars current).
  { intros y [Hy| ->]%elem_of_setAdd; [|done].
    apply Hsub in Hy. unfold requiredStars in Hy. by rewrite Hc in Hy. }
  destruct (_ =? _)%nat.
  - unfold completeConstellation. simpl. rewrite ?Hc. simpl.
    match goal with |- context [startMorphing ?s1 rnd] =>
      destruct (startMorphing_effect s1 rnd Hrec Hkeys Hlo Hhi)
        as (next & recent & -> & Hknown & _ & Hlen) end.
    simpl in *. split; simpl; try done.
    intros delay nxt [Hin|Hin]%elem_of_app; [by apply (Hto delay)|].
    apply list_elem_of_singleton in Hin as [= -> ->]. by exists next.
  - by split.
Qed.

Lemma sound_update s deltaTime :
  sound s → 0 <= deltaTime → sound (update s deltaTime).
Proof.
  intros Hs Hdt. pose proof Hs as [Hcur Hstars Hcol Hrec Hkeys Htim Hto Hnamed].
  unfold update. destruct (morphingActive s) eqn:Hactive; [|done]. simpl.
  destruct (Qle_bool (morphTimer s) 0) eqn:Hpos; [done|]. simpl.
  destruct (Htim eq_refl) as [Hlo Hhi].
  split; simpl; try done.
  destruct (Qle_bool (morphTimer s - deltaTime * 1000) 0) eqn:Hend; [done|].
  intros _. split; [|lra].
  apply Qnot_le_lt. intros Hle. apply Qle_bool_iff in Hle. congruence.
Qed.

Lemma sound_runTimeout s : sound s → sound (runTimeout s).
Proof.
  intros Hs. pose proof Hs as [Hcur Hstars Hcol Hrec Hkeys Htim Hto Hnamed].
  unfold runTimeout. destruct (timeouts s) as [|[delay next] rest] eqn:Hrest;
    [done|].
  assert (Hrest' : ∀ d n, (d, n) ∈ rest →
            ∃ k, n = Some k ∧ is_Some (lookupPattern (patterns s) k)).
  { intros d n Hin. apply (Hto d). by right. }
  destruct next as [patternName|].
  - apply sound_setPattern. by split.
  - by split.
Qed.

Lemma sound_reset s : sound s → sound (reset s).
Proof.
  intros [Hcur Hstars Hcol Hrec Hkeys Htim Hto Hnamed]. unfold reset.
  apply sound_setPattern. split; simpl; try done.
  - split; [apply NoDup_nil_2|]. by intros x Hx%elem_of_nil.
  - lia.
Qed.

Lemma sound_enableProceduralMode s rnd name colors now :
  sound s → 0 <= rnd → rnd < 1 →
  sound (enableProceduralMode s rnd name colors now).
Proof.
  intros [Hcur Hstars Hcol Hrec Hkeys Htim Hto Hnamed] Hlo Hhi.
  unfold enableProceduralMode.
  eapply sound_setPattern_known; simpl.
  - by rewrite lookupPattern_setEntry, decide_True.
  - intros k q. rewrite lookupPattern_setEntry. case_decide.
    + intros [= <-]. by apply procedural_stars.
    + apply Hstars.
  - done.
  - intros k Hk. rewrite lookupPattern_setEntry. case_decide; [by eexists|].
    by apply Hkeys.
  - intros delay next Hin. destruct (Hto delay next Hin) as (k & -> & Hk).
    exists k. split; [done|]. rewrite lookupPattern_setEntry.
    case_decide; [by eexists|done].
  - intros k. rewrite lookupPattern_setEntry. case_decide as Hk.
    + intros _. by rewrite Hk.
    + apply Hnamed.
Qed.

Lemma sound_reachable s : reachable s → sound s.
Proof.
  induction 1 as [|s patternName _ IH|s starType now rnd _ IH Hlo Hhi
                 |s deltaTime _ IH Hdt|s _ IH|s _ IH
                 |s rnd name colors now _ IH Hlo Hhi].
  - apply sound_new.
  - by apply sound_setPattern.
  - by apply sound_collectStar.
  - by apply sound_update.
  - by apply sound_runTimeout.
  - by apply sound_reset.
  - by apply sound_enableProceduralMode.
Qed.

(** *** Loading saved states *)

Lemma NoDup_addAll acc array : NoDup acc → NoDup (addAll acc array).
Proof.
  unfold addAll. revert acc. induction array as [|x array IH]; intros acc Hacc;
    [done|].
  cbn [foldl]. by apply IH, NoDup_setAdd.
Qed.

Lemma elem_of_addAll acc array y :
  y ∈ addAll acc array ↔ y ∈ acc ∨ y ∈ array.
Proof.
  unfold addAll. revert acc. induction array as [|x array IH]; intros acc.
  - simpl. split; [by left|]. by intros [?|?%elem_of_nil].
  - cbn [foldl]. rewrite IH, elem_of_setAdd, elem_of_cons. naive_solver.
Qed.

(** What [loadState] builds from an object whose target names a pattern
    of the table. *)
Lemma loadState_known s state p :
  lookupPattern (patterns s) (savedTarget state) = Some p →
  loadState s state =
    Mk (patterns s) (Some p)
       (addAll [] (default [] (saved_collectedStars state)))
       (savedTarget state) false 0
       (default [] (saved_completedPatterns state))
       (default [] (saved_recentPatterns state)) (timeouts s).
Proof.
  intros Hp. unfold loadState. fold (savedTarget state).
  unfold setPattern. cbn [patterns]. rewrite Hp.
  by destruct (saved_collectedStars state).
Qed.

Lemma sound_loadState s state :
  sound s → wellFormedSave s state → sound (loadState s state).
Proof.
  intros [Hcur Hstars Hcol Hrec Hkeys Htim Hto Hnamed] (p & Hp & Hsub & Hlen).
  rewrite (loadState_known s state p Hp).
  split; simpl; try done.
  - by exists p.
  - split; [apply NoDup_addAll, NoDup_nil_2|].
    intros y [?%elem_of_nil|Hy]%elem_of_addAll; [done|].
    unfold requiredStars. simpl. by apply Hsub.
Qed.

Lemma sound_reachableOwn s : reachableOwn s → sound s.
Proof.
  induction 1 as [|s patternName _ IH _|s starType now rnd _ IH Hlo Hhi
                 |s deltaTime _ IH Hdt|s _ IH|s _ IH
                 |s rnd name colors now _ IH Hlo Hhi|s state _ IH Hstate].
  - apply sound_new.
  - by apply sound_setPattern.
  - by apply sound_collectStar.
  - by apply sound_update.
  - by apply sound_runTimeout.
  - by apply sound_reset.
  - by apply sound_enableProceduralMode.
  - by apply sound_loadState.
Qed.

(** What [saveState] returns can be loaded into a manager with the same
    table. *)
Lemma wellFormedSave_saveState s s0 :
  sound s → patterns s0 = patterns s → wellFormedSave s0 (saveState s).
Proof.
  intros [(current & Hc & Hlookup) _ [_ Hsub] Hrec _ _ _ Hnamed] Hpatterns.
  exists current. unfold savedTarget, saveState. simpl.
  assert (Hname : String.eqb (targetPattern s) "" = false).
  { apply String.eqb_neq, Hnamed. by eexists. }
  rewrite Hname, Hpatterns. split; [done|]. split; [|done].
  unfold requiredStars in Hsub. by rewrite Hc in Hsub.
Qed.

(** *** Selection and pending callbacks *)

Lemma last_recent_after (recent : list string) target :
  let pushed := recent ++ [target] in
  last (if (2 <? length pushed)%nat then tail pushed else pushed)
  = Some target.
Proof.
  intros pushed. unfold pushed. destruct (2 <? _)%nat eqn:Hfull.
  - destruct recent as [|a recent]; [done|]. simpl. apply last_snoc.
  - apply last_snoc.
Qed.

(** X17.  [selectNextPattern] clears the memory of recent patterns
    exactly when every key of the table is in it, and the pattern it then
    returns is one of the recent ones.  Otherwise it returns a key of the
    table that is not in the memory and makes the target pattern the
    latest entry of the memory.  In every state reached through the
    methods of the manager, [loadState] of well-formed objects included,
    the second case applies and the memory holds at most two patterns
    afterwards.  [loadState] copies the memory of the object it is given:
    after loading an object that lists every key of the table, the next
    selection clears the memory. *)
Theorem selectNextPattern_branches s rnd :
  0 <= rnd → rnd < 1 →
  let result := selectNextPattern s rnd in
  let exhausted :=
    ∀ k, k ∈ patternKeys (patterns s) → k ∈ recentPatterns s in
  (exhausted →
   recentPatterns result.2 = [] ∧ result.1 = selectRandomPattern s rnd ∧
   ∀ next, result.1 = Some next → next ∈ recentPatterns s) ∧
  (¬ exhausted →
   ∃ next, result.1 = Some next ∧ next ∈ patternKeys (patterns s) ∧
           (next ∉ recentPatterns s) ∧
           last (recentPatterns result.2) = Some (targetPattern s)) ∧
  (reachable s ∨ reachableOwn s →
   ¬ exhausted ∧ (length (recentPatterns result.2) ≤ 2)%nat) ∧
  (∀ state,
     saved_recentPatterns state = Some (patternKeys (patterns s)) →
     recentPatterns (selectNextPattern (loadState s state) rnd).2 = []).
Proof.
  intros Hlo Hhi result exhausted.
  assert (Hbranch : ∀ s',
    (length (List.filter
               (λ pattern, negb (includes (recentPatterns s') pattern))
               (patternKeys (patterns s'))) =? 0)%nat = true ↔
    ∀ k, k ∈ patternKeys (patterns s') → k ∈ recentPatterns s').
  { intros s'. set (available := List.filter _ _).
    rewrite Nat.eqb_eq. split.
    - intros Hnil k Hk.
      destruct (decide (k ∈ recentPatterns s')) as [|Hnot]; [done|].
      assert (Hin : In k available).
      { apply filter_In. split; [by apply list_elem_of_In|].
        by apply negb_true_iff, includes_false. }
      destruct available; [destruct Hin|done].
    - intros Hall. destruct available as [|k rest] eqn:Hav; [done|].
      assert (Hin : In k available) by (rewrite Hav; by left).
      apply filter_In in Hin as [Hk Hnot].
      apply negb_true_iff, includes_false in Hnot.
      destruct Hnot. by apply Hall, list_elem_of_In. }
  assert (Hexhausted : exhausted →
    recentPatterns result.2 = [] ∧ result.1 = selectRandomPattern s rnd).
  { intros Hall%Hbranch. unfold result, selectNextPattern. by rewrite Hall. }
  assert (Hfresh : ¬ exhausted →
    ∃ next, result.1 = Some next ∧ next ∈ patternKeys (patterns s) ∧
            (next ∉ recentPatterns s) ∧
            recentPatterns result.2 =
              let pushed := recentPatterns s ++ [targetPattern s] in
              if (2 <? length pushed)%nat then tail pushed else pushed).
  { intros Hnot. unfold result, selectNextPattern.
    set (available := List.filter _ _).
    destruct (length available =? 0)%nat eqn:Hzero;
      [exfalso; apply Hnot; exact (proj1 (Hbranch s) Hzero)|].
    assert (available ≠ []) by (intros Hnil; by rewrite Hnil in Hzero).
    destruct (pickRandom_Some available rnd) as (next & Hnext & Hin);
      try done.
    exists next. simpl. split; [done|].
    apply list_elem_of_In, filter_In in Hin as [Hin Hrecent].
    split; [by apply list_elem_of_In|]. split; [|done].
    by apply includes_false, negb_true_iff. }
  split; [|split; [|split]].
  - intros Hall. destruct (Hexhausted Hall) as [Hnil Hpick].
    split; [done|]. split; [done|]. intros next Hnext. apply Hall.
    rewrite Hpick in Hnext. unfold selectRandomPattern, pickRandom in Hnext.
    destruct (_ <? _)%Z; [done|].
    apply nth_error_In in Hnext. by apply list_elem_of_In.
  - intros Hnot. destruct (Hfresh Hnot) as (next & ? & ? & ? & Hrecent).
    exists next. repeat split; try done. rewrite Hrecent.
    apply last_recent_after.
  - intros Hreach.
    assert (Hsound : sound s).
    { destruct Hreach; [by apply sound_reachable|by apply sound_reachableOwn]. }
    destruct Hsound as [_ _ _ Hrec Hkeys _ _ _].
    assert (Hnot : ¬ exhausted).
    { intros Hall. destruct (fresh_pattern _ _ Hrec Hkeys) as (k & Hk & Hfr).
      by apply Hfr, Hall. }
    split; [done|]. destruct (Hfresh Hnot) as (_ & _ & _ & _ & ->).
    by apply length_recent_after.
  - intros state Hstate.
    assert (Hp : patterns (loadState s state) = patterns s).
    { unfold loadState, setPattern. cbn [patterns].
      destruct (lookupPattern _ _); by destruct (saved_collectedStars state). }
    assert (Hr : recentPatterns (loadState s state)
                 = patternKeys (patterns s)).
    { unfold loadState, setPattern. cbn [patterns]. rewrite Hstate.
      destruct (lookupPattern _ _); by destruct (saved_collectedStars state). }
    unfold selectNextPattern.
    rewrite (proj2 (Hbranch (loadState s state))); [done|].
    intros k. by rewrite Hp, Hr.
Qed.

(** X17 after the first completion, with one pattern in the memory. *)
Lemma selectNextPattern_branches_witness :
  let s := runTimeout
             (collectStar
                (collectStar (collectStar new "alpha" 1 0.3).2 "beta" 2 0.3).2
                "gamma" 3 0.3).2 in
  recentPatterns s = ["triangle"] ∧
  ∃ next, (selectNextPattern s 0.3).1 = Some next ∧
          (next ∉ recentPatterns s) ∧
          (length (recentPatterns (selectNextPattern s 0.3).2) ≤ 2)%nat.
Proof.
  intros s. split; [reflexivity|].
  destruct (selectNextPattern_branches s 0.3) as (_ & Hfresh & Hreach & _).
  - discriminate.
  - reflexivity.
  - destruct Hreach as [Hnot Hlen].
    + left. apply reach_runTimeout.
      repeat (apply reach_collectStar; [|discriminate|reflexivity]).
      apply reach_new.
    + destruct (Hfresh Hnot) as (next & Hnext & _ & Hnew & _).
      exists next. split; [exact Hnext|]. split; [exact Hnew|exact Hlen].
Defined.

(** X18.  In every state the manager can reach, the oldest pending
    callback of [startMorphing] finds its pattern in the table: when it
    runs, that pattern becomes the current goal with no star collected
    and the transition is over, whatever happened since the callback was
    scheduled. *)
Theorem runTimeout_installs_pattern s delay next rest :
  reachable s → timeouts s = (delay, next) :: rest →
  ∃ patternName p,
    next = Some patternName ∧
    lookupPattern (patterns s) patternName = Some p ∧
    runTimeout s =
      Mk (patterns s) (Some p) [] patternName false 0
         (completedPatterns s) (recentPatterns s) rest.
Proof.
  intros [_ _ _ _ _ _ Hto _]%sound_reachable Hpending.
  destruct (Hto delay next) as (patternName & -> & [p Hp]);
    [rewrite Hpending; by left|].
  exists patternName, p. split; [done|]. split; [done|].
  unfold runTimeout. rewrite Hpending. unfold setPattern. simpl.
  by rewrite Hp.
Qed.

Lemma runTimeout_installs_pattern_witness :
  let s := (collectStar
              (collectStar (collectStar new "alpha" 1 0.3).2 "beta" 2 0.3).2
              "gamma" 3 0.3).2 in
  ∃ patternName p,
    Some "cross" = Some patternName ∧
    lookupPattern (patterns s) patternName = Some p ∧
    runTimeout s =
      Mk (patterns s) (Some p) [] patternName false 0
         (completedPatterns s) (recentPatterns s) [].
Proof.
  apply (runTimeout_installs_pattern
           (collectStar
              (collectStar (collectStar new "alpha" 1 0.3).2 "beta" 2 0.3).2
              "gamma" 3 0.3).2 3000 (Some "cross") []).
  - repeat (apply reach_collectStar; [|discriminate|reflexivity]).
    apply reach_new.
  - vm_compute. reflexivity.
Defined.

(** *** Progress *)

Lemma filter_split_length {A} (f : A → bool) (l : list A) :
  (length (List.filter f l) + length (List.filter (λ x, negb (f x)) l)
   = length l)%nat.
Proof.
  induction l as [|a l IH]; [done|]. simpl.
  destruct (f a); simpl; lia.
Qed.

Lemma NoDup_List_filter {A} (f : A → bool) (l : list A) :
  NoDup l → NoDup (List.filter f l).
Proof.
  induction 1 as [|a l Ha Hl IH]; simpl; [apply NoDup_nil_2|].
  destruct (f a); [|done]. apply NoDup_cons. split; [|done].
  intros Hin. apply list_elem_of_In, filter_In in Hin as [Hin _].
  by apply list_elem_of_In in Hin.
Qed.

(** The stars still needed and the stars collected make up the stars of
    the current pattern. *)
Lemma needed_plus_collected s current :
  currentPattern s = Some current → NoDup (stars current) →
  NoDup (collectedStars s) → collectedStars s ⊆ stars current →
  (length (collectedStars s) + length (getNeededStars s)
   = length (stars current))%nat.
Proof.
  intros Hc Hstars Hnd Hsub. unfold getNeededStars. rewrite Hc.
  rewrite <- (filter_split_length (includes (collectedStars s)) (stars current)).
  f_equal. apply Permutation_length. apply NoDup_Permutation; [done| |].
  - by apply NoDup_List_filter.
  - intros x. split.
    + intros Hx. apply list_elem_of_In, filter_In.
      split; [by apply list_elem_of_In, Hsub|by apply includes_true].
    + intros Hx. apply list_elem_of_In, filter_In in Hx as [_ Hx].
      by apply includes_true in Hx.
Qed.

(** X19.  In every state reached from a new manager by [collectStar],
    [update], the pending callbacks, [reset], [enableProceduralMode],
    [setPattern] with a name that [Object.prototype] does not define, and
    [loadState] of a well-formed object, the numbers of [getProgress] are
    consistent: the stars collected and the stars that [getNeededStars]
    returns add up to the total, which is not zero; the percentage is a
    number between 0 and 100; and the progress of the transition is a
    number between 0 and 1. *)
Theorem getProgress_bounds s :
  reachableOwn s →
  let p := getProgress s in
  (progress_collected p + length (getNeededStars s) = progress_total p)%nat ∧
  (0 < progress_total p)%nat ∧
  (∃ q, progress_percentage p = Some q ∧ 0 <= q ∧ q <= 100) ∧
  0 <= progress_morphProgress p ∧ progress_morphProgress p <= 1.
Proof.
  intros [(current & Hc & Hlookup) Hstars [Hnd Hsub] _ _ Htim _ _]%sound_reachableOwn.
  destruct (Hstars _ _ Hlookup) as [Hnodup Hsome].
  unfold requiredStars in Hsub. rewrite Hc in Hsub.
  pose proof (needed_plus_collected s current Hc Hnodup Hnd Hsub) as Hsum.
  assert (Htotal : (0 < length (stars current))%nat).
  { destruct (stars current); [done|]. simpl. lia. }
  unfold getProgress. rewrite Hc. simpl.
  split; [done|]. split; [done|]. split.
  - destruct (length (stars current) =? 0)%nat eqn:Hzero;
      [apply Nat.eqb_eq in Hzero; lia|].
    eexists. split; [done|].
    set (c := inject_Z (Z.of_nat (length (collectedStars s)))).
    set (t := inject_Z (Z.of_nat (length (stars current)))).
    assert (0 <= c).
    { unfold c. change 0 with (inject_Z 0). rewrite <- Zle_Qle. lia. }
    assert (c <= t) by (unfold c, t; rewrite <- Zle_Qle; lia).
    assert (0 < t).
    { unfold t. change 0 with (inject_Z 0). rewrite <- Zlt_Qlt. lia. }
    assert (0 <= c / t) by (apply Qle_shift_div_l; lra).
    assert (c / t <= 1) by (apply Qle_shift_div_r; lra).
    split; lra.
  - destruct (morphingActive s); [|split; lra].
    destruct (Htim eq_refl). split.
    + apply Qle_shift_div_l; lra.
    + apply Qle_shift_div_r; lra.
Qed.

(** X19 on a manager that loaded a saved object and collected a star. *)
Lemma getProgress_bounds_witness :
  let s := (collectStar
              (loadState (setPattern new "cross")
                 (SavedState (Some "triangle") (Some ["alpha"]) None
                             (Some ["cross"])))
              "beta" 1 0.3).2 in
  let p := getProgress s in
  collectedStars s = ["alpha"; "beta"] ∧
  (progress_collected p + length (getNeededStars s) = progress_total p)%nat ∧
  (0 < progress_total p)%nat ∧
  (∃ q, progress_percentage p = Some q ∧ 0 <= q ∧ q <= 100) ∧
  0 <= progress_morphProgress p ∧ progress_morphProgress p <= 1.
Proof.
  split; [reflexivity|].
  apply (getProgress_bounds
           (collectStar
              (loadState (setPattern new "cross")
                 (SavedState (Some "triangle") (Some ["alpha"]) None
                             (Some ["cross"])))
              "beta" 1 0.3).2).
  apply own_collectStar; [|discriminate|reflexivity].
  apply own_loadState.
  - apply own_setPattern; [apply own_new|].
    unfold objectPrototypeKeys. set_solver.
  - exists (Pattern "Triangle Céleste" ["alpha"; "beta"; "gamma"]
                    "Formez un triangle parfait" 150
                    ["#ff6b6b"; "#4ecdc4"; "#45b7d1"]).
    split; [reflexivity|]. split; [simpl; set_solver|simpl; lia].
Defined.

(** Outside these conditions the numbers need not be consistent:
    [loadState] takes the collected stars of the object as they are, and a
    star that the pattern does not have makes the count of collected
    stars larger than the total. *)
Lemma loadState_foreign_star :
  let s := loadState new
             (SavedState (Some "triangle")
                         (Some ["alpha"; "beta"; "gamma"; "delta"]) None None) in
  progress_collected (getProgress s) = 4%nat ∧
  progress_total (getProgress s) = 3%nat.
Proof. split; reflexivity. Qed.
(** *** After a completion *)

Lemma all_collected_locked s :
  sound s → length (collectedStars s) = length (requiredStars s) →
  ∀ starType now rnd, collectStar s starType now rnd = (false, s).
Proof.
  intros [(current & Hc & Hlookup) Hstars [Hnd Hsub] _ _ _ _ _] Hlen
         starType now rnd.
  destruct (Hstars _ _ Hlookup) as [Hnodup _].
  unfold requiredStars in *. rewrite Hc in *.
  unfold collectStar. rewrite Hc.
  destruct (includes (stars current) starType) eqn:Hreq; [|done]. simpl.
  apply includes_true in Hreq.
  assert (Hperm : collectedStars s ≡ₚ stars current).
  { apply submseteq_length_Permutation; [by apply NoDup_submseteq|lia]. }
  assert (Hin : starType ∈ collectedStars s) by by rewrite Hperm.
  apply includes_true in Hin. by rewrite Hin.
Qed.

(** X20.  Once [collectStar] has returned [true], no star is needed any
    more and, until the scheduled change of pattern runs, every further
    [collectStar] returns [false] and changes nothing: a constellation is
    completed once. *)
Theorem collectStar_after_completion s starType now rnd :
  reachable s → 0 <= rnd → rnd < 1 →
  (collectStar s starType now rnd).1 = true →
  let s' := (collectStar s starType now rnd).2 in
  getNeededStars s' = [] ∧
  ∀ starType' now' rnd', collectStar s' starType' now' rnd' = (false, s').
Proof.
  intros Hreach Hlo Hhi Htrue s'.
  assert (Hsound : sound s').
  { by apply sound_collectStar; [apply sound_reachable|..]. }
  assert (Hlen : length (collectedStars s') = length (requiredStars s')).
  { pose proof (sound_reachable s Hreach)
      as [_ _ _ Hrec Hkeys _ _ _].
    unfold s', requiredStars in *. unfold collectStar in *.
    destruct (currentPattern s) as [current|] eqn:Hc; [|done].
    destruct (includes (stars current) starType); [|done]. simpl in *.
    destruct (includes (collectedStars s) starType); [done|].
    destruct (_ =? _)%nat eqn:Hfull; [|done]. apply Nat.eqb_eq in Hfull.
    unfold completeConstellation in *. simpl in *.
    match goal with |- context [startMorphing ?s1 rnd] =>
      destruct (startMorphing_effect s1 rnd Hrec Hkeys Hlo Hhi)
        as (next & recent & -> & _) end.
    done. }
  split; [|by apply all_collected_locked].
  destruct Hsound as [(current & Hc & Hlookup) Hstars [Hnd Hsub] _ _ _ _ _].
  destruct (Hstars _ _ Hlookup) as [Hnodup _].
  unfold requiredStars in *. rewrite Hc in *.
  pose proof (needed_plus_collected s' current Hc Hnodup Hnd Hsub) as Hsum.
  destruct (getNeededStars s'); [done|]. simpl in Hsum. lia.
Qed.

Lemma collectStar_after_completion_witness :
  let s := (collectStar (collectStar new "alpha" 1 0.3).2 "beta" 2 0.3).2 in
  let s' := (collectStar s "gamma" 3 0.3).2 in
  getNeededStars s' = [] ∧
  ∀ starType' now' rnd', collectStar s' starType' now' rnd' = (false, s').
Proof.
  apply (collectStar_after_completion
           (collectStar (collectStar new "alpha" 1 0.3).2 "beta" 2 0.3).2
           "gamma" 3 0.3).
  - repeat (apply reach_collectStar; [|discriminate|reflexivity]).
    apply reach_new.
  - discriminate.
  - reflexivity.
  - reflexivity.
Defined.

(** *** Saved states *)

Lemma addAll_NoDup acc array :
  NoDup (acc ++ array) → addAll acc array = acc ++ array.
Proof.
  unfold addAll. revert acc. induction array as [|x array IH]; intros acc Hnd.
  - by rewrite app_nil_r.
  - cbn [foldl]. unfold setAdd at 2.
    assert (Hx : x ∉ acc).
    { apply NoDup_app in Hnd as (_ & Hdisj & _). intros Hin.
      apply (Hdisj x Hin). by left. }
    apply includes_false in Hx. rewrite Hx.
    rewrite IH; [by rewrite <- app_assoc|]. by rewrite <- app_assoc.
Qed.

(** X21.  Loading what [saveState] returned for a reachable state, into
    any manager with the same table of patterns, restores the target and
    current pattern, the collected stars, the completed patterns and the
    recent patterns; the transition is off, and the pending callbacks of
    the loading manager stay pending. *)
Theorem loadState_saveState s s0 :
  reachable s → patterns s0 = patterns s →
  loadState s0 (saveState s) =
    Mk (patterns s) (currentPattern s) (collectedStars s) (targetPattern s)
       false 0 (completedPatterns s) (recentPatterns s) (timeouts s0).
Proof.
  intros [(current & Hc & Hlookup) _ [Hnd _] _ _ _ _ Hnamed]%sound_reachable
         Hpatterns.
  unfold loadState, saveState. simpl.
  assert (Hname : String.eqb (targetPattern s) "" = false).
  { apply String.eqb_neq, Hnamed. by eexists. }
  rewrite Hname. unfold setPattern. simpl. rewrite Hpatterns, Hlookup. simpl.
  rewrite Hc. by rewrite (addAll_NoDup [] (collectedStars s)).
Qed.

Lemma loadState_saveState_witness :
  let s := (collectStar new "alpha" 1 0.3).2 in
  loadState new (saveState s) =
    Mk (patterns s) (currentPattern s) (collectedStars s) (targetPattern s)
       false 0 (completedPatterns s) (recentPatterns s) (timeouts new).
Proof.
  apply (loadState_saveState (collectStar new "alpha" 1 0.3).2 new).
  - apply reach_collectStar; [apply reach_new|discriminate|reflexivity].
  - reflexivity.
Defined.

End ConstellationManagerSpec.

(** ** Snake: properties *)

Module SnakeSpec.
Import Snake.
Local Open Scope Q_scope.

Lemma segmentCount_types segs1 segs2 kind :
  seg_type <$> segs1 = seg_type <$> segs2 →
  segmentCount segs1 kind = segmentCount segs2 kind.
Proof.
  unfold segmentCount. revert segs2.
  induction segs1 as [|a l IH]; intros [|b l']; simpl; try done.
  intros [= Hab Hl]. rewrite Hab. case_bool_decide; simpl; by rewrite (IH l').
Qed.

Lemma zip_with_types (previous body : list segment) :
  (length body ≤ length previous)%nat →
  seg_type <$> zip_with (λ p seg, Segment (seg_x p) (seg_y p) (seg_type seg))
                        previous body
  = seg_type <$> body.
Proof.
  revert previous. induction body as [|b body IH]; intros [|p previous] Hlen;
    simpl in *; try done; try lia.
  f_equal. apply IH. lia.
Qed.

Lemma moveSegments_types segs dx dy :
  seg_type <$> moveSegments segs dx dy = seg_type <$> segs.
Proof.
  destruct segs as [|first body]; [done|]. unfold moveSegments.
  rewrite fmap_cons. cbn [seg_type]. rewrite fmap_cons. f_equal.
  apply zip_with_types. simpl. lia.
Qed.

Lemma updateSegmentEffects_armor s :
  activePowerUps (updateSegmentEffects s) !! "armor" = armorEntry (segments s).
Proof.
  unfold updateSegmentEffects, armorEntry. simpl.
  destruct (0 <? segmentCount (segments s) magnetic)%nat;
    destruct (0 <? segmentCount (segments s) armored)%nat;
    rewrite ?lookup_insert_ne, ?lookup_delete_ne by done;
    by rewrite ?lookup_insert_eq, ?lookup_delete_eq.
Qed.

Lemma removeLastArmored_Some body body' :
  removeLastArmored body = Some body' →
  ∃ l1 seg l2, body = l1 ++ seg :: l2 ∧ seg_type seg = armored ∧
               body' = l1 ++ l2 ∧ segmentCount l2 armored = 0%nat.
Proof.
  revert body'. induction body as [|a body IH]; intros body'; simpl; [done|].
  destruct (removeLastArmored body) as [rest'|] eqn:Hrest.
  - intros [= <-]. destruct (IH rest' eq_refl) as (l1 & seg & l2 & -> & ? & -> & ?).
    by exists (a :: l1), seg, l2.
  - case_bool_decide as Ha; [|done]. intros [= <-].
    exists [], a, body. repeat split; try done.
    clear IH Ha. induction body as [|b body IH]; [done|]. simpl in Hrest.
    destruct (removeLastArmored body); [done|].
    case_bool_decide as Hb; [done|]. unfold segmentCount. simpl.
    rewrite bool_decide_eq_false_2 by done. by apply IH.
Qed.

Lemma removeLastArmored_None body :
  removeLastArmored body = None → segmentCount body armored = 0%nat.
Proof.
  induction body as [|a body IH]; simpl; [done|].
  destruct (removeLastArmored body); [done|].
  case_bool_decide as Ha; [done|]. intros _. unfold segmentCount. simpl.
  rewrite bool_decide_eq_false_2 by done. by apply IH.
Qed.

Lemma segmentCount_app l1 l2 kind :
  segmentCount (l1 ++ l2) kind = (segmentCount l1 kind + segmentCount l2 kind)%nat.
Proof. unfold segmentCount. by rewrite List.filter_app, length_app. Qed.

Lemma wellFormed_updateSegmentEffects s segs first body :
  segs = first :: body → seg_type first = head →
  wellFormed (updateSegmentEffects (setSegments s segs)).
Proof.
  intros -> Hfirst. split; [by exists first, body|].
  exact (updateSegmentEffects_armor _).
Qed.

Lemma wellFormed_removeArmoredSegment s :
  wellFormed s → wellFormed (removeArmoredSegment s).
Proof.
  intros Hwf. pose proof Hwf as [(first & body & Hsegs & Hfirst) _].
  unfold removeArmoredSegment. rewrite Hsegs.
  destruct (removeLastArmored body) as [body'|]; [|done].
  by eapply wellFormed_updateSegmentEffects.
Qed.

Lemma wellFormed_reachable s : reachable s → wellFormed s.
Proof.
  induction 1 as [x y ty|s x y _ _|s name _ IH|s _ IH|s _ IH|s duration _ IH
                 |s kind _ IH|s fx fy _ IH|s deltaTime _ IH|s rnd _ IH].
  - split; [by eexists _, _|done].
  - split; [by eexists _, _|done].
  - unfold setDirection. destruct (negb (alive s)); [done|].
    by case_bool_decide.
  - unfold activateBoost. destruct (_ || _); [done|].
    by destruct (_ =? _)%nat.
  - unfold runBoostTimeout. by destruct (boostTimeouts s).
  - done.
  - unfold grow. destruct (negb (alive s)); [done|].
    destruct IH as [(first & body & Hsegs & Hfirst) Harmor].
    destruct (last (segments s)) as [tail|]; [|by split; [eexists _, _|]].
    eapply wellFormed_updateSegmentEffects; [|done]. by rewrite Hsegs.
  - done.
  - unfold update. destruct (negb (alive s)); [done|].
    destruct (Qlt_le_dec 0 (invulnerabilityTime s)).
    all: destruct IH as [(first & body & Hsegs & Hfirst) Harmor]; split; simpl.
    all: try (rewrite Hsegs; by eexists _, _).
    all: rewrite Harmor; unfold armorEntry;
      by rewrite (segmentCount_types _ _ _ (moveSegments_types _ _ _)).
  - unfold takeDamage. destruct (invulnerable s); [done|].
    destruct (0 <? getEffectLevel s "armor")%nat; [|done].
    destruct (Qlt_le_dec _ _); [|done].
    by destruct (wellFormed_removeArmoredSegment s IH).
Qed.

Lemma getEffectLevel_armor s :
  wellFormed s → getEffectLevel s "armor" = segmentCount (segments s) armored.
Proof.
  intros [_ Harmor]. unfold getEffectLevel. rewrite Harmor. unfold armorEntry.
  destruct (0 <? segmentCount (segments s) armored)%nat eqn:Hpos; [done|].
  apply Nat.ltb_ge in Hpos. lia.
Qed.

Lemma alive_removeArmoredSegment s :
  alive (removeArmoredSegment s) = alive s.
Proof.
  unfold removeArmoredSegment. destruct (segments s) as [|first body]; [done|].
  by destruct (removeLastArmored body).
Qed.

(** C5, for every snake the methods of the class can produce.  An
    invulnerable snake takes no damage and does not change.  A snake that
    is not invulnerable and has armor, its armor level being the number
    of its armored segments, survives exactly when the value drawn in
    [0, 1) is below the smaller of [armorLevel * 0.2] and [0.8], so with
    that probability; it then loses exactly one armored segment, becomes
    invulnerable for 1000 ms and [takeDamage] returns [false].
    Otherwise, and always without armored segments, [alive] becomes
    [false] and [takeDamage] returns [true]. *)
Theorem takeDamage_spec s rnd :
  reachable s →
  let armorLevel := getEffectLevel s "armor" in
  let result := takeDamage s rnd in
  armorLevel = segmentCount (segments s) armored ∧
  (invulnerable s = true → result = (false, s)) ∧
  (invulnerable s = false → (0 < armorLevel)%nat →
   (result.1 = false ↔
    rnd < Qmin (inject_Z (Z.of_nat armorLevel) * 0.2) 0.8)) ∧
  (invulnerable s = false → (0 < armorLevel)%nat →
   rnd < Qmin (inject_Z (Z.of_nat armorLevel) * 0.2) 0.8 →
   result.1 = false ∧
   (∃ l1 seg l2, segments s = l1 ++ seg :: l2 ∧ seg_type seg = armored ∧
                 segments result.2 = l1 ++ l2) ∧
   invulnerable result.2 = true ∧ invulnerabilityTime result.2 = 1000 ∧
   alive result.2 = alive s) ∧
  (invulnerable s = false →
   armorLevel = 0%nat ∨ Qmin (inject_Z (Z.of_nat armorLevel) * 0.2) 0.8 <= rnd →
   result.1 = true ∧ alive result.2 = false).
Proof.
  intros Hwf%wellFormed_reachable armorLevel result.
  fold (survivalChance armorLevel).
  pose proof (getEffectLevel_armor s Hwf) as Hlevel. fold armorLevel in Hlevel.
  split; [done|].
  unfold result, takeDamage. fold armorLevel.
  destruct (invulnerable s) eqn:Hinv.
  { repeat split; try done. }
  split; [done|].
  destruct (0 <? armorLevel)%nat eqn:Hpos.
  2:{ apply Nat.ltb_ge in Hpos. repeat split; try done; try lia. }
  apply Nat.ltb_lt in Hpos.
  destruct (Qlt_le_dec rnd (survivalChance armorLevel)) as [Hroll|Hroll]; simpl.
  - split; [by intros _ _; split|]. split.
    + intros _ _ _. split; [done|].
      split; [|by rewrite <- (alive_removeArmoredSegment s)].
      destruct Hwf as [(first & body & Hsegs & Hfirst) _].
      unfold removeArmoredSegment. rewrite Hsegs.
      destruct (removeLastArmored body) as [body'|] eqn:Hrm.
      * apply removeLastArmored_Some in Hrm as (l1 & seg & l2 & -> & ? & -> & _).
        by exists (first :: l1), seg, l2.
      * apply removeLastArmored_None in Hrm.
        rewrite Hlevel, Hsegs in Hpos. unfold segmentCount in Hpos, Hrm.
        simpl in Hpos. rewrite Hfirst in Hpos. simpl in Hpos. lia.
    + intros _ [?|Hle]; [lia|]. by apply Qle_not_lt in Hle.
  - split.
    + intros _ _. split; [done|]. intros Hlt. by apply Qle_not_lt in Hroll.
    + split; [|done]. intros _ _ Hlt. by apply Qle_not_lt in Hroll.
Qed.

(** C5 on a snake with one armored segment and on one without armor. *)
Lemma takeDamage_spec_witness :
  (takeDamage (grow (new 3 4 player) armored) 0.1).1 = false ∧
  (takeDamage (new 3 4 player) 0.1).1 = true.
Proof.
  split.
  - apply (takeDamage_spec (grow (new 3 4 player) armored) 0.1).
    + apply reach_grow, reach_new.
    + reflexivity.
    + vm_compute. lia.
    + reflexivity.
  - apply (takeDamage_spec (new 3 4 player) 0.1).
    + apply reach_new.
    + reflexivity.
    + left. reflexivity.
Defined.





(** *** Further properties of a snake *)

(** *** Power-ups and segments *)

Lemma lookup_updateSegmentEffects s k :
  activePowerUps (updateSegmentEffects s) !! k =
  if decide (k = "magnetism") then
    if (0 <? segmentCount (segments s) magnetic)%nat
    then Some (PowerUp "Magnétisme" (segmentCount (segments s) magnetic) (-1)
                       (Some (segmentCount (segments s) magnetic * 30)%nat))
    else None
  else if decide (k = "armor") then
    if (0 <? segmentCount (segments s) armored)%nat
    then Some (PowerUp "Blindage" (segmentCount (segments s) armored) (-1) None)
    else None
  else activePowerUps s !! k.
Proof.
  unfold updateSegmentEffects. simpl.
  destruct (decide (k = "magnetism")) as [->|Hm].
  - destruct (0 <? segmentCount (segments s) magnetic)%nat;
      by rewrite ?lookup_insert_eq, ?lookup_delete_eq.
  - destruct (decide (k = "armor")) as [->|Ha].
    + destruct (0 <? segmentCount (segments s) magnetic)%nat;
        destruct (0 <? segmentCount (segments s) armored)%nat;
        rewrite ?lookup_insert_ne, ?lookup_delete_ne by done;
        by rewrite ?lookup_insert_eq, ?lookup_delete_eq.
    + destruct (0 <? segmentCount (segments s) magnetic)%nat;
        destruct (0 <? segmentCount (segments s) armored)%nat;
        by rewrite ?lookup_insert_ne, ?lookup_delete_ne,
                   ?lookup_insert_ne, ?lookup_delete_ne by done.
Qed.

Lemma lookup_effectsOf segs k :
  effectsOf segs !! k =
  if decide (k = "magnetism") then
    if (0 <? segmentCount segs magnetic)%nat
    then Some (PowerUp "Magnétisme" (segmentCount segs magnetic) (-1)
                       (Some (segmentCount segs magnetic * 30)%nat))
    else None
  else if decide (k = "armor") then
    if (0 <? segmentCount segs armored)%nat
    then Some (PowerUp "Blindage" (segmentCount segs armored) (-1) None)
    else None
  else None.
Proof. unfold effectsOf. by rewrite lookup_updateSegmentEffects. Qed.

(** [updateSegmentEffects] on power-ups that it wrote itself gives the
    power-ups of the segments. *)
Lemma updateSegmentEffects_effectsOf s segs old :
  activePowerUps s = effectsOf old →
  activePowerUps (updateSegmentEffects (setSegments s segs)) = effectsOf segs.
Proof.
  intros Hold. apply map_eq. intros k.
  rewrite lookup_updateSegmentEffects, lookup_effectsOf. simpl.
  repeat case_decide; try done. rewrite Hold, lookup_effectsOf.
  by rewrite !decide_False by done.
Qed.

Lemma effectsOf_types segs1 segs2 :
  seg_type <$> segs1 = seg_type <$> segs2 → effectsOf segs1 = effectsOf segs2.
Proof.
  intros Htypes. apply map_eq. intros k. rewrite !lookup_effectsOf.
  by rewrite !(segmentCount_types _ _ _ Htypes).
Qed.

Lemma coherent_removeArmoredSegment s :
  coherent s → coherent (removeArmoredSegment s).
Proof.
  intros Hs. pose proof Hs as (Heff & Hbase & Hspeed).
  unfold removeArmoredSegment.
  destruct (segments s) as [|first body] eqn:Hsegs; [done|].
  destruct (removeLastArmored body) as [body'|]; [|done].
  split; [|done]. by apply (updateSegmentEffects_effectsOf _ _ (first :: body)).
Qed.

Lemma coherent_reachable s : reachable s → coherent s.
Proof.
  induction 1 as [x y ty|s x y _ IH|s name _ IH|s _ IH|s _ IH|s duration _ IH
                 |s kind _ IH|s fx fy _ IH|s deltaTime _ IH|s rnd _ IH].
  - split; [|by split]. apply map_eq. intros k. simpl.
    rewrite lookup_effectsOf. by repeat case_decide.
  - destruct IH as (_ & Hbase & _). split; [|by split]. apply map_eq.
    intros k. simpl. rewrite lookup_effectsOf. by repeat case_decide.
  - unfold setDirection. destruct (negb (alive s)); [done|].
    by case_bool_decide.
  - unfold activateBoost. destruct (_ || _); [done|].
    destruct (_ =? _)%nat; [done|]. destruct IH as (? & ? & ?). by split.
  - unfold runBoostTimeout. destruct (boostTimeouts s); [done|].
    destruct IH as (? & ? & ?). by split.
  - done.
  - unfold grow. destruct (negb (alive s)); [done|].
    destruct (last (segments s)) as [tail|]; [|done].
    destruct IH as (Heff & Hbase & Hspeed). split; [|done].
    by apply (updateSegmentEffects_effectsOf _ _ (segments s)).
  - done.
  - unfold update. destruct (negb (alive s)); [done|].
    destruct IH as (Heff & Hbase & Hspeed).
    destruct (Qlt_le_dec 0 (invulnerabilityTime s)); split; simpl; try done.
    all: rewrite Heff; symmetry; apply effectsOf_types, moveSegments_types.
  - unfold takeDamage. destruct (invulnerable s); [done|].
    destruct (0 <? getEffectLevel s "armor")%nat; [|done].
    destruct (Qlt_le_dec _ _); [|done].
    by destruct (coherent_removeArmoredSegment s IH) as (? & ? & ?).
Qed.

(** X12.  In every state a snake can reach, the power-ups follow the
    segments: the magnetic range is 30 per magnetic segment, the
    magnetism effect is present exactly when there is a magnetic segment,
    a collision can be survived exactly when the snake is invulnerable or
    has an armored segment, and no other effect is ever active. *)
Theorem effects_follow_segments s :
  reachable s →
  getMagneticRange s = Some (segmentCount (segments s) magnetic * 30)%nat ∧
  (hasEffect s "magnetism" = true ↔
   (0 < segmentCount (segments s) magnetic)%nat) ∧
  (canSurviveCollision s = true ↔
   invulnerable s = true ∨ (0 < segmentCount (segments s) armored)%nat) ∧
  (∀ name, hasEffect s name = true → name = "armor" ∨ name = "magnetism").
Proof.
  intros (Heff & _)%coherent_reachable.
  unfold getMagneticRange, canSurviveCollision, hasEffect. rewrite Heff.
  split; [|split; [|split]].
  - rewrite lookup_effectsOf. simpl.
    destruct (0 <? _)%nat eqn:Hpos; [done|]. apply Nat.ltb_ge in Hpos.
    f_equal. lia.
  - rewrite bool_decide_eq_true, lookup_effectsOf. simpl.
    destruct (0 <? _)%nat eqn:Hpos.
    + apply Nat.ltb_lt in Hpos. split; [done|by eexists].
    + apply Nat.ltb_ge in Hpos. split; [by intros [? ?]|lia].
  - rewrite orb_true_iff, bool_decide_eq_true, lookup_effectsOf. simpl.
    destruct (0 <? _)%nat eqn:Hpos.
    + apply Nat.ltb_lt in Hpos. split; [by right|]. intros _. right. by eexists.
    + apply Nat.ltb_ge in Hpos.
      split; (intros [?|?]; [by left|]); [by destruct H|lia].
  - intros name. rewrite bool_decide_eq_true, lookup_effectsOf.
    repeat case_decide; try tauto. by intros [? ?].
Qed.

Lemma effects_follow_segments_witness :
  let s := grow (new 3 4 player) magnetic in
  getMagneticRange s = Some (segmentCount (segments s) magnetic * 30)%nat ∧
  (hasEffect s "magnetism" = true ↔
   (0 < segmentCount (segments s) magnetic)%nat) ∧
  (canSurviveCollision s = true ↔
   invulnerable s = true ∨ (0 < segmentCount (segments s) armored)%nat) ∧
  (∀ name, hasEffect s name = true → name = "armor" ∨ name = "magnetism").
Proof.
  apply (effects_follow_segments (grow (new 3 4 player) magnetic)).
  apply reach_grow, reach_new.
Defined.

(** *** Movement *)

Lemma zip_with_positions (first : segment) (body : list segment) :
  position <$> zip_with (λ previous seg,
                           Segment (seg_x previous) (seg_y previous)
                                   (seg_type seg))
                        (first :: body) body
  = removelast (position <$> first :: body).
Proof.
  set (f := λ previous seg : segment,
              Segment (seg_x previous) (seg_y previous) (seg_type seg)).
  revert first. induction body as [|second body IH]; intros first; [done|].
  change (zip_with f (first :: second :: body) (second :: body))
    with (f first second :: zip_with f (second :: body) body).
  rewrite fmap_cons, IH. done.
Qed.

(** X13.  [moveSegments] moves a snake as a chain: the head goes to the
    cell [(dx, dy)] further, every other segment goes to the cell the
    segment before it had, so the cells after the move are the new cell of
    the head followed by the old cells without the last; and each segment
    keeps its type. *)
Theorem moveSegments_chain first body dx dy :
  position <$> moveSegments (first :: body) dx dy
  = (seg_x first + dx, seg_y first + dy)%Z
    :: removelast (position <$> first :: body) ∧
  seg_type <$> moveSegments (first :: body) dx dy
  = seg_type <$> first :: body.
Proof.
  split; [|apply moveSegments_types].
  unfold moveSegments. rewrite fmap_cons. f_equal. apply zip_with_positions.
Qed.

(** A number less than a half away from a step of the grid is rounded
    to that step. *)
Lemma round_step (d : Z) (q : Q) :
  inject_Z d - (1 # 2) <= q → q < inject_Z d + (1 # 2) → round q = d.
Proof.
  intros Hlo Hhi. unfold round.
  apply SpatialHashSpec.Qfloor_eq_iff. rewrite inject_Z_plus.
  change (inject_Z 1) with 1. split; lra.
Qed.

(** X14.  A living snake that is not boosting moves exactly one cell in
    its buffered direction at each [update], whatever force was
    accumulated, as long as each component of the force is between -1.5
    and 1.5, as the sum of three clamped forces is: the force is consumed
    without any effect on the move.  The two numbers that are rounded
    stay so far from a half that an error of up to 0.01 in computing
    them, far more than the rounding of doubles, gives the same cell. *)
Theorem update_moves_one_cell s deltaTime :
  reachable s → alive s = true → boostActive s = false →
  - (3 # 2) <= fst (gravitationalForce s) →
  fst (gravitationalForce s) <= 3 # 2 →
  - (3 # 2) <= snd (gravitationalForce s) →
  snd (gravitationalForce s) <= 3 # 2 →
  (∃ first,
     getHead s = Some first ∧
     getHead (update s deltaTime)
     = Some (Segment (seg_x first + fst (nextDirection s))
                     (seg_y first + snd (nextDirection s)) head) ∧
     direction (update s deltaTime) = nextDirection s ∧
     gravitationalForce (update s deltaTime) = (0, 0)) ∧
  (∀ errorX errorY,
     - (1 # 100) <= errorX → errorX <= 1 # 100 →
     - (1 # 100) <= errorY → errorY <= 1 # 100 →
     round (inject_Z (fst (nextDirection s)) * speed s
            + fst (gravitationalForce s) * 0.3 + errorX)
     = fst (nextDirection s) ∧
     round (inject_Z (snd (nextDirection s)) * speed s
            + snd (gravitationalForce s) * 0.3 + errorY)
     = snd (nextDirection s)).
Proof.
  intros Hreach Halive Hboost Hx1 Hx2 Hy1 Hy2.
  destruct (wellFormed_reachable s Hreach)
    as [(first & body & Hsegs & Hfirst) _].
  destruct (coherent_reachable s Hreach) as (_ & _ & Hspeed).
  specialize (Hspeed Hboost).
  assert (Hround : ∀ (d : Z) (force error : Q),
            - (3 # 2) <= force → force <= 3 # 2 →
            - (1 # 100) <= error → error <= 1 # 100 →
            round (inject_Z d * speed s + force * 0.3 + error) = d).
  { intros d force error Hf1 Hf2 He1 He2. apply round_step; rewrite Hspeed; lra. }
  split.
  - exists first. unfold getHead, update. rewrite Halive, Hsegs. simpl.
    split; [done|].
    rewrite (round_step (fst (nextDirection s))),
            (round_step (snd (nextDirection s)))
      by (rewrite Hspeed; lra).
    rewrite Hfirst. by destruct (Qlt_le_dec 0 (invulnerabilityTime s)).
  - intros errorX errorY Hex1 Hex2 Hey1 Hey2. split; by apply Hround.
Qed.

Lemma update_moves_one_cell_witness :
  let s := applyGravitationalForce
             (setDirection (new 3 4 player) "up") 1.5 (-1.5) in
  getHead s = Some (Segment 3 4 head) ∧
  getHead (update s 0.2) = Some (Segment 3 3 head).
Proof.
  destruct (update_moves_one_cell
              (applyGravitationalForce
                 (setDirection (new 3 4 player) "up") 1.5 (-1.5)) 0.2)
    as [(first & Hfirst & Hmoved & _) _].
  - apply reach_applyGravitationalForce, reach_setDirection, reach_new.
  - reflexivity.
  - reflexivity.
  - vm_compute. discriminate.
  - vm_compute. discriminate.
  - vm_compute. discriminate.
  - vm_compute. discriminate.
  - injection Hfirst as <-. split; [reflexivity|exact Hmoved].
Defined.

(** *** Growing and losing armor *)

Lemma removeLastArmored_snoc body seg :
  seg_type seg = armored → removeLastArmored (body ++ [seg]) = Some body.
Proof.
  intros Hseg. induction body as [|a body IH]; simpl.
  - by rewrite bool_decide_eq_true_2.
  - by rewrite IH.
Qed.

Lemma updateSegmentEffects_segments s :
  segments (updateSegmentEffects s) = segments s.
Proof. done. Qed.

(** X16.  For a living snake in a reachable state, growing an armored
    segment and then losing one armored segment gives back the state
    before: the segment lost is the one just grown. *)
Theorem grow_armored_removeArmoredSegment s :
  reachable s → alive s = true →
  removeArmoredSegment (grow s armored) = s.
Proof.
  intros Hreach Halive.
  destruct (wellFormed_reachable s Hreach)
    as [(first & body & Hsegs & Hfirst) _].
  destruct (coherent_reachable s Hreach) as (Heff & _ & _).
  unfold grow. rewrite Halive. simpl.
  destruct (last (segments s)) as [tail|] eqn:Htail.
  2:{ rewrite Hsegs in Htail. by rewrite last_cons in Htail;
        destruct (last body). }
  unfold removeArmoredSegment. rewrite updateSegmentEffects_segments. simpl.
  rewrite Hsegs. simpl. rewrite removeLastArmored_snoc by done.
  assert (Hmap :
    activePowerUps
      (updateSegmentEffects
         (setSegments
            (updateSegmentEffects
               (setSegments s ((first :: body)
                               ++ [Segment (seg_x tail) (seg_y tail) armored])))
            (first :: body)))
    = activePowerUps s).
  { rewrite (updateSegmentEffects_effectsOf _ _
               ((first :: body) ++ [Segment (seg_x tail) (seg_y tail) armored])).
    - by rewrite Heff, Hsegs.
    - by apply (updateSegmentEffects_effectsOf _ _ (segments s)). }
  destruct s. simpl in *. unfold updateSegmentEffects, setSegments in *.
  simpl in *. subst. by rewrite Hmap.
Qed.

Lemma grow_armored_removeArmoredSegment_witness :
  removeArmoredSegment (grow (grow (new 3 4 player) magnetic) armored)
  = grow (new 3 4 player) magnetic.
Proof.
  apply (grow_armored_removeArmoredSegment (grow (new 3 4 player) magnetic)).
  - apply reach_grow, reach_new.
  - reflexivity.
Defined.

End SnakeSpec.

(** ** GameEngine: properties *)

Module GameEngineSpec.
Import GameEngine.
Local Open Scope Z_scope.

Lemma indexOf_Some l x i : indexOf l x = Some i → l !! i = Some x.
Proof.
  revert i. induction l as [|y l IH]; intros i; simpl; [done|].
  case_decide as Hy; [by intros [= <-]; subst|].
  destruct (indexOf l x) as [j|]; simpl; [|done].
  intros [= <-]. by apply IH.
Qed.

Lemma indexOf_None l x : indexOf l x = None → x ∉ l.
Proof.
  induction l as [|y l IH]; simpl; [intros _; apply not_elem_of_nil|].
  case_decide as Hy; [done|].
  destruct (indexOf l x); simpl; [done|]. intros _.
  apply not_elem_of_cons. split; [done|by apply IH].
Qed.

Lemma NoDup_delete_lookup (l : list nat) i x :
  NoDup l → l !! i = Some x → (x ∉ delete i l) ∧ NoDup (delete i l).
Proof.
  intros Hnd Hi. rewrite delete_take_drop. apply NoDup_cons.
  rewrite <- (take_drop_middle l i x Hi) in Hnd.
  by rewrite <- Permutation_middle in Hnd.
Qed.

Lemma elem_of_delete (l : list nat) i y : y ∈ delete i l → y ∈ l.
Proof. intros Hy. eapply elem_of_sublist; [done|apply sublist_delete]. Qed.

(** An enemy that loses a collision leaves the list of enemies; nothing
    else but the score and the sounds changes. *)
Lemma handleSnakeCollision_enemy e x sn :
  snakes e !! x = Some sn → Snake.type sn = Snake.enemy →
  let e' := handleSnakeCollision e x in
  snakes e' = snakes e ∧ lives e' = lives e ∧ gameState e' = gameState e ∧
  playerSnake e' = playerSnake e ∧ gridWidth e' = gridWidth e ∧
  gridHeight e' = gridHeight e ∧
  (∀ y, y ∈ enemies e' → y ∈ enemies e) ∧
  (NoDup (enemies e) → (x ∉ enemies e') ∧ NoDup (enemies e')).
Proof.
  intros Hx Hty. unfold handleSnakeCollision. rewrite Hx, Hty.
  destruct (indexOf (enemies e) x) as [index|] eqn:Hindex; simpl.
  - repeat split; try done.
    + intros y. apply elem_of_delete.
    + by eapply NoDup_delete_lookup, indexOf_Some.
    + by eapply NoDup_delete_lookup, indexOf_Some.
  - repeat split; try done. by apply indexOf_None.
Qed.

(** The player that loses a collision loses a life; the game stops at no
    life left, and otherwise the player starts again. *)
Lemma handleSnakeCollision_player e sn :
  snakes e !! playerSnake e = Some sn → Snake.type sn = Snake.player →
  let e' := handleSnakeCollision e (playerSnake e) in
  lives e' = lives e - 1 ∧ enemies e' = enemies e ∧
  playerSnake e' = playerSnake e ∧ gridWidth e' = gridWidth e ∧
  gridHeight e' = gridHeight e ∧
  (∀ y, y ≠ playerSnake e → snakes e' !! y = snakes e !! y) ∧
  (lives e' ≤ 0 → gameState e' = stopped ∧ snakes e' = snakes e) ∧
  (0 < lives e' →
   snakes e' !! playerSnake e =
     Some (Snake.setInvulnerable
             (Snake.reset sn (gridWidth e `div` 2) (gridHeight e `div` 2))
             2000)).
Proof.
  intros Hx Hty. unfold handleSnakeCollision. rewrite Hx, Hty. simpl.
  destruct (lives e - 1 <=? 0) eqn:Hlives; simpl.
  - apply Z.leb_le in Hlives. repeat split; try done. lia.
  - apply Z.leb_gt in Hlives. unfold respawnPlayer. simpl. rewrite Hx. simpl.
    repeat split; try done.
    + intros y Hy. by rewrite lookup_insert_ne.
    + lia.
    + lia.
    + intros _. by rewrite lookup_insert_eq.
Qed.

(** One call of [handleSnakeCollision] on a living snake. *)
Lemma handleSnakeCollision_lost e x sn :
  consistent e → snakes e !! x = Some sn → Snake.alive sn = true →
  let e' := handleSnakeCollision e x in
  lostCollision e e' x ∧ consistent e' ∧
  playerSnake e' = playerSnake e ∧ gridWidth e' = gridWidth e ∧
  gridHeight e' = gridHeight e ∧
  (∀ y, y ∈ enemies e' → y ∈ enemies e) ∧
  (∀ y, y ≠ x → snakes e' !! y = snakes e !! y) ∧
  (x ≠ playerSnake e →
   lives e' = lives e ∧ gameState e' = gameState e) ∧
  (∃ sn', snakes e' !! x = Some sn' ∧ Snake.alive sn' = true).
Proof.
  intros [Hty Hnd] Hx Halive e'. unfold lostCollision.
  destruct (decide (x = playerSnake e)) as [->|Hne].
  - assert (Hplayer : Snake.type sn = Snake.player) by by apply (Hty _ _ Hx).
    destruct (handleSnakeCollision_player e sn Hx Hplayer)
      as (Hlives & Hen & Hp & Hw & Hh & Hother & Hstop & Hrespawn).
    fold e' in Hlives, Hen, Hp, Hw, Hh, Hother, Hstop, Hrespawn.
    split; [|split; [|repeat split]]; try done.
    + split; [done|]. split; [by intros [? _]%Hstop|].
      intros Hpos%Hrespawn. eexists. by split.
    + split; [|by rewrite Hen]. intros ref sn' Href. rewrite Hp.
      destruct (decide (ref = playerSnake e)) as [->|Hne].
      * split; [done|]. intros _.
        destruct (Z_lt_le_dec 0 (lives e')) as [Hpos|Hnpos].
        -- rewrite (Hrespawn Hpos) in Href. by injection Href as <-.
        -- destruct (Hstop Hnpos) as [_ Hsame]. rewrite Hsame, Hx in Href.
           by injection Href as <-.
      * rewrite (Hother _ Hne) in Href. apply (Hty _ _ Href).
    + by rewrite Hen.
    + destruct (Z_lt_le_dec 0 (lives e')) as [Hpos|Hnpos].
      * rewrite (Hrespawn Hpos). by eexists.
      * destruct (Hstop Hnpos) as [_ Hsame]. rewrite Hsame, Hx. by eexists.
  - assert (Henemy : Snake.type sn = Snake.enemy).
    { destruct (Snake.type sn) eqn:Htype; [|done].
      destruct Hne. by apply (Hty _ _ Hx). }
    destruct (handleSnakeCollision_enemy e x sn Hx Henemy)
      as (Hsn & Hlives & Hst & Hp & Hw & Hh & Hsub & Hgone).
    fold e' in Hsn, Hlives, Hst, Hp, Hw, Hh, Hsub, Hgone.
    destruct (Hgone Hnd) as [Hnotin Hnd'].
    split; [done|]. split; [|repeat split]; try done.
    + split; [|done]. intros ref sn'. rewrite Hsn, Hp. apply Hty.
    + intros y _. by rewrite Hsn.
    + rewrite Hsn, Hx. by eexists.
Qed.

(** What was lost stays lost while lives, state and the player are kept
    and no enemy comes back. *)
Lemma lostCollision_frame e0 e1 e2 x :
  lostCollision e0 e1 x →
  (x = playerSnake e0 →
   lives e2 = lives e1 ∧ gameState e2 = gameState e1 ∧
   snakes e2 !! x = snakes e1 !! x) →
  (∀ y, y ∈ enemies e2 → y ∈ enemies e1) →
  lostCollision e0 e2 x.
Proof.
  unfold lostCollision. case_decide as Hx.
  - intros (Hlives & Hstop & Hrespawn) Hkeep _.
    destruct (Hkeep Hx) as (-> & -> & ->). done.
  - intros Hnotin _ Hsub Hin. by apply Hnotin, Hsub.
Qed.

Lemma lostCollision_rebase e0 e1 e2 x :
  lostCollision e1 e2 x →
  playerSnake e1 = playerSnake e0 → gridWidth e1 = gridWidth e0 →
  gridHeight e1 = gridHeight e0 →
  (x = playerSnake e0 → lives e1 = lives e0) →
  lostCollision e0 e2 x.
Proof.
  unfold lostCollision. intros Hlost Hp Hw Hh Hlives.
  rewrite Hp, Hw, Hh in Hlost.
  case_decide as Hx; [|done]. by rewrite <- (Hlives Hx).
Qed.

Lemma growSnake_frame e x :
  let e' := growSnake e x in
  lives e' = lives e ∧ gameState e' = gameState e ∧
  enemies e' = enemies e ∧ ∀ y, y ≠ x → snakes e' !! y = snakes e !! y.
Proof.
  unfold growSnake. destruct (snakes e !! x); simpl; [|done].
  repeat split. intros y Hy. by rewrite lookup_insert_ne.
Qed.

Lemma growSnake_grows e x sn :
  snakes e !! x = Some sn → Snake.alive sn = true →
  Snake.segments sn ≠ [] →
  let e' := growSnake e x in
  segmentsLength e' x = S (length (Snake.segments sn)) ∧ isAlive e' x = true.
Proof.
  intros Hx Halive Hsegs. unfold growSnake, segmentsLength, isAlive.
  rewrite Hx. simpl. rewrite lookup_insert_eq.
  unfold Snake.grow. rewrite Halive. simpl.
  destruct (last (Snake.segments sn)) as [tail|] eqn:Hlast.
  - simpl. rewrite length_app. simpl. split; [lia|done].
  - by apply last_None in Hlast.
Qed.

(** The smaller snake loses and the larger one grows. *)
Lemma larger_snake_wins e winner loser sw sl :
  consistent e →
  snakes e !! winner = Some sw → snakes e !! loser = Some sl →
  winner ≠ loser → Snake.alive sw = true → Snake.alive sl = true →
  (length (Snake.segments sl) < length (Snake.segments sw))%nat →
  let e' := growSnake (handleSnakeCollision e loser) winner in
  isAlive e' winner = true ∧ isAlive e' loser = true ∧
  lostCollision e e' loser ∧
  segmentsLength e' winner = S (length (Snake.segments sw)).
Proof.
  intros Hcons Hw Hl Hne Haw Hal Hlen e'.
  destruct (handleSnakeCollision_lost e loser sl Hcons Hl Hal)
    as (Hlost & _ & Hp & _ & _ & Hsub & Hother & _ & sl' & Hl' & Hal').
  set (e1 := handleSnakeCollision e loser) in *.
  assert (Hw1 : snakes e1 !! winner = Some sw) by by rewrite Hother.
  assert (Hsegs : Snake.segments sw ≠ []).
  { intros Hnil. rewrite Hnil in Hlen. simpl in Hlen. lia. }
  destruct (growSnake_grows e1 winner sw Hw1 Haw Hsegs) as [Hgrown Halive].
  destruct (growSnake_frame e1 winner) as (Hlives & Hstate & Hen & Hsn).
  fold e' in Hgrown, Halive, Hlives, Hstate, Hen, Hsn.
  assert (Hl2 : snakes e' !! loser = snakes e1 !! loser) by by apply Hsn.
  split; [done|]. split; [|split; [|done]].
  - unfold isAlive. by rewrite Hl2, Hl'.
  - apply (lostCollision_frame e e1 e'); [done|by intros _|].
    intros y. by rewrite Hen.
Qed.

(** One call of [handleSnakeVsSnakeCollision] on two living snakes: no
    [alive] flag is set to [false]; with equal segment counts both snakes
    lose the collision, with different counts the smaller one loses and
    the larger one has one segment more. *)
Lemma handleSnakeVsSnakeCollision_lost e snake1 snake2 s1 s2 :
  consistent e →
  snakes e !! snake1 = Some s1 → snakes e !! snake2 = Some s2 →
  snake1 ≠ snake2 → Snake.alive s1 = true → Snake.alive s2 = true →
  let e' := handleSnakeVsSnakeCollision e snake1 snake2 in
  let n1 := length (Snake.segments s1) in
  let n2 := length (Snake.segments s2) in
  isAlive e' snake1 = true ∧ isAlive e' snake2 = true ∧
  (n1 = n2 → lostCollision e e' snake1 ∧ lostCollision e e' snake2) ∧
  ((n2 < n1)%nat →
   lostCollision e e' snake2 ∧ segmentsLength e' snake1 = S n1) ∧
  ((n1 < n2)%nat →
   lostCollision e e' snake1 ∧ segmentsLength e' snake2 = S n2).
Proof.
  intros Hcons H1 H2 Hne Ha1 Ha2 e' n1 n2.
  unfold e', handleSnakeVsSnakeCollision, segmentsLength. rewrite H1, H2.
  fold n1 n2.
  destruct (n2 <? n1)%nat eqn:Hlt21.
  { apply Nat.ltb_lt in Hlt21.
    destruct (larger_snake_wins e snake1 snake2 s1 s2) as (? & ? & ? & ?);
      try done.
    repeat split; try done; lia. }
  apply Nat.ltb_ge in Hlt21.
  destruct (n1 <? n2)%nat eqn:Hlt12.
  { apply Nat.ltb_lt in Hlt12.
    destruct (larger_snake_wins e snake2 snake1 s2 s1) as (? & ? & ? & ?);
      try done.
    repeat split; try done; lia. }
  apply Nat.ltb_ge in Hlt12.
  destruct (handleSnakeCollision_lost e snake1 s1 Hcons H1 Ha1)
    as (Hlost1 & Hcons1 & Hp1 & Hw1 & Hh1 & Hsub1 & Hother1 & Hkeep1
        & s1' & Hs1' & Ha1').
  set (e1 := handleSnakeCollision e snake1) in *.
  assert (H21 : snakes e1 !! snake2 = Some s2) by by rewrite Hother1.
  destruct (handleSnakeCollision_lost e1 snake2 s2 Hcons1 H21 Ha2)
    as (Hlost2 & _ & Hp2 & _ & _ & Hsub2 & Hother2 & Hkeep2 & s2' & Hs2' & Ha2').
  set (e2 := handleSnakeCollision e1 snake2) in *.
  assert (H12 : snakes e2 !! snake1 = snakes e1 !! snake1) by by apply Hother2.
  split; [unfold isAlive; by rewrite H12, Hs1'|].
  split; [unfold isAlive; by rewrite Hs2'|].
  split; [|split; intros; lia].
  intros _. split.
  - apply (lostCollision_frame e e1 e2); [done| |done].
    intros Hplayer. assert (snake2 ≠ playerSnake e1) as Hnp by congruence.
    destruct (Hkeep2 Hnp) as [-> ->]. done.
  - apply (lostCollision_rebase e e1 e2); try done.
    intros Hplayer. assert (snake1 ≠ playerSnake e) as Hnp by congruence.
    by destruct (Hkeep1 Hnp) as [-> _].
Qed.

Lemma headOnEngine_consistent : consistent headOnEngine.
Proof.
  split.
  - intros ref sn. unfold headOnEngine. simpl.
    destruct (decide (ref = 0%nat)) as [->|H0];
      [rewrite lookup_insert_eq; by intros [= <-]|].
    rewrite lookup_insert_ne by done.
    destruct (decide (ref = 1%nat)) as [->|H1];
      [rewrite lookup_insert_eq; by intros [= <-]|].
    rewrite lookup_insert_ne by done.
    destruct (decide (ref = 2%nat)) as [->|H2];
      [rewrite lookup_insert_eq; by intros [= <-]|].
    by rewrite lookup_insert_ne.
  - simpl. apply NoDup_cons. split; [set_solver|]. apply NoDup_singleton.
Defined.

(** *** A whole pass of collisions between snakes *)

Lemma collisionOutcome_refl e : collisionOutcome e e.
Proof. unfold collisionOutcome. repeat split; try done; lia. Qed.

Lemma collisionOutcome_trans e1 e2 e3 :
  collisionOutcome e1 e2 → collisionOutcome e2 e3 → collisionOutcome e1 e3.
Proof.
  intros (Hs1 & Hsub1 & Hl1 & Hp1 & Hw1 & Hh1 & Ha1)
         (Hs2 & Hsub2 & Hl2 & Hp2 & Hw2 & Hh2 & Ha2).
  unfold collisionOutcome. repeat split; try congruence; try lia.
  - by etrans.
  - intros snake Halive. by apply Ha2, Ha1.
Qed.

Lemma alive_grow sn kind : Snake.alive (Snake.grow sn kind) = Snake.alive sn.
Proof.
  unfold Snake.grow. destruct (negb (Snake.alive sn)); [done|].
  by destruct (last (Snake.segments sn)).
Qed.

Lemma collisionOutcome_growSnake e snake : collisionOutcome e (growSnake e snake).
Proof.
  unfold growSnake. destruct (snakes e !! snake) as [sn|] eqn:Hsn;
    [|apply collisionOutcome_refl].
  unfold collisionOutcome. simpl. repeat split; try done; try lia.
  intros ref. unfold isAlive. simpl.
  destruct (decide (ref = snake)) as [->|Hne].
  - by rewrite lookup_insert_eq, Hsn, alive_grow.
  - by rewrite lookup_insert_ne.
Qed.

Lemma collisionOutcome_handleSnakeCollision e snake :
  collisionOutcome e (handleSnakeCollision e snake).
Proof.
  unfold handleSnakeCollision.
  destruct (snakes e !! snake) as [sn|] eqn:Hsn; [|apply collisionOutcome_refl].
  destruct (Snake.type sn).
  - simpl. destruct (lives e - 1 <=? 0).
    + unfold collisionOutcome. simpl. repeat split; try done; lia.
    + unfold respawnPlayer. simpl.
      destruct (snakes e !! playerSnake e) as [player|] eqn:Hplayer.
      * unfold collisionOutcome. simpl. repeat split; try done; try lia.
        intros ref. unfold isAlive. simpl.
        destruct (decide (ref = playerSnake e)) as [->|Hne].
        -- by rewrite lookup_insert_eq.
        -- by rewrite lookup_insert_ne.
      * unfold collisionOutcome. simpl. repeat split; try done; lia.
  - destruct (indexOf (enemies e) snake) as [index|] eqn:Hindex;
      [|apply collisionOutcome_refl].
    apply indexOf_Some in Hindex.
    unfold collisionOutcome. simpl.
    repeat split; try done; try apply sublist_delete.
    rewrite length_delete by by eexists.
    apply lookup_lt_Some in Hindex. lia.
Qed.

Lemma collisionOutcome_handleSnakeVsSnakeCollision e snake1 snake2 :
  collisionOutcome e (handleSnakeVsSnakeCollision e snake1 snake2).
Proof.
  unfold handleSnakeVsSnakeCollision.
  destruct (_ <? _)%nat; [|destruct (_ <? _)%nat].
  - eapply collisionOutcome_trans;
      [apply collisionOutcome_handleSnakeCollision
      |apply collisionOutcome_growSnake].
  - eapply collisionOutcome_trans;
      [apply collisionOutcome_handleSnakeCollision
      |apply collisionOutcome_growSnake].
  - eapply collisionOutcome_trans; apply collisionOutcome_handleSnakeCollision.
Qed.

Lemma collisionOutcome_foldl e (l : list (nat * nat)) :
  collisionOutcome e
    (foldl (λ e' '(snake1, snake2),
              if checkSnakeCollision e' snake1 snake2
              then handleSnakeVsSnakeCollision e' snake1 snake2 else e')
           e l).
Proof.
  revert e. induction l as [|[snake1 snake2] l IH]; intros e; cbn [foldl].
  - apply collisionOutcome_refl.
  - eapply collisionOutcome_trans; [|apply IH].
    destruct (checkSnakeCollision e snake1 snake2).
    + apply collisionOutcome_handleSnakeVsSnakeCollision.
    + apply collisionOutcome_refl.
Qed.

Lemma filter_all {A} (f : A → bool) (l : list A) :
  (∀ x, x ∈ l → f x = true) → List.filter f l = l.
Proof.
  induction l as [|a l IH]; intros Hall; [done|]. simpl.
  rewrite (Hall a) by by left. f_equal. apply IH. intros x Hx.
  apply Hall. by right.
Qed.

(** *** The pass that finds one collision *)

Lemma elem_of_pairs l a b : (a, b) ∈ pairs l → a ∈ l ∧ b ∈ l.
Proof.
  induction l as [|x rest IH]; simpl; [by intros ?%elem_of_nil|].
  intros [Hin|Hin]%elem_of_app.
  - apply list_elem_of_fmap in Hin as (y & [= -> ->] & Hy).
    split; [by left|by right].
  - destruct (IH Hin). split; by right.
Qed.

Lemma NoDup_pairs l : NoDup l → NoDup (pairs l).
Proof.
  induction 1 as [|x rest Hx Hrest IH]; simpl; [apply NoDup_nil_2|].
  apply NoDup_app. split; [|split; [|done]].
  - apply NoDup_fmap_2; [|done]. by intros y z [= ->].
  - intros [a b] (y & [= -> ->] & Hy)%list_elem_of_fmap Hin.
    by apply elem_of_pairs in Hin as [? _].
Qed.

Lemma pairs_distinct l a b : NoDup l → (a, b) ∈ pairs l → a ≠ b.
Proof.
  induction 1 as [|x rest Hx Hrest IH]; simpl; [by intros ?%elem_of_nil|].
  intros [Hin|Hin]%elem_of_app; [|by apply IH].
  apply list_elem_of_fmap in Hin as (y & [= -> ->] & Hy). by intros ->.
Qed.

Lemma checkSnakeVsSnakeCollisions_foldl e :
  checkSnakeVsSnakeCollisions e
  = foldl passStep e (pairs (playerSnake e :: enemies e)).
Proof.
  unfold checkSnakeVsSnakeCollisions. cbv zeta.
  generalize (pairs (playerSnake e :: enemies e)). intros l. revert e.
  induction l as [|[a b] l IH]; intros e; [done|]. cbn [foldl]. apply IH.
Qed.

(** The pairs that do not collide leave the engine as it is. *)
Lemma foldl_passStep_none e l :
  (∀ a b, (a, b) ∈ l → checkSnakeCollision e a b = false) →
  foldl passStep e l = e.
Proof.
  induction l as [|[a b] l IH]; intros Hnone; [done|]. cbn [foldl].
  unfold passStep at 2. cbn [fst snd]. rewrite (Hnone a b) by by left.
  apply IH. intros a' b' Hin. apply Hnone. by right.
Qed.

(** A pass that finds one collision only is one call of the handler. *)
Lemma one_collision_pass e snake1 snake2 :
  NoDup (playerSnake e :: enemies e) →
  (snake1, snake2) ∈ pairs (playerSnake e :: enemies e) →
  checkSnakeCollision e snake1 snake2 = true →
  onlyCollision e snake1 snake2 →
  checkSnakeVsSnakeCollisions e = handleSnakeVsSnakeCollision e snake1 snake2.
Proof.
  intros Hnd%NoDup_pairs Hin Hcheck Honly.
  rewrite checkSnakeVsSnakeCollisions_foldl.
  unfold onlyCollision in Honly.
  destruct (list_elem_of_split _ _ Hin) as (l1 & l2 & Hsplit).
  rewrite Hsplit in Hnd, Honly. rewrite Hsplit.
  apply NoDup_app in Hnd as (_ & Hdisj & [Hnot2 _]%NoDup_cons).
  rewrite foldl_app. cbn [foldl].
  rewrite (foldl_passStep_none e l1).
  2:{ intros a b Hab. apply Honly.
      - apply elem_of_app. by left.
      - intros [= -> ->]. apply (Hdisj _ Hab). by left. }
  unfold passStep at 2. cbn [fst snd]. rewrite Hcheck.
  apply foldl_passStep_none. intros a b Hab. apply Honly.
  - apply elem_of_app. right. by right.
  - by intros [= -> ->].
Qed.

Lemma elem_of_delete_ne (l : list nat) i x y :
  l !! i = Some x → y ∈ l → y ≠ x → y ∈ delete i l.
Proof.
  intros Hi Hy Hne. rewrite delete_take_drop.
  rewrite <- (take_drop_middle l i x Hi) in Hy.
  apply elem_of_app in Hy as [Hy|Hy]; apply elem_of_app; [by left|].
  apply elem_of_cons in Hy as [->|Hy]; [done|by right].
Qed.

(** The snake that wins keeps its place in the engine and has grown. *)
Lemma winner_spared e winner loser sw sl :
  consistent e →
  snakes e !! winner = Some sw → snakes e !! loser = Some sl →
  winner ≠ loser → winner = playerSnake e ∨ winner ∈ enemies e →
  let e' := growSnake (handleSnakeCollision e loser) winner in
  spared e e' winner ∧
  snakes e' !! winner = Some (Snake.grow sw Snake.normal).
Proof.
  intros [Hty Hnd] Hw Hl Hne Hin e'.
  set (e1 := handleSnakeCollision e loser) in *.
  assert (He1 : snakes e1 !! winner = Some sw ∧
                (winner = playerSnake e →
                 lives e1 = lives e ∧ gameState e1 = gameState e) ∧
                (winner ≠ playerSnake e → winner ∈ enemies e1)).
  { unfold e1, handleSnakeCollision. rewrite Hl.
    destruct (Snake.type sl) eqn:Htype.
    - assert (Hplayer : loser = playerSnake e) by by apply (Hty _ _ Hl).
      destruct Hin as [Hp|Hin]; [congruence|].
      assert (winner ≠ playerSnake e) by congruence.
      cbn [lives playSound]. destruct (lives e - 1 <=? 0).
      + simpl. by rewrite Hw.
      + unfold respawnPlayer. cbn [snakes playSound playerSnake gridWidth gridHeight].
        rewrite <- Hplayer, Hl. simpl.
        by rewrite lookup_insert_ne.
    - assert (Hnp : loser ≠ playerSnake e).
      { intros Hp. apply (Hty _ _ Hl) in Hp. congruence. }
      destruct (indexOf (enemies e) loser) as [index|] eqn:Hindex; simpl.
      + split; [done|]. split; [done|]. intros Hwp.
        destruct Hin as [?|Hin]; [done|].
        eapply elem_of_delete_ne; [by apply indexOf_Some|done|done].
      + split; [done|]. split; [done|]. intros Hwp. by destruct Hin. }
  destruct He1 as (Hw1 & Hplayer & Henemy).
  assert (Hp1 : playerSnake e1 = playerSnake e).
  { destruct (collisionOutcome_handleSnakeCollision e loser)
      as (_ & _ & _ & ? & _). done. }
  unfold e', growSnake, spared. rewrite Hw1. simpl.
  split; [|by rewrite lookup_insert_eq].
  case_decide as Hwp; [by apply Hplayer|by apply Henemy].
Qed.

(** Two snakes whose heads are on the same cell collide, whichever is
    listed first. *)
Lemma head_to_head_detected e snake1 snake2 s1 s2 h1 h2 :
  snakes e !! snake1 = Some s1 → snakes e !! snake2 = Some s2 →
  Snake.getHead s1 = Some h1 → Snake.getHead s2 = Some h2 →
  Snake.position h1 = Snake.position h2 →
  checkSnakeCollision e snake1 snake2 = true.
Proof.
  intros H1 H2 Hh1 Hh2 [= Hx Hy]. unfold checkSnakeCollision.
  rewrite H1, H2, Hh1. unfold Snake.getHead in Hh2.
  destruct (Snake.segments s2) as [|first body]; [done|].
  injection Hh2 as ->. simpl. rewrite Hx, Hy, !Z.eqb_refl. done.
Qed.

(** C4, as the code has it.  When the collision pass finds two living
    snakes colliding, the head of the one listed first (the player, then
    the enemies) being on a segment of the other, as it is when the two
    heads are on one cell, and finds no other collision, then no [alive]
    flag is set to [false].  With equal segment counts both snakes lose
    the collision: an enemy is taken out of the list of enemies, the
    player loses a life and starts again invulnerable from the middle of
    the grid, or the game stops at no life left.  With different counts
    only the smaller snake loses; the larger one is spared (an enemy stays
    in the list, the player keeps lives and game state) and has grown by
    one segment. *)
Theorem collision_pass_spec e snake1 snake2 s1 s2 :
  consistent e → playerSnake e ∉ enemies e →
  (snake1, snake2) ∈ pairs (playerSnake e :: enemies e) →
  snakes e !! snake1 = Some s1 → snakes e !! snake2 = Some s2 →
  Snake.alive s1 = true → Snake.alive s2 = true →
  checkSnakeCollision e snake1 snake2 = true →
  onlyCollision e snake1 snake2 →
  let e' := checkSnakeVsSnakeCollisions e in
  let n1 := length (Snake.segments s1) in
  let n2 := length (Snake.segments s2) in
  (∀ snake, isAlive e snake = true → isAlive e' snake = true) ∧
  (n1 = n2 → lostCollision e e' snake1 ∧ lostCollision e e' snake2) ∧
  ((n2 < n1)%nat →
   lostCollision e e' snake2 ∧ spared e e' snake1 ∧
   snakes e' !! snake1 = Some (Snake.grow s1 Snake.normal) ∧
   segmentsLength e' snake1 = S n1) ∧
  ((n1 < n2)%nat →
   lostCollision e e' snake1 ∧ spared e e' snake2 ∧
   snakes e' !! snake2 = Some (Snake.grow s2 Snake.normal) ∧
   segmentsLength e' snake2 = S n2).
Proof.
  intros Hcons Hplayer Hin H1 H2 Ha1 Ha2 Hcheck Honly e' n1 n2.
  assert (Hnd : NoDup (playerSnake e :: enemies e)).
  { apply NoDup_cons. split; [done|]. by destruct Hcons. }
  pose proof (pairs_distinct _ _ _ Hnd Hin) as Hne.
  destruct (elem_of_pairs _ _ _ Hin) as [Hin1%elem_of_cons Hin2%elem_of_cons].
  unfold e'. rewrite (one_collision_pass e snake1 snake2 Hnd Hin Hcheck Honly).
  destruct (handleSnakeVsSnakeCollision_lost e snake1 snake2 s1 s2
              Hcons H1 H2 Hne Ha1 Ha2)
    as (_ & _ & Hequal & Hfirst & Hsecond).
  fold n1 n2 in Hequal, Hfirst, Hsecond.
  split.
  { by destruct (collisionOutcome_handleSnakeVsSnakeCollision e snake1 snake2)
      as (_ & _ & _ & _ & _ & _ & ?). }
  split; [done|]. split.
  - intros Hlt. destruct (Hfirst Hlt) as [Hlost Hlen].
    assert (Heq : handleSnakeVsSnakeCollision e snake1 snake2
                  = growSnake (handleSnakeCollision e snake2) snake1).
    { unfold handleSnakeVsSnakeCollision, segmentsLength. rewrite H1, H2.
      fold n1 n2. by rewrite (proj2 (Nat.ltb_lt n2 n1) Hlt). }
    destruct (winner_spared e snake1 snake2 s1 s2) as [Hspared Hgrown];
      try done.
    rewrite <- Heq in Hspared, Hgrown. done.
  - intros Hlt. destruct (Hsecond Hlt) as [Hlost Hlen].
    assert (Heq : handleSnakeVsSnakeCollision e snake1 snake2
                  = growSnake (handleSnakeCollision e snake1) snake2).
    { unfold handleSnakeVsSnakeCollision, segmentsLength. rewrite H1, H2.
      fold n1 n2. rewrite (proj2 (Nat.ltb_ge n2 n1)) by lia.
      by rewrite (proj2 (Nat.ltb_lt n1 n2) Hlt). }
    destruct (winner_spared e snake2 snake1 s2 s1) as [Hspared Hgrown];
      try done.
    rewrite <- Heq in Hspared, Hgrown. done.
Qed.

Lemma type_grow sn kind : Snake.type (Snake.grow sn kind) = Snake.type sn.
Proof.
  unfold Snake.grow. destruct (negb (Snake.alive sn)); [done|].
  by destruct (last (Snake.segments sn)).
Qed.

Lemma consistent_growSnake e snake :
  consistent e → consistent (growSnake e snake).
Proof.
  intros [Hty Hnd]. unfold growSnake.
  destruct (snakes e !! snake) as [sn|] eqn:Hsn; [|done].
  split; [|done]. intros ref sn'. simpl.
  destruct (decide (ref = snake)) as [->|Hne].
  - rewrite lookup_insert_eq. intros [= <-]. rewrite type_grow. by apply Hty.
  - rewrite lookup_insert_ne by done. apply Hty.
Qed.

Lemma headOnEngine_onlyCollision : onlyCollision headOnEngine 1%nat 2%nat.
Proof.
  intros a b Hin Hne. simpl in Hin.
  repeat (apply elem_of_cons in Hin as [[= -> ->]|Hin];
          [try done; by vm_compute|]).
  by apply elem_of_nil in Hin.
Qed.

Lemma unequalEngine_onlyCollision : onlyCollision unequalEngine 1%nat 2%nat.
Proof.
  intros a b Hin Hne. simpl in Hin.
  repeat (apply elem_of_cons in Hin as [[= -> ->]|Hin];
          [try done; by vm_compute|]).
  by apply elem_of_nil in Hin.
Qed.

(** C4 on two enemies that meet head to head, both of one segment, and
    on the same two after the first has grown to two segments. *)
Lemma collision_pass_spec_witness :
  (let e' := checkSnakeVsSnakeCollisions headOnEngine in
   lostCollision headOnEngine e' 1%nat ∧ lostCollision headOnEngine e' 2%nat) ∧
  (let e' := checkSnakeVsSnakeCollisions unequalEngine in
   lostCollision unequalEngine e' 2%nat ∧ spared unequalEngine e' 1%nat ∧
   segmentsLength e' 1%nat = 3%nat).
Proof.
  split.
  - destruct (collision_pass_spec headOnEngine 1%nat 2%nat
                (Snake.new 3 3 Snake.enemy) (Snake.new 3 3 Snake.enemy))
      as (_ & Hequal & _).
    + apply headOnEngine_consistent.
    + simpl. set_solver.
    + simpl. set_solver.
    + reflexivity.
    + reflexivity.
    + reflexivity.
    + reflexivity.
    + reflexivity.
    + apply headOnEngine_onlyCollision.
    + apply Hequal. reflexivity.
  - destruct (collision_pass_spec unequalEngine 1%nat 2%nat
                (Snake.grow (Snake.new 3 3 Snake.enemy) Snake.normal)
                (Snake.new 3 3 Snake.enemy))
      as (_ & _ & Hlarger & _).
    + apply consistent_growSnake, headOnEngine_consistent.
    + simpl. set_solver.
    + simpl. set_solver.
    + reflexivity.
    + reflexivity.
    + reflexivity.
    + reflexivity.
    + reflexivity.
    + apply unequalEngine_onlyCollision.
    + destruct Hlarger as (Hlost & Hspared & _ & Hlength); [simpl; lia|].
      done.
Defined.

(** C4 does not hold as stated: after the collision pass both enemies
    that met head to head with equal segment counts still have
    [alive = true]; they are only taken out of the list of enemies. *)
Lemma head_on_collision_keeps_alive :
  let e' := checkSnakeVsSnakeCollisions headOnEngine in
  checkSnakeCollision headOnEngine 1%nat 2%nat = true ∧
  segmentsLength headOnEngine 1%nat = segmentsLength headOnEngine 2%nat ∧
  isAlive headOnEngine 1%nat = true ∧ isAlive headOnEngine 2%nat = true ∧
  isAlive e' 1%nat = true ∧ isAlive e' 2%nat = true ∧
  enemies e' = [].
Proof. vm_compute. repeat split. Qed.

(** The pass tests each pair once, the head of the snake listed first
    against the segments of the other.  When only the head of the snake
    listed later is on the other snake, here the head of the enemy on the
    second segment of the player, the pass handles nothing. *)
Lemma later_head_not_tested :
  (λ sn, Snake.position <$> Snake.segments sn) <$> snakes bodyHitEngine !! 0%nat
  = Some [(5, 5); (4, 5)] ∧
  (λ sn, Snake.position <$> Snake.segments sn) <$> snakes bodyHitEngine !! 1%nat
  = Some [(4, 5)] ∧
  checkSnakeCollision bodyHitEngine 1%nat 0%nat = true ∧
  checkSnakeCollision bodyHitEngine 0%nat 1%nat = false ∧
  checkSnakeVsSnakeCollisions bodyHitEngine = bodyHitEngine.
Proof. repeat split; reflexivity. Qed.

(** X22.  Over a whole pass of [checkSnakeVsSnakeCollisions], whatever
    the snakes and their positions: the score grows by exactly 50 for each
    enemy that leaves the list of enemies, the enemies left are among
    those before, in the same order, no life is gained, and every snake
    that was alive still is.  So when the enemies listed were alive
    before the pass, [cleanupEntities] after it removes nothing. *)
Theorem checkSnakeVsSnakeCollisions_outcome e :
  let e' := checkSnakeVsSnakeCollisions e in
  score e' = score e
             + 50 * (Z.of_nat (length (enemies e))
                     - Z.of_nat (length (enemies e'))) ∧
  enemies e' `sublist_of` enemies e ∧
  lives e' ≤ lives e ∧
  (∀ snake, isAlive e snake = true → isAlive e' snake = true) ∧
  ((∀ enemy, enemy ∈ enemies e → isAlive e enemy = true) →
   cleanupEntities e' = e').
Proof.
  intros e'.
  destruct (collisionOutcome_foldl e (pairs (playerSnake e :: enemies e)))
    as (Hscore & Hsub & Hlives & _ & _ & _ & Halive).
  fold (checkSnakeVsSnakeCollisions e) in Hscore, Hsub, Hlives, Halive.
  fold e' in Hscore, Hsub, Hlives, Halive.
  repeat split; try done.
  intros Hall. unfold cleanupEntities.
  rewrite filter_all; [by destruct e'|].
  intros enemy Hin.
  assert (Ha : isAlive e' enemy = true).
  { apply Halive, Hall. by eapply elem_of_sublist. }
  unfold isAlive in Ha. by destruct (snakes e' !! enemy).
Qed.

Lemma checkSnakeVsSnakeCollisions_outcome_witness :
  cleanupEntities (checkSnakeVsSnakeCollisions headOnEngine)
  = checkSnakeVsSnakeCollisions headOnEngine.
Proof.
  apply (checkSnakeVsSnakeCollisions_outcome headOnEngine).
  intros enemy Hin.
  apply elem_of_cons in Hin as [->|Hin]; [reflexivity|].
  apply elem_of_cons in Hin as [->|Hin]; [reflexivity|].
  by apply elem_of_nil in Hin.
Defined.

End GameEngineSpec.

(** ** GravityWell: properties *)

Module GravityWellSpec.
Import GravityWell.
Local Open Scope R_scope.

Lemma clamp_bounded force : bounded (clamp force).
Proof.
  unfold bounded, clamp, Rmax, Rmin.
  repeat destruct (Rle_dec _ _); lra.
Qed.

Lemma clamp_id force : bounded force → clamp force = force.
Proof.
  unfold bounded, clamp, Rmax, Rmin.
  repeat destruct (Rle_dec _ _); lra.
Qed.

Lemma clamp_pos force : 0 < force → 0 < clamp force.
Proof.
  unfold clamp, Rmax, Rmin. repeat destruct (Rle_dec _ _); lra.
Qed.

Lemma clamp_neg force : force < 0 → clamp force < 0.
Proof.
  unfold clamp, Rmax, Rmin. repeat destruct (Rle_dec _ _); lra.
Qed.

(** A clamped multiple of a component keeps the sign of the component. *)
Lemma clamp_toward k component :
  0 < k →
  0 <= clamp (k * component) * component ∧
  (component ≠ 0 → 0 < clamp (k * component) * component).
Proof.
  intros Hk. destruct (Rtotal_order component 0) as [Hneg|[->|Hpos]].
  - assert (Hv : clamp (k * component) < 0) by (apply clamp_neg; nra).
    split; [nra|]. intros _. nra.
  - split; [|done]. lra.
  - assert (Hv : 0 < clamp (k * component)) by (apply clamp_pos; nra).
    split; [nra|]. intros _. nra.
Qed.

Lemma clamp_0 : clamp 0 = 0.
Proof. apply clamp_id. unfold bounded. lra. Qed.

Lemma calculateAttractiveForce_bounded w dx dy distance isY :
  bounded (calculateAttractiveForce w dx dy distance isY).
Proof.
  unfold calculateAttractiveForce. destruct (Req_dec_T distance 0).
  - unfold bounded. lra.
  - apply clamp_bounded.
Qed.

Lemma calculateAttractiveForce_0 w dx dy isY :
  calculateAttractiveForce w dx dy 0 isY = 0.
Proof.
  unfold calculateAttractiveForce. by destruct (Req_dec_T 0 0).
Qed.

Lemma calculateAttractiveForce_away w dx dy distance isY :
  distance ≠ 0 →
  calculateAttractiveForce w dx dy distance isY =
  clamp (strength w * (if isY then dy else dx) / (distance * distance + 1)).
Proof.
  intros Hd. unfold calculateAttractiveForce.
  by destruct (Req_dec_T distance 0).
Qed.

Lemma distanceTo_nonneg w tg : 0 <= distanceTo w tg.
Proof. apply sqrt_pos. Qed.

Lemma distanceTo_square w tg :
  distanceTo w tg * distanceTo w tg =
  offset_x w tg * offset_x w tg + offset_y w tg * offset_y w tg.
Proof. unfold distanceTo. apply sqrt_sqrt. nra. Qed.

(** The early returns and the range check of [applyGravity]. *)
Lemma computedForce_in_range w tg :
  active w = true → alive tg = true → distanceTo w tg <= radius w / 20 →
  computedForce w tg =
  Some
    match type w with
    | attract =>
        (Some (calculateAttractiveForce w (offset_x w tg) (offset_y w tg)
                 (distanceTo w tg) false),
         Some (calculateAttractiveForce w (offset_x w tg) (offset_y w tg)
                 (distanceTo w tg) true))
    | repel =>
        (Some (- calculateAttractiveForce w (offset_x w tg) (offset_y w tg)
                   (distanceTo w tg) false),
         Some (- calculateAttractiveForce w (offset_x w tg) (offset_y w tg)
                   (distanceTo w tg) true))
    | vortex =>
        (nsub (Some (calculateAttractiveForce w (offset_x w tg) (offset_y w tg)
                       (distanceTo w tg) false))
              (nmul (ndiv (offset_y w tg) (distanceTo w tg))
                    (Some (calculateTangentialForce w (offset_x w tg)
                             (offset_y w tg) (distanceTo w tg)))),
         nadd (Some (calculateAttractiveForce w (offset_x w tg) (offset_y w tg)
                       (distanceTo w tg) true))
              (nmul (ndiv (offset_x w tg) (distanceTo w tg))
                    (Some (calculateTangentialForce w (offset_x w tg)
                             (offset_y w tg) (distanceTo w tg)))))
    | pulse =>
        (Some (calculateAttractiveForce w (offset_x w tg) (offset_y w tg)
                 (distanceTo w tg) false * (sin (phase w * 3) * 0.5 + 0.5)),
         Some (calculateAttractiveForce w (offset_x w tg) (offset_y w tg)
                 (distanceTo w tg) true * (sin (phase w * 3) * 0.5 + 0.5)))
    end.
Proof.
  intros Hactive Halive Hrange. unfold computedForce.
  rewrite Hactive, Halive. simpl.
  destruct (Rlt_dec (radius w / 20) (distanceTo w tg)); [lra|done].
Qed.

Lemma computedForce_Some w tg forces :
  computedForce w tg = Some forces →
  active w = true ∧ alive tg = true ∧ distanceTo w tg <= radius w / 20.
Proof.
  unfold computedForce.
  destruct (active w), (alive tg); simpl; try done.
  destruct (Rlt_dec (radius w / 20) (distanceTo w tg)); [done|].
  intros _. repeat split. lra.
Qed.

Lemma computedForce_out_of_range w tg :
  radius w / 20 < distanceTo w tg → computedForce w tg = None.
Proof.
  intros Hfar. unfold computedForce.
  destruct (negb (active w) || negb (alive tg)); [done|].
  by destruct (Rlt_dec (radius w / 20) (distanceTo w tg)).
Qed.

Lemma pulse_bounded force intensity :
  bounded force → -1 <= intensity <= 1 →
  bounded (force * (intensity * 0.5 + 0.5)).
Proof. unfold bounded. intros Hf Hi. nra. Qed.

(** The tangential part of the vortex force is at most [0.3 * |strength|]
    on each axis. *)
Lemma tangential_bounded (component other d strength : R) :
  0 < d → d * d = component * component + other * other →
  Rabs (component / d * (strength * 0.3 / (d + 1))) <= 0.3 * Rabs strength.
Proof.
  intros Hd Hsq.
  assert (Hunit : Rabs (component / d) <= 1).
  { apply Rabs_le. pose proof (Rinv_0_lt_compat d Hd) as Hz.
    pose proof (Rinv_r d) as Hone. unfold Rdiv.
    set (z := / d) in *.
    assert (Hc : - d <= component <= d) by nra.
    assert (Hdz : d * z = 1) by (apply Hone; lra).
    split; nra. }
  assert (Hfall : Rabs (strength * 0.3 / (d + 1)) <= 0.3 * Rabs strength).
  { assert (Hd1 : 0 < d + 1) by lra.
    pose proof (Rinv_0_lt_compat (d + 1) Hd1) as Hy.
    pose proof (Rinv_r (d + 1)) as Hone. unfold Rdiv.
    set (y := / (d + 1)) in *.
    assert (Hdy : (d + 1) * y = 1) by (apply Hone; lra).
    assert (Hy1 : y <= 1) by nra.
    unfold Rabs. repeat destruct (Rcase_abs _); nra. }
  rewrite Rabs_mult.
  pose proof (Rabs_pos (component / d)).
  pose proof (Rabs_pos (strength * 0.3 / (d + 1))).
  pose proof (Rabs_pos strength).
  nra.
Qed.

(** C2, as the code has it.  An attracting, repelling or pulsing well
    returns reals within the bound of 0.5 on each axis, and the zero
    vector for a target at distance 0.  A vortex at a positive distance
    returns the bounded attractive components plus the tangential
    components, which are not clamped and are each at most
    [0.3 * |strength|]. *)
Theorem force_bound_and_center w tg forceX forceY :
  computedForce w tg = Some (forceX, forceY) →
  (type w ≠ vortex →
   ∃ fx fy, forceX = Some fx ∧ forceY = Some fy ∧ bounded fx ∧ bounded fy ∧
            (distanceTo w tg = 0 → fx = 0 ∧ fy = 0)) ∧
  (type w = vortex → 0 < distanceTo w tg →
   ∃ ax ay tx ty,
     bounded ax ∧ bounded ay ∧
     tx = offset_y w tg / distanceTo w tg
          * (strength w * 0.3 / (distanceTo w tg + 1)) ∧
     ty = offset_x w tg / distanceTo w tg
          * (strength w * 0.3 / (distanceTo w tg + 1)) ∧
     Rabs tx <= 0.3 * Rabs (strength w) ∧
     Rabs ty <= 0.3 * Rabs (strength w) ∧
     forceX = Some (ax - tx) ∧ forceY = Some (ay + ty)).
Proof.
  intros Hforce.
  destruct (computedForce_Some _ _ _ Hforce) as (Hactive & Halive & Hrange).
  rewrite (computedForce_in_range w tg Hactive Halive Hrange) in Hforce.
  set (dx := offset_x w tg) in *. set (dy := offset_y w tg) in *.
  set (d := distanceTo w tg) in *.
  pose proof (calculateAttractiveForce_bounded w dx dy d false) as Hbx.
  pose proof (calculateAttractiveForce_bounded w dx dy d true) as Hby.
  pose proof (SIN_bound (phase w * 3)) as Hsin.
  assert (Hzero : ∀ isY, d = 0 → calculateAttractiveForce w dx dy d isY = 0).
  { intros isY Hd0. rewrite Hd0. apply calculateAttractiveForce_0. }
  split.
  - intros Hkind. destruct (type w); [| |done|]; injection Hforce as <- <-.
    + eexists _, _. split; [done|]. split; [done|].
      split; [done|]. split; [done|]. intros Hd0. by rewrite !Hzero.
    + eexists _, _. split; [done|]. split; [done|]. unfold bounded in *.
      split; [lra|]. split; [lra|]. intros Hd0. rewrite !Hzero by done. lra.
    + eexists _, _. split; [done|]. split; [done|].
      split; [by apply pulse_bounded|]. split; [by apply pulse_bounded|].
      intros Hd0. rewrite !Hzero by done. lra.
  - intros Hkind Hpos. rewrite Hkind in Hforce. injection Hforce as <- <-.
    pose proof (distanceTo_square w tg) as Hsq. fold dx dy d in Hsq.
    exists (calculateAttractiveForce w dx dy d false),
           (calculateAttractiveForce w dx dy d true).
    eexists _, _. split; [done|]. split; [done|].
    split; [reflexivity|]. split; [reflexivity|].
    split; [apply (tangential_bounded dy dx); [done|lra]|].
    split; [by apply (tangential_bounded dx dy)|].
    unfold ndiv, calculateTangentialForce.
    destruct (Req_dec_T d 0); [lra|]. done.
Qed.

(** C2 on an attracting well with the snake on the cell at its center. *)
Lemma force_bound_and_center_witness :
  ∃ fx fy,
    computedForce (Mk 3.5 2.5 1 50 attract true 0)
                  (Target true 3 2 (Some 0) (Some 0))
    = Some (Some fx, Some fy) ∧ bounded fx ∧ bounded fy.
Proof.
  assert (Hd : distanceTo (Mk 3.5 2.5 1 50 attract true 0)
                          (Target true 3 2 (Some 0) (Some 0)) = 0).
  { unfold distanceTo, offset_x, offset_y. simpl.
    replace ((3.5 - (3 + 0.5)) * (3.5 - (3 + 0.5))
             + (2.5 - (2 + 0.5)) * (2.5 - (2 + 0.5))) with 0 by lra.
    apply sqrt_0. }
  assert (Hforce : computedForce (Mk 3.5 2.5 1 50 attract true 0)
                                 (Target true 3 2 (Some 0) (Some 0))
                   = Some (Some (calculateAttractiveForce
                                   (Mk 3.5 2.5 1 50 attract true 0)
                                   (3.5 - (3 + 0.5)) (2.5 - (2 + 0.5)) 0 false),
                           Some (calculateAttractiveForce
                                   (Mk 3.5 2.5 1 50 attract true 0)
                                   (3.5 - (3 + 0.5)) (2.5 - (2 + 0.5)) 0 true))).
  { rewrite computedForce_in_range; try done.
    - simpl. by rewrite Hd.
    - rewrite Hd. simpl. lra. }
  destruct (force_bound_and_center _ _ _ _ Hforce) as [Hplain _].
  destruct Hplain as (fx & fy & [= <-] & [= <-] & Hbx & Hby & _); [done|].
  eexists _, _. split; [exact Hforce|]. by split.
Defined.

(** C2 does not hold for a vortex: the vortex of level 5 pushes a snake on
    the cell (24, 19) with more than 0.5 along the y axis. *)
Lemma vortex_force_exceeds_bound :
  ∃ fx fy,
    computedForce level5Vortex nearVortex = Some (Some fx, Some fy) ∧
    0.5 < fy.
Proof.
  assert (Hx : offset_x level5Vortex nearVortex = 0.5)
    by (unfold offset_x; simpl; lra).
  assert (Hy : offset_y level5Vortex nearVortex = 0.5)
    by (unfold offset_y; simpl; lra).
  pose proof (distanceTo_nonneg level5Vortex nearVortex) as Hnonneg.
  pose proof (distanceTo_square level5Vortex nearVortex) as Hsq.
  rewrite Hx, Hy in Hsq.
  set (d := distanceTo level5Vortex nearVortex) in *.
  assert (Hd : 0 < d < 1) by nra.
  rewrite computedForce_in_range; try done; [|simpl; fold d; lra].
  fold d. rewrite Hx, Hy. simpl.
  rewrite !calculateAttractiveForce_away by lra. simpl.
  unfold ndiv, calculateTangentialForce. destruct (Req_dec_T d 0); [lra|].
  simpl. eexists _, _. split; [done|].
  replace (1.2 * 0.5 / (d * d + 1)) with 0.4 by (rewrite Hsq; lra).
  rewrite clamp_id by (unfold bounded; lra).
  assert (Htangent : 0.5 / d * (1.2 * 0.3 / (d + 1)) = 0.18 / (d * (d + 1))).
  { unfold Rdiv. rewrite Rinv_mult. nra. }
  rewrite Htangent.
  assert (Hprod : 0 < d * (d + 1) < 1.5) by nra.
  pose proof (Rinv_0_lt_compat (d * (d + 1)) (proj1 Hprod)) as Hinv.
  pose proof (Rinv_l (d * (d + 1))) as Hone.
  unfold Rdiv. set (z := / (d * (d + 1))) in *. nra.
Qed.

(** At the center of a vortex the code divides zero by zero: neither
    component of the force is a real. *)
Lemma vortex_center_not_a_number :
  computedForce (Mk 3.5 2.5 1 50 vortex true 0)
                (Target true 3 2 (Some 0) (Some 0)) = Some (None, None).
Proof.
  assert (Hd : distanceTo (Mk 3.5 2.5 1 50 vortex true 0)
                          (Target true 3 2 (Some 0) (Some 0)) = 0).
  { unfold distanceTo, offset_x, offset_y. simpl.
    replace ((3.5 - (3 + 0.5)) * (3.5 - (3 + 0.5))
             + (2.5 - (2 + 0.5)) * (2.5 - (2 + 0.5))) with 0 by lra.
    apply sqrt_0. }
  rewrite computedForce_in_range; try done; [|rewrite Hd; simpl; lra].
  rewrite Hd. simpl. unfold ndiv. by destruct (Req_dec_T 0 0).
Qed.

(** C3, as the code has it.  For a target in range at a distance [d > 0],
    each component of the force of an attracting well is
    [clamp (strength * component / (d * d + 1))], the force of a
    repelling well is its negation, all components are within the bound
    of 0.5, and for a positive strength the attracting force points
    toward the center and the repelling force away from it. *)
Theorem attract_repel_force w tg :
  active w = true → alive tg = true →
  0 < distanceTo w tg → distanceTo w tg <= radius w / 20 →
  let dx := offset_x w tg in
  let dy := offset_y w tg in
  let d := distanceTo w tg in
  let ax := clamp (strength w * dx / (d * d + 1)) in
  let ay := clamp (strength w * dy / (d * d + 1)) in
  (type w = attract → computedForce w tg = Some (Some ax, Some ay)) ∧
  (type w = repel → computedForce w tg = Some (Some (- ax), Some (- ay))) ∧
  bounded ax ∧ bounded ay ∧ bounded (- ax) ∧ bounded (- ay) ∧
  (0 < strength w →
   0 < ax * dx + ay * dy ∧ (- ax) * dx + (- ay) * dy < 0).
Proof.
  intros Hactive Halive Hpos Hrange dx dy d ax ay.
  pose proof (clamp_bounded (strength w * dx / (d * d + 1))) as Hbx.
  pose proof (clamp_bounded (strength w * dy / (d * d + 1))) as Hby.
  fold ax in Hbx. fold ay in Hby.
  assert (Hd : d ≠ 0) by (unfold d; lra).
  split; [|split].
  - intros Hkind. rewrite computedForce_in_range by done. rewrite Hkind.
    fold dx dy d. by rewrite !calculateAttractiveForce_away.
  - intros Hkind. rewrite computedForce_in_range by done. rewrite Hkind.
    fold dx dy d. by rewrite !calculateAttractiveForce_away.
  - unfold bounded in *. split; [lra|]. split; [lra|]. split; [lra|].
    split; [lra|]. intros Hstrength.
    pose proof (distanceTo_square w tg) as Hsq. fold dx dy d in Hsq.
    assert (Hden : 0 < d * d + 1) by nra.
    assert (Hk : 0 < strength w / (d * d + 1)) by by apply Rdiv_lt_0_compat.
    assert (Hax : ax = clamp (strength w / (d * d + 1) * dx)).
    { unfold ax. f_equal. field. lra. }
    assert (Hay : ay = clamp (strength w / (d * d + 1) * dy)).
    { unfold ay. f_equal. field. lra. }
    destruct (clamp_toward _ dx Hk) as [Hx Hx'].
    destruct (clamp_toward _ dy Hk) as [Hy Hy'].
    rewrite <- Hax in Hx, Hx'. rewrite <- Hay in Hy, Hy'.
    assert (Hdot : 0 < ax * dx + ay * dy); [|lra].
    destruct (Req_dec_T dx 0) as [Hx0|Hx0].
    + assert (Hy0 : dy ≠ 0) by (intros Hy0; rewrite Hx0, Hy0 in Hsq; nra).
      specialize (Hy' Hy0). lra.
    + specialize (Hx' Hx0). lra.
Qed.

(** C3 on an attracting well of strength 1 at distance 5. *)
Lemma attract_repel_force_witness :
  let w := Mk 3.5 4.5 1 120 attract true 0 in
  let tg := Target true 0 0 (Some 0) (Some 0) in
  let ax := clamp (strength w * offset_x w tg
                   / (distanceTo w tg * distanceTo w tg + 1)) in
  let ay := clamp (strength w * offset_y w tg
                   / (distanceTo w tg * distanceTo w tg + 1)) in
  computedForce w tg = Some (Some ax, Some ay) ∧
  0 < ax * offset_x w tg + ay * offset_y w tg.
Proof.
  intros w tg ax ay.
  assert (Hd : distanceTo w tg = 5).
  { unfold distanceTo, offset_x, offset_y, w, tg. simpl.
    replace ((3.5 - (0 + 0.5)) * (3.5 - (0 + 0.5))
             + (4.5 - (0 + 0.5)) * (4.5 - (0 + 0.5))) with (5 * 5) by lra.
    apply sqrt_square. lra. }
  assert (Hpos : 0 < distanceTo w tg) by (rewrite Hd; lra).
  assert (Hrange : distanceTo w tg <= radius w / 20)
    by (rewrite Hd; unfold w; simpl; lra).
  destruct (attract_repel_force w tg eq_refl eq_refl Hpos Hrange)
    as (Hattract & _ & _ & _ & _ & _ & Hdir).
  split; [by apply Hattract|].
  apply Hdir. unfold w. simpl. lra.
Defined.

(** C3 does not hold for every strength: an attracting well of strength
    -1 pushes a snake one cell to its left further to the left, away from
    the center. *)
Lemma attract_negative_strength_pushes_away :
  ∃ fx fy,
    computedForce negativeWell leftOfWell = Some (Some fx, Some fy) ∧
    0 < distanceTo negativeWell leftOfWell <= radius negativeWell / 20 ∧
    fx * offset_x negativeWell leftOfWell
    + fy * offset_y negativeWell leftOfWell < 0.
Proof.
  assert (Hx : offset_x negativeWell leftOfWell = 1)
    by (unfold offset_x; simpl; lra).
  assert (Hy : offset_y negativeWell leftOfWell = 0)
    by (unfold offset_y; simpl; lra).
  assert (Hd : distanceTo negativeWell leftOfWell = 1).
  { unfold distanceTo. rewrite Hx, Hy.
    replace (1 * 1 + 0 * 0) with (1 * 1) by lra. apply sqrt_square. lra. }
  rewrite computedForce_in_range; try done; [|rewrite Hd; simpl; lra].
  rewrite Hx, Hy, Hd. simpl.
  rewrite !calculateAttractiveForce_away by lra. simpl.
  eexists _, _. split; [done|]. split; [lra|].
  replace (-1 * 1 / (1 * 1 + 1)) with (-0.5) by lra.
  replace (-1 * 0 / (1 * 1 + 1)) with 0 by lra.
  rewrite clamp_0, clamp_id by (unfold bounded; lra). lra.
Qed.

(** C9, as the code has it.  A target farther from the center than the
    radius divided by 20 gets no force: [applyGravity] returns before the
    force of any kind is computed and leaves the snake as it is.  With a
    radius of 0 this holds for every target at a positive distance. *)
Theorem out_of_range_no_force w tg :
  (radius w / 20 < distanceTo w tg →
   computedForce w tg = None ∧ applyGravity w tg = tg) ∧
  (radius w = 0 → 0 < distanceTo w tg → applyGravity w tg = tg).
Proof.
  assert (Hfar : radius w / 20 < distanceTo w tg →
                 computedForce w tg = None ∧ applyGravity w tg = tg).
  { intros Hout. apply computedForce_out_of_range in Hout.
    unfold applyGravity. by rewrite Hout. }
  split; [done|]. intros Hzero Hpos. apply Hfar. rewrite Hzero. lra.
Qed.

(** C9 on a well of radius 50 and a target at distance 5. *)
Lemma out_of_range_no_force_witness :
  applyGravity (Mk 3.5 4.5 1 50 attract true 0)
               (Target true 0 0 (Some 0) (Some 0))
  = Target true 0 0 (Some 0) (Some 0).
Proof.
  destruct (out_of_range_no_force (Mk 3.5 4.5 1 50 attract true 0)
                                  (Target true 0 0 (Some 0) (Some 0)))
    as [Hfar _].
  apply Hfar. unfold distanceTo, offset_x, offset_y. simpl.
  replace ((3.5 - (0 + 0.5)) * (3.5 - (0 + 0.5))
           + (4.5 - (0 + 0.5)) * (4.5 - (0 + 0.5))) with (5 * 5) by lra.
  rewrite sqrt_square; lra.
Defined.

(** C9 does not hold for a radius of 0: the well is then in range of its
    center only.  A snake on the cell of the center is at a positive
    distance from it and gets no force, although the attractive force at
    that distance is not zero. *)
Lemma radius_zero_applies_no_force :
  radius pointWell = 0 ∧ 0 < distanceTo pointWell onPointWell ∧
  applyGravity pointWell onPointWell = onPointWell ∧
  calculateAttractiveForce pointWell (offset_x pointWell onPointWell)
    (offset_y pointWell onPointWell) (distanceTo pointWell onPointWell) false
  ≠ 0.
Proof.
  assert (Hx : offset_x pointWell onPointWell = -0.5)
    by (unfold offset_x; simpl; lra).
  assert (Hy : offset_y pointWell onPointWell = -0.5)
    by (unfold offset_y; simpl; lra).
  pose proof (distanceTo_square pointWell onPointWell) as Hsq.
  rewrite Hx, Hy in Hsq.
  assert (Hpos : 0 < distanceTo pointWell onPointWell).
  { unfold distanceTo. apply sqrt_lt_R0. rewrite Hx, Hy. lra. }
  split; [done|]. split; [done|]. split.
  - unfold applyGravity. rewrite computedForce_out_of_range; [done|].
    simpl. lra.
  - rewrite calculateAttractiveForce_away by lra. rewrite Hx, Hsq. simpl.
    assert (Hneg : clamp (1 * -0.5 / (-0.5 * -0.5 + -0.5 * -0.5 + 1)) < 0)
      by (apply clamp_neg; lra).
    lra.
Qed.

(** *** Several wells *)

Lemma computedForce_applyGravitationalForce w tg fx fy :
  computedForce w (applyGravitationalForce tg fx fy) = computedForce w tg.
Proof. done. Qed.

Lemma computedForce_applyGravity w w' tg :
  computedForce w (applyGravity w' tg) = computedForce w tg.
Proof.
  unfold applyGravity. destruct (computedForce w' tg) as [[fx fy]|]; done.
Qed.

Lemma Rabs_le_both (a b : R) : Rabs a <= b → - b <= a <= b.
Proof. unfold Rabs. destruct (Rcase_abs a); lra. Qed.

(** A well that is not a vortex hands two reals within the bound to the
    snake. *)
Lemma computedForce_bounded w tg forceX forceY :
  type w ≠ vortex → computedForce w tg = Some (forceX, forceY) →
  ∃ fx fy, forceX = Some fx ∧ forceY = Some fy ∧ bounded fx ∧ bounded fy.
Proof.
  intros Hkind Hforce.
  destruct (computedForce_Some _ _ _ Hforce) as (Hactive & Halive & Hrange).
  rewrite (computedForce_in_range w tg Hactive Halive Hrange) in Hforce.
  pose proof (calculateAttractiveForce_bounded w (offset_x w tg) (offset_y w tg)
                (distanceTo w tg) false) as Hbx.
  pose proof (calculateAttractiveForce_bounded w (offset_x w tg) (offset_y w tg)
                (distanceTo w tg) true) as Hby.
  pose proof (SIN_bound (phase w * 3)) as Hsin.
  destruct (type w); [| |done|]; injection Hforce as <- <-;
    eexists _, _; (split; [done|]); (split; [done|]).
  - done.
  - unfold bounded in *. split; lra.
  - split; by apply pulse_bounded.
Qed.

(** X24.  After any number of wells, none of them a vortex, have applied
    their gravity to a snake whose accumulated force was zero, each
    component of the accumulated force is a real of absolute value at
    most 0.5 times the number of wells. *)
Theorem accumulated_force_bounded wells tg :
  (∀ w, w ∈ wells → type w ≠ vortex) →
  force_x tg = Some 0 → force_y tg = Some 0 →
  ∃ fx fy,
    force_x (foldl (λ tg' w, applyGravity w tg') tg wells) = Some fx ∧
    force_y (foldl (λ tg' w, applyGravity w tg') tg wells) = Some fy ∧
    Rabs fx <= 0.5 * INR (length wells) ∧
    Rabs fy <= 0.5 * INR (length wells).
Proof.
  intros Hkinds Hx Hy.
  cut (∀ tg bx by' n,
         force_x tg = Some bx → force_y tg = Some by' →
         Rabs bx <= 0.5 * INR n → Rabs by' <= 0.5 * INR n →
         ∃ fx fy,
           force_x (foldl (λ tg' w, applyGravity w tg') tg wells) = Some fx ∧
           force_y (foldl (λ tg' w, applyGravity w tg') tg wells) = Some fy ∧
           Rabs fx <= 0.5 * INR (n + length wells) ∧
           Rabs fy <= 0.5 * INR (n + length wells)).
  { intros Hgen. apply (Hgen tg 0 0 0%nat Hx Hy);
      rewrite Rabs_R0; simpl; lra. }
  clear tg Hx Hy.
  induction wells as [|w wells IH]; intros tg bx by' n Hx Hy Hbx Hby.
  - exists bx, by'. rewrite Nat.add_0_r. by simpl.
  - cbn [foldl length].
    replace (n + S (length wells))%nat with (S n + length wells)%nat by lia.
    assert (Hrest : ∀ w', w' ∈ wells → type w' ≠ vortex).
    { intros w' Hin. apply Hkinds. by right. }
    assert (Hn : INR (S n) = INR n + 1) by apply S_INR.
    unfold applyGravity.
    destruct (computedForce w tg) as [[forceX forceY]|] eqn:Hforce.
    + destruct (computedForce_bounded w tg forceX forceY)
        as (fx & fy & -> & -> & Hfx & Hfy); [apply Hkinds; by left|done|].
      apply (IH Hrest _ (bx + fx) (by' + fy) (S n)).
      * simpl. by rewrite Hx.
      * simpl. by rewrite Hy.
      * unfold bounded in Hfx. rewrite Hn.
        apply Rabs_le. apply Rabs_le_both in Hbx. lra.
      * unfold bounded in Hfy. rewrite Hn.
        apply Rabs_le. apply Rabs_le_both in Hby. lra.
    + apply (IH Hrest _ bx by' (S n)); try done; rewrite Hn; lra.
Qed.

Lemma accumulated_force_bounded_witness :
  ∃ fx fy,
    force_x (foldl (λ tg' w, applyGravity w tg') leftOfWell [negativeWell])
    = Some fx ∧
    force_y (foldl (λ tg' w, applyGravity w tg') leftOfWell [negativeWell])
    = Some fy ∧
    Rabs fx <= 0.5 * INR (length [negativeWell]) ∧
    Rabs fy <= 0.5 * INR (length [negativeWell]).
Proof.
  apply (accumulated_force_bounded [negativeWell] leftOfWell).
  - intros w Hw. apply list_elem_of_singleton in Hw. by rewrite Hw.
  - reflexivity.
  - reflexivity.
Defined.

End GravityWellSpec.

(** ** LevelManager: properties *)

Module LevelManagerSpec.
Import LevelManager.
Local Open Scope Q_scope.

(** *** The seeded generator *)

Lemma toInt32_range z : (- 2 ^ 31 ≤ toInt32 z < 2 ^ 31)%Z.
Proof.
  unfold toInt32.
  pose proof (Z.mod_pos_bound (z + 2 ^ 31) (2 ^ 32)). lia.
Qed.

Lemma toInt32_shift z k : toInt32 (z + k * 2 ^ 32) = toInt32 z.
Proof.
  unfold toInt32.
  replace (z + k * 2 ^ 32 + 2 ^ 31)%Z with (z + 2 ^ 31 + k * 2 ^ 32)%Z by lia.
  by rewrite Z_mod_plus_full.
Qed.

Lemma toInt32_wraps z : ∃ k, toInt32 z = (z + k * 2 ^ 32)%Z.
Proof.
  exists (- ((z + 2 ^ 31) `div` 2 ^ 32))%Z. unfold toInt32.
  pose proof (Z.div_mod (z + 2 ^ 31) (2 ^ 32)). lia.
Qed.

Lemma hashStep_polynomial p char :
  hashStep (toInt32 p) char = toInt32 (p * 31 + char).
Proof.
  unfold hashStep.
  destruct (toInt32_wraps p) as [k ->].
  destruct (toInt32_wraps ((p + k * 2 ^ 32) * 32)) as [k' ->].
  replace ((p + k * 2 ^ 32) * 32 + k' * 2 ^ 32 - (p + k * 2 ^ 32) + char)%Z
    with (p * 31 + char + (31 * k + k') * 2 ^ 32)%Z by lia.
  apply toInt32_shift.
Qed.

Lemma foldl_hashStep p codes :
  foldl hashStep (toInt32 p) codes
  = toInt32 (foldl (λ hash char, hash * 31 + char)%Z p codes).
Proof.
  revert p. induction codes as [|char codes IH]; intros p; [done|].
  cbn [foldl]. by rewrite hashStep_polynomial, IH.
Qed.

Lemma seededRandom_range seed :
  (0 ≤ seed)%Z →
  0 <= (seededRandom seed).1 ∧ (seededRandom seed).1 < 1 ∧
  (0 ≤ (seededRandom seed).2 < 233280)%Z.
Proof.
  intros Hseed. unfold seededRandom. simpl.
  assert (Hrem : (0 ≤ Z.rem (seed * 9301 + 49297) 233280 < 233280)%Z).
  { apply Z.rem_bound_pos; lia. }
  set (next := Z.rem (seed * 9301 + 49297) 233280) in *.
  assert (0 <= inject_Z next).
  { change 0 with (inject_Z 0). rewrite <- Zle_Qle. lia. }
  assert (inject_Z next < 233280).
  { change 233280 with (inject_Z 233280). rewrite <- Zlt_Qlt. lia. }
  split; [|split; [|done]].
  - apply Qle_shift_div_l; [reflexivity|lra].
  - apply Qlt_shift_div_r; [reflexivity|lra].
Qed.

(** X25.  The hash of a string is the absolute value of the polynomial
    of its character codes in base 31, wrapped to 32 bits, so it lies
    between 0 and 2^31; and from a seed that is not negative, as a hash
    is, each call of the seeded generator returns a value in [0, 1) and
    leaves a seed from 0 to 233279. *)
Theorem seeded_generator_range str :
  hashCode str
  = Z.abs (toInt32 (foldl (λ hash char, hash * 31 + char)%Z 0%Z
                          (charCodes str))) ∧
  (0 ≤ hashCode str ≤ 2 ^ 31)%Z ∧
  ∀ seed, (0 ≤ seed)%Z →
    0 <= (seededRandom seed).1 ∧ (seededRandom seed).1 < 1 ∧
    (0 ≤ (seededRandom seed).2 < 233280)%Z.
Proof.
  assert (Hhash : hashCode str
    = Z.abs (toInt32 (foldl (λ hash char, hash * 31 + char)%Z 0%Z
                            (charCodes str)))).
  { unfold hashCode. f_equal. apply (foldl_hashStep 0). }
  split; [done|]. split; [|apply seededRandom_range].
  rewrite Hhash.
  pose proof (toInt32_range (foldl (λ hash char, hash * 31 + char)%Z 0%Z
                                   (charCodes str))). lia.
Qed.

(** *** Computations that draw *)

Lemma yields_ret {A} (a : A) (P : A → Prop) : P a → yields (mret a) P.
Proof. intros Ha seed Hseed. by split. Qed.

Lemma yields_bind {A B} (m : gen A) (f : A → gen B) (P : A → Prop)
    (R : B → Prop) :
  yields m P → (∀ a, P a → yields (f a) R) → yields (a ← m; f a) R.
Proof.
  intros Hm Hf seed Hseed. unfold mbind, gen_bind.
  destruct (Hm seed Hseed) as [Ha Hseed'].
  destruct (m seed) as [a seed']. by apply Hf.
Qed.

Lemma yields_weaken {A} (m : gen A) (P R : A → Prop) :
  yields m P → (∀ a, P a → R a) → yields m R.
Proof.
  intros Hm HPR seed Hseed. destruct (Hm seed Hseed). split; [by apply HPR|done].
Qed.

Lemma yields_rng : yields rng (λ r, 0 <= r ∧ r < 1).
Proof.
  intros seed Hseed. destruct (seededRandom_range seed Hseed) as (? & ? & ?).
  unfold rng. split; [done|lia].
Qed.

Lemma yields_repeatGen {A} (n : nat) (body : gen A) (P : A → Prop) :
  yields body P →
  yields (repeatGen n body) (λ l, length l = n ∧ Forall P l).
Proof.
  intros Hbody. induction n as [|n IH]; simpl.
  - by apply yields_ret.
  - eapply yields_bind; [done|]. intros a Ha.
    eapply yields_bind; [done|]. intros rest [Hlen Hrest].
    apply yields_ret. split; [simpl; lia|by apply Forall_cons].
Qed.

Lemma pick_is_Some {A} (array : list A) r :
  array ≠ [] → 0 <= r → r < 1 → ∃ x, pick array r = Some x ∧ x ∈ array.
Proof.
  intros Hne Hlo Hhi. unfold pick.
  set (n := inject_Z (Z.of_nat (length array))).
  assert (Hn : 0 < n).
  { unfold n. change 0 with (inject_Z 0). rewrite <- Zlt_Qlt.
    destruct array; [done|]. simpl. lia. }
  assert (Hge : (0 ≤ Qfloor (r * n))%Z).
  { apply SpatialHashSpec.Qfloor_ge_iff. change (inject_Z 0) with 0.
    apply Qmult_le_0_compat; lra. }
  assert (Hlt : (Qfloor (r * n) ≤ Z.of_nat (length array) - 1)%Z).
  { apply SpatialHashSpec.Qfloor_le_iff.
    replace (Z.of_nat (length array) - 1 + 1)%Z
      with (Z.of_nat (length array)) by lia.
    fold n. assert (0 < (1 - r) * n) by (apply Qmult_lt_0_compat; lra).
    lra. }
  destruct (Qfloor (r * n) <? 0)%Z eqn:Hneg; [apply Z.ltb_lt in Hneg; lia|].
  destruct (array !! Z.to_nat (Qfloor (r * n))) as [x|] eqn:Hx.
  - exists x. split; [done|]. by eapply list_elem_of_lookup_2.
  - apply lookup_ge_None in Hx. lia.
Qed.

(** [Math.floor(r * n) + k] for a draw [r] and a positive integer [n]. *)
Lemma floor_draw (r : Q) (n : Z) :
  (0 < n)%Z → 0 <= r → r < 1 → (0 ≤ Qfloor (r * inject_Z n) ≤ n - 1)%Z.
Proof.
  intros Hn Hlo Hhi.
  assert (0 < inject_Z n).
  { change 0 with (inject_Z 0). by rewrite <- Zlt_Qlt. }
  split.
  - apply SpatialHashSpec.Qfloor_ge_iff. change (inject_Z 0) with 0.
    apply Qmult_le_0_compat; lra.
  - apply SpatialHashSpec.Qfloor_le_iff.
    replace (n - 1 + 1)%Z with n by lia.
    assert (0 < (1 - r) * inject_Z n) by (apply Qmult_lt_0_compat; lra).
    lra.
Qed.

(** *** Generated levels *)

Lemma difficultyMultiplier_pos d : 0 < difficultyMultiplier d.
Proof. by destruct d. Qed.

Lemma yields_generateWell d : yields (generateWell d) (wellInBounds d).
Proof.
  unfold generateWell.
  eapply yields_bind; [apply yields_rng|]. intros r1 [? ?].
  eapply yields_bind; [apply yields_rng|]. intros r2 [? ?].
  eapply yields_bind; [apply yields_rng|]. intros r3 [? ?].
  eapply yields_bind; [apply yields_rng|]. intros r4 [? ?].
  eapply yields_bind; [apply yields_rng|]. intros r5 [? ?].
  apply yields_ret. unfold wellInBounds. simpl.
  pose proof (difficultyMultiplier_pos d).
  repeat split; try lra.
  - apply Qmult_le_compat_r; lra.
  - apply Qmult_lt_compat_r; lra.
  - destruct (pick_is_Some [GravityWell.attract; GravityWell.repel;
                            GravityWell.vortex; GravityWell.pulse] r1)
      as (x & -> & _); done.
Qed.

Lemma yields_generateGravityWells levelNumber d :
  yields (generateGravityWells levelNumber d)
    (λ wells, (1 ≤ Z.of_nat (length wells) ≤ getMaxWellsForDifficulty d)%Z ∧
              Forall (wellInBounds d) wells).
Proof.
  unfold generateGravityWells.
  eapply yields_bind; [apply yields_rng|]. intros r [Hlo Hhi].
  eapply yields_weaken; [apply yields_repeatGen, yields_generateWell|].
  intros wells [Hlen Hall]. split; [|done]. rewrite Hlen.
  assert (Hmax : (0 < getMaxWellsForDifficulty d)%Z) by by destruct d.
  pose proof (floor_draw r (getMaxWellsForDifficulty d) Hmax Hlo Hhi). lia.
Qed.

Lemma yields_generateEnemies levelNumber d :
  yields (generateEnemies levelNumber d)
    (λ enemies,
       (Z.of_nat (length enemies)
        ≤ match d with easy => 0 | medium => 2 | hard => 4 | extreme => 6 end)%Z).
Proof.
  unfold generateEnemies.
  eapply yields_bind; [apply yields_rng|]. intros r [Hlo Hhi].
  eapply yields_weaken.
  { apply (yields_repeatGen _ _ (λ _, True)).
    unfold generateEnemy.
    eapply yields_bind; [apply yields_rng|]. intros r1 _.
    eapply yields_bind; [apply yields_rng|]. intros r2 _.
    eapply yields_bind; [apply yields_rng|]. intros r3 _.
    by apply yields_ret. }
  intros enemies [Hlen _]. simpl in Hlen. rewrite Hlen.
  assert (Hmax : (0 < getMaxEnemiesForDifficulty d)%Z) by by destruct d.
  pose proof (floor_draw r (getMaxEnemiesForDifficulty d) Hmax Hlo Hhi).
  destruct d; simpl in *; lia.
Qed.

Lemma yields_selectConstellationPattern levelNumber :
  (0 ≤ levelNumber)%Z →
  yields (selectConstellationPattern levelNumber)
    (λ pattern, ∃ patternName,
       pattern = Some patternName ∧
       patternName ∈ ["triangle"; "cross"; "diamond"; "spiral"]).
Proof.
  intros Hlevel. unfold selectConstellationPattern.
  eapply yields_bind; [apply yields_rng|]. intros r [Hlo Hhi].
  apply yields_ret.
  set (n := Z.to_nat _).
  assert (Hn : (1 ≤ n)%nat).
  { unfold n. simpl length.
    assert (0 ≤ levelNumber `div` 2)%Z by by apply Z.div_pos. lia. }
  destruct (pick_is_Some (take n ["triangle"; "cross"; "diamond"; "spiral"]) r)
    as (x & Hx & Hin); try done.
  - destruct n; [lia|done].
  - exists x. split; [done|].
    eapply elem_of_sublist; [done|apply sublist_take].
Qed.

Lemma yields_generateSpecialFeatures levelNumber :
  yields (generateSpecialFeatures levelNumber) (λ _, True).
Proof.
  unfold generateSpecialFeatures.
  eapply (yields_bind _ _ (λ _, True)).
  { destruct (10 <=? levelNumber)%Z; [|by apply yields_ret].
    eapply yields_bind; [apply yields_rng|]. intros r _. by apply yields_ret. }
  intros features1 _.
  eapply (yields_bind _ _ (λ _, True)).
  { destruct (5 <=? levelNumber)%Z; [|by apply yields_ret].
    eapply yields_bind; [apply yields_rng|]. intros r _. by apply yields_ret. }
  intros features2 _.
  eapply (yields_bind _ _ (λ _, True)).
  { destruct (8 <=? levelNumber)%Z; [|by apply yields_ret].
    eapply yields_bind; [apply yields_rng|]. intros r _.
    destruct (Qlt_le_dec r 0.4); [|by apply yields_ret].
    eapply yields_bind; [apply yields_rng|]. intros r1 _.
    eapply yields_bind; [apply yields_rng|]. intros r2 _.
    by apply yields_ret. }
  intros features3 _. by apply yields_ret.
Qed.

Lemma calculateTimeLimit_bounds levelNumber d :
  (0 ≤ levelNumber)%Z →
  (calculateTimeLimit levelNumber d = 0 ∨
   96 ≤ calculateTimeLimit levelNumber d)%Z.
Proof.
  intros Hlevel. assert (0 ≤ levelNumber `div` 5)%Z by by apply Z.div_pos.
  destruct d; unfold calculateTimeLimit; cbv zeta; [by left|right..].
  - change (Qfloor (120 * 1.2)) with 144%Z. lia.
  - change (Qfloor (120 * 1)) with 120%Z. lia.
  - change (Qfloor (120 * 0.8)) with 96%Z. lia.
Qed.

Lemma filter_none_strong d wells :
  difficultyMultiplier d <= 0.8 → Forall (wellInBounds d) wells →
  List.filter strongWell wells = [].
Proof.
  intros Hd Hall. induction Hall as [|well wells Hwell _ IH]; [done|].
  simpl. rewrite IH. unfold strongWell.
  destruct Hwell as (_ & _ & _ & _ & _ & Hs & _).
  destruct (Qlt_le_dec 1 (wd_strength well)); [lra|done].
Qed.

(** X26.  A level generated for a level number that is not negative has
    between one well and the maximum for its difficulty, each well inside
    the bounds the generator draws from; no more enemies than
    collectibles; a time limit of 0 or at least 96; and a constellation
    pattern that the constellation manager knows.  Up to level 8 (easy
    and medium) [validateLevel] finds no issue; beyond, the only issue it
    can find is more than two wells stronger than 1. *)
Theorem generateProceduralLevel_sound levelNumber :
  (0 ≤ levelNumber)%Z →
  let generated := generateProceduralLevel levelNumber in
  let d := calculateDifficulty levelNumber in
  (1 ≤ Z.of_nat (length (gravityWells generated))
   ≤ getMaxWellsForDifficulty d)%Z ∧
  Forall (wellInBounds d) (gravityWells generated) ∧
  (Z.of_nat (length (enemies generated)) ≤ collectibleCount generated)%Z ∧
  (timeLimit generated = 0 ∨ 96 <= timeLimit generated) ∧
  (∃ patternName,
     constellationPattern generated = Some patternName ∧
     is_Some (ConstellationManager.lookupPattern
                ConstellationManager.builtinPatterns patternName)) ∧
  ((validateLevel generated).1 = true ↔
   (length (List.filter strongWell (gravityWells generated)) ≤ 2)%nat) ∧
  ((levelNumber ≤ 8)%Z → validateLevel generated = (true, [])).
Proof.
  intros Hlevel. cbv zeta.
  set (d := calculateDifficulty levelNumber).
  assert (Hgen : yields (generateLevelFrom levelNumber) (λ l,
    (1 ≤ Z.of_nat (length (gravityWells l)) ≤ getMaxWellsForDifficulty d)%Z ∧
    Forall (wellInBounds d) (gravityWells l) ∧
    (Z.of_nat (length (enemies l))
     ≤ match d with easy => 0 | medium => 2 | hard => 4 | extreme => 6 end)%Z ∧
    (∃ patternName, constellationPattern l = Some patternName ∧
       patternName ∈ ["triangle"; "cross"; "diamond"; "spiral"]) ∧
    collectibleCount l = calculateCollectibleCount levelNumber d ∧
    timeLimit l = inject_Z (calculateTimeLimit levelNumber d))).
  { unfold generateLevelFrom. fold d.
    eapply (yields_bind _ _ (λ _, True)).
    { unfold selectTheme. eapply yields_bind; [apply yields_rng|].
      intros r _. by apply yields_ret. }
    intros theme _.
    eapply (yields_bind _ _ (λ _, True)).
    { unfold generateDescription. eapply yields_bind; [apply yields_rng|].
      intros r _. by apply yields_ret. }
    intros description _.
    eapply yields_bind; [apply yields_generateGravityWells|].
    intros wells [Hcount Hwells].
    eapply yields_bind; [apply yields_generateEnemies|]. intros enemies Henemies.
    eapply yields_bind; [by apply yields_selectConstellationPattern|].
    intros pattern Hpattern.
    eapply yields_bind; [apply yields_generateSpecialFeatures|].
    intros features _. by apply yields_ret. }
  destruct (Hgen (hashCode (pretty levelNumber)))
    as [(Hcount & Hwells & Henemies & Hpattern & Hcollect & Htime) _].
  { unfold hashCode. lia. }
  clear Hgen. unfold generateProceduralLevel.
  revert Hcount Hwells Henemies Hpattern Hcollect Htime.
  generalize ((generateLevelFrom levelNumber (hashCode (pretty levelNumber))).1).
  intros generated Hcount Hwells Henemies Hpattern Hcollect Htime.
  assert (Hlow : (levelNumber ≤ 8)%Z → difficultyMultiplier d <= 0.8).
  { intros Hlow. unfold d, calculateDifficulty.
    destruct (levelNumber <=? 3)%Z eqn:H3; [by simpl|].
    destruct (levelNumber <=? 8)%Z eqn:H8; [by simpl|].
    apply Z.leb_gt in H8. lia. }
  assert (Hbonus : (0 ≤ levelNumber `div` 3)%Z) by by apply Z.div_pos.
  pose proof (calculateTimeLimit_bounds levelNumber d Hlevel) as Hbounds.
  assert (Hfew : (Z.of_nat (length (enemies generated))
                  ≤ collectibleCount generated)%Z).
  { rewrite Hcollect. unfold calculateCollectibleCount.
    clearbody d. destruct d; lia. }
  clearbody d.
  assert (Hlimit : timeLimit generated = 0 ∨ 96 <= timeLimit generated).
  { rewrite Htime. destruct Hbounds as [->|Hle]; [by left|right].
    change 96 with (inject_Z 96). by rewrite <- Zle_Qle. }
  assert (Hvalid : validateLevel generated
    = ((length (List.filter strongWell (gravityWells generated)) <=? 2)%nat,
       if (2 <? length (List.filter strongWell (gravityWells generated)))%nat
       then ["Trop de puits gravitationnels puissants"] else [])).
  { unfold validateLevel.
    assert ((collectibleCount generated
             <? Z.of_nat (length (enemies generated)))%Z = false) as ->
      by (apply Z.ltb_ge; lia).
    assert (timeTooShort (timeLimit generated) = false) as ->.
    { unfold timeTooShort. destruct Hlimit as [->|Hle]; [done|].
      destruct (Qlt_le_dec 0 (timeLimit generated)); [|done].
      destruct (Qlt_le_dec (timeLimit generated) 60); [lra|done]. }
    rewrite app_nil_r. cbn [app].
    by destruct (length (List.filter strongWell (gravityWells generated)))
      as [|[|[|n]]]. }
  split; [done|]. split; [done|]. split; [done|]. split; [done|]. split.
  { destruct Hpattern as (patternName & Hp & Hin). exists patternName.
    split; [done|].
    repeat (apply elem_of_cons in Hin as [->|Hin]; [by eexists|]).
    by apply elem_of_nil in Hin. }
  split.
  - rewrite Hvalid. cbn [fst]. apply Nat.leb_le.
  - intros Hle. rewrite Hvalid.
    by rewrite (filter_none_strong d _ (Hlow Hle) Hwells).
Qed.

Lemma generateProceduralLevel_sound_witness :
  let generated := generateProceduralLevel 12 in
  let d := calculateDifficulty 12 in
  (1 ≤ Z.of_nat (length (gravityWells generated))
   ≤ getMaxWellsForDifficulty d)%Z ∧
  Forall (wellInBounds d) (gravityWells generated) ∧
  (Z.of_nat (length (enemies generated)) ≤ collectibleCount generated)%Z ∧
  (timeLimit generated = 0 ∨ 96 <= timeLimit generated) ∧
  (∃ patternName,
     constellationPattern generated = Some patternName ∧
     is_Some (ConstellationManager.lookupPattern
                ConstellationManager.builtinPatterns patternName)) ∧
  ((validateLevel generated).1 = true ↔
   (length (List.filter strongWell (gravityWells generated)) ≤ 2)%nat) ∧
  ((12 ≤ 8)%Z → validateLevel generated = (true, [])).
Proof. apply (generateProceduralLevel_sound 12). lia. Defined.

(** *** Balancing *)

Lemma validateLevel_true l :
  (validateLevel l).1 = true ↔
  (Z.of_nat (length (enemies l)) ≤ collectibleCount l)%Z ∧
  (length (List.filter strongWell (gravityWells l)) ≤ 2)%nat ∧
  timeTooShort (timeLimit l) = false.
Proof.
  unfold validateLevel. cbn [fst].
  destruct (Z.ltb_spec (collectibleCount l) (Z.of_nat (length (enemies l))));
    destruct (Nat.ltb_spec 2
                (length (List.filter strongWell (gravityWells l))));
    destruct (timeTooShort (timeLimit l)); cbn [app length Nat.eqb];
    split; try done; try (intros (? & ? & ?); first [done|lia]);
    intros _; repeat split; lia.
Qed.

Lemma balanced_well_not_strong well :
  strongWell (if strongWell well
              then WellData (wd_x well) (wd_y well)
                            (Qmin (wd_strength well * 0.8) 1)
                            (wd_radius well) (wd_type well)
              else well) = false.
Proof.
  destruct (strongWell well) eqn:Hstrong; [|done].
  unfold strongWell. simpl.
  destruct (Qlt_le_dec 1 (Qmin (wd_strength well * 0.8) 1)) as [Hlt|]; [|done].
  pose proof (Q.le_min_r (wd_strength well * 0.8) 1). lra.
Qed.

Lemma balanced_limit_not_short limit :
  timeTooShort (if timeTooShort limit then Qmax (limit * 1.5) 90 else limit)
  = false.
Proof.
  destruct (timeTooShort limit) eqn:Hshort; [|done].
  unfold timeTooShort.
  pose proof (Q.le_max_r (limit * 1.5) 90).
  destruct (Qlt_le_dec 0 (Qmax (limit * 1.5) 90)); [|done].
  destruct (Qlt_le_dec (Qmax (limit * 1.5) 90) 60); [lra|done].
Qed.

Lemma fmap_not_strong (g : wellData → wellData) wells :
  (∀ well, strongWell (g well) = false) →
  List.filter strongWell (g <$> wells) = [].
Proof.
  intros Hg. induction wells as [|well wells IH]; [done|].
  rewrite fmap_cons. simpl. by rewrite Hg.
Qed.

(** X27.  After [balanceLevel] the only issue [validateLevel] can still
    find is that of too many enemies: the balanced level is valid exactly
    when the level has no more enemies than collectibles.  Balancing a
    level that had an issue leaves no well stronger than 1, and balancing
    twice is balancing once. *)
Theorem balanceLevel_valid l :
  ((validateLevel (balanceLevel l)).1 = true ↔
   (Z.of_nat (length (enemies l)) ≤ collectibleCount l)%Z) ∧
  ((validateLevel l).1 = false →
   Forall (λ well, wd_strength well <= 1) (gravityWells (balanceLevel l))) ∧
  balanceLevel (balanceLevel l) = balanceLevel l.
Proof.
  set (g := λ well,
         if strongWell well
         then WellData (wd_x well) (wd_y well)
                       (Qmin (wd_strength well * 0.8) 1)
                       (wd_radius well) (wd_type well)
         else well).
  assert (Hg : ∀ well, strongWell (g well) = false)
    by apply balanced_well_not_strong.
  destruct (validateLevel l).1 eqn:Hvalid.
  - assert (Hsame : balanceLevel l = l).
    { unfold balanceLevel. by rewrite Hvalid. }
    rewrite Hsame, Hvalid. split; [|by split].
    split; [|done]. intros _. by apply validateLevel_true in Hvalid as [? _].
  - assert (Hbalanced : balanceLevel l =
      Level (level_name l) (level_description l) (levelNumber l) (generated l)
            (level_difficulty l) (theme l) (g <$> gravityWells l) (enemies l)
            (constellationPattern l) (collectibleCount l)
            (if timeTooShort (timeLimit l)
             then Qmax (timeLimit l * 1.5) 90 else timeLimit l)
            (specialFeatures l)).
    { unfold balanceLevel. by rewrite Hvalid. }
    rewrite Hbalanced. split; [|split].
    + rewrite validateLevel_true. cbn [enemies collectibleCount gravityWells
                                       timeLimit].
      rewrite (fmap_not_strong g _ Hg), balanced_limit_not_short.
      split; [by intros [? _]|]. intros Hfew. split; [done|]. split; [simpl; lia|done].
    + intros _. cbn [gravityWells]. apply Forall_fmap, Forall_forall.
      intros well _. specialize (Hg well). unfold strongWell in Hg. simpl.
      by destruct (Qlt_le_dec 1 (wd_strength (g well))).
    + match goal with |- balanceLevel ?l' = _ => set (l1 := l') end.
      unfold balanceLevel. destruct (validateLevel l1).1; [done|].
      unfold l1.
      cbn [level_name level_description levelNumber generated level_difficulty
           theme gravityWells enemies constellationPattern collectibleCount
           timeLimit specialFeatures].
      rewrite balanced_limit_not_short. f_equal.
      rewrite <- list_fmap_compose. apply list_fmap_ext.
      intros i well _. simpl. by rewrite Hg.
Qed.

End LevelManagerSpec.

(** ** EnemyAI: properties *)

Module EnemyAISpec.
Import EnemyAI.
Local Open Scope Z_scope.

(** *** The sorted candidates *)

Lemma insertByCost_Permutation c sorted : insertByCost c sorted ≡ₚ c :: sorted.
Proof.
  induction sorted as [|c' rest IH]; simpl; [done|].
  destruct (cost c <=? cost c'); [done|].
  rewrite IH. apply Permutation_swap.
Qed.

Lemma sortByCost_Permutation l : sortByCost l ≡ₚ l.
Proof.
  induction l as [|c l IH]; simpl; [done|].
  by rewrite insertByCost_Permutation, IH.
Qed.

Lemma insertByCost_sorted c sorted :
  StronglySorted (λ a b, cost a ≤ cost b) sorted →
  StronglySorted (λ a b, cost a ≤ cost b) (insertByCost c sorted).
Proof.
  induction 1 as [|c' rest Hsorted IH Hall]; simpl.
  - by repeat constructor.
  - destruct (Z.leb_spec (cost c) (cost c')) as [Hle|Hgt].
    + constructor; [by constructor|]. constructor; [done|].
      eapply Forall_impl; [done|]. simpl. intros. lia.
    + constructor; [done|].
      rewrite insertByCost_Permutation. constructor; [lia|done].
Qed.

Lemma sortByCost_sorted l :
  StronglySorted (λ a b, cost a ≤ cost b) (sortByCost l).
Proof.
  induction l as [|c l IH]; simpl; [constructor|].
  by apply insertByCost_sorted.
Qed.

(** In a sorted list, the first entry that passes a test has the least
    cost of those that pass. *)
Lemma find_sorted_least (f : candidate → bool) l c :
  StronglySorted (λ a b, cost a ≤ cost b) l →
  List.find f l = Some c →
  c ∈ l ∧ f c = true ∧ ∀ c', c' ∈ l → f c' = true → cost c ≤ cost c'.
Proof.
  induction 1 as [|a rest Hsorted IH Hall]; simpl; [done|].
  destruct (f a) eqn:Ha.
  - intros [= <-]. split; [by left|]. split; [done|].
    intros c' [->|Hin]%elem_of_cons _; [lia|].
    by apply (proj1 (Forall_forall _ _) Hall).
  - intros Hfind. destruct (IH Hfind) as (Hin & Hc & Hleast).
    split; [by right|]. split; [done|].
    intros c' [->|Hin']%elem_of_cons Hc'; [congruence|by apply Hleast].
Qed.

Lemma head_sorted_least l c :
  StronglySorted (λ a b, cost a ≤ cost b) l → List.head l = Some c →
  c ∈ l ∧ ∀ c', c' ∈ l → cost c ≤ cost c'.
Proof.
  destruct 1 as [|a rest Hsorted Hall]; simpl; [done|].
  intros [= <-]. split; [by left|].
  intros c' [->|Hin]%elem_of_cons; [lia|].
  by apply (proj1 (Forall_forall _ _) Hall).
Qed.

Lemma candidates_spec hx hy (target : Z * Z) c :
  c ∈ candidates (target.1 - hx) (target.2 - hy) →
  Snake.directions (name c) = Some (dx c, dy c) ∧
  Snake.cardinal (dx c, dy c) ∧
  cost c = manhattan target (hx + dx c, hy + dy c).
Proof.
  unfold candidates, manhattan, Snake.cardinal. intros Hin.
  repeat (apply elem_of_cons in Hin as [->|Hin];
          [simpl; split; [done|]; split; [tauto|lia]|]).
  by apply elem_of_nil in Hin.
Qed.

Lemma candidates_complete tdx tdy d :
  Snake.cardinal d → ∃ c, c ∈ candidates tdx tdy ∧ (dx c, dy c) = d.
Proof.
  unfold candidates. intros [-> | [-> | [-> | ->] ] ].
  - exists (Candidate "up" 0 (-1) (Z.abs tdx + Z.abs (tdy + 1))).
    split; [set_solver|done].
  - exists (Candidate "down" 0 1 (Z.abs tdx + Z.abs (tdy - 1))).
    split; [set_solver|done].
  - exists (Candidate "left" (-1) 0 (Z.abs (tdx + 1) + Z.abs tdy)).
    split; [set_solver|done].
  - exists (Candidate "right" 1 0 (Z.abs (tdx - 1) + Z.abs tdy)).
    split; [set_solver|done].
Qed.

(** X28.  [calculateBestDirection] returns the name of one of the four
    steps.  When the cell after some step is safe, the cell after the
    step returned is safe and no safe cell next to the head is nearer to
    the target, in steps; when no cell next to the head is safe, the step
    returned is one that leads nearest to the target. *)
Theorem calculateBestDirection_spec e wells self target head body :
  segmentsOf e self = head :: body →
  ∃ name d,
    calculateBestDirection e wells self target = Some name ∧
    Snake.directions name = Some d ∧
    let next (d : Z * Z) := (Snake.seg_x head + d.1, Snake.seg_y head + d.2) in
    let safe (d : Z * Z) := isPositionSafe e wells self (next d) in
    (∀ d', Snake.cardinal d' → safe d' = true →
           safe d = true ∧
           manhattan target (next d) ≤ manhattan target (next d')) ∧
    ((∀ d', Snake.cardinal d' → safe d' = false) →
     ∀ d', Snake.cardinal d' →
           manhattan target (next d) ≤ manhattan target (next d')).
Proof.
  intros Hsegs. unfold calculateBestDirection. rewrite Hsegs.
  set (hx := Snake.seg_x head). set (hy := Snake.seg_y head).
  set (l := candidates (target.1 - hx) (target.2 - hy)).
  set (f := λ dir : candidate,
              isPositionSafe e wells self (hx + dx dir, hy + dy dir)).
  pose proof (sortByCost_sorted l) as Hsorted.
  pose proof (sortByCost_Permutation l) as Hperm.
  assert (Hspec : ∀ c, c ∈ sortByCost l →
            Snake.directions (name c) = Some (dx c, dy c) ∧
            Snake.cardinal (dx c, dy c) ∧
            cost c = manhattan target (hx + dx c, hy + dy c)).
  { intros c Hc. apply candidates_spec. fold l. by rewrite <- Hperm. }
  assert (Hall : ∀ d, Snake.cardinal d →
            ∃ c, c ∈ sortByCost l ∧ (dx c, dy c) = d).
  { intros d Hd. destruct (candidates_complete (target.1 - hx) (target.2 - hy)
                             d Hd) as (c & Hc & Heq).
    exists c. split; [by rewrite Hperm|done]. }
  cbv zeta.
  destruct (List.find f (sortByCost l)) as [dir|] eqn:Hfind.
  - destruct (find_sorted_least f _ _ Hsorted Hfind) as (Hin & Hsafe & Hleast).
    destruct (Hspec dir Hin) as (Hname & Hcard & Hcost).
    exists (name dir), (dx dir, dy dir). split; [done|]. split; [done|]. split.
    + intros d' Hd' Hsafe'. split; [done|].
      destruct (Hall d' Hd') as (c' & Hin' & <-).
      destruct (Hspec c' Hin') as (_ & _ & Hcost').
      cbn [fst snd]. rewrite <- Hcost, <- Hcost'. by apply Hleast.
    + intros Hnone. specialize (Hnone _ Hcard). cbn [fst snd] in Hnone.
      unfold f in Hsafe. congruence.
  - pose proof (find_none _ _ Hfind) as Hnone.
    destruct (List.head (sortByCost l)) as [dir|] eqn:Hhead.
    2:{ destruct (sortByCost l) eqn:Hnil; [|done].
        apply Permutation_nil_l in Hperm. done. }
    destruct (head_sorted_least _ _ Hsorted Hhead) as (Hin & Hleast).
    destruct (Hspec dir Hin) as (Hname & Hcard & Hcost).
    exists (name dir), (dx dir, dy dir). split; [done|]. split; [done|]. split.
    + intros d' Hd' Hsafe'.
      destruct (Hall d' Hd') as (c' & Hin' & <-).
      apply list_elem_of_In in Hin'. specialize (Hnone c' Hin').
      unfold f in Hnone. cbn [fst snd] in Hsafe'. congruence.
    + intros _ d' Hd'. destruct (Hall d' Hd') as (c' & Hin' & <-).
      destruct (Hspec c' Hin') as (_ & _ & Hcost').
      cbn [fst snd]. rewrite <- Hcost, <- Hcost'. by apply Hleast.
Qed.

Lemma calculateBestDirection_spec_witness :
  let e := GameEngine.headOnEngine in
  let head := Snake.Segment 3 3 Snake.head in
  ∃ name d,
    calculateBestDirection e [] 1%nat (5, 5) = Some name ∧
    Snake.directions name = Some d ∧
    let next (d : Z * Z) := (Snake.seg_x head + d.1, Snake.seg_y head + d.2) in
    let safe (d : Z * Z) := isPositionSafe e [] 1%nat (next d) in
    (∀ d', Snake.cardinal d' → safe d' = true →
           safe d = true ∧
           manhattan (5, 5) (next d) ≤ manhattan (5, 5) (next d')) ∧
    ((∀ d', Snake.cardinal d' → safe d' = false) →
     ∀ d', Snake.cardinal d' →
           manhattan (5, 5) (next d) ≤ manhattan (5, 5) (next d')).
Proof.
  apply (calculateBestDirection_spec GameEngine.headOnEngine [] 1%nat (5, 5)
           (Snake.Segment 3 3 Snake.head) []).
  reflexivity.
Defined.

(** *** From a vector to a step *)

Lemma Qabs_zero (x : Q) : (Qabs.Qabs x <= 0)%Q → (x == 0)%Q.
Proof.
  apply (Qabs.Qabs_case x (λ a, a <= 0 → x == 0)%Q); intros; lra.
Qed.

(** X29.  [vectorToDirection] depends only on the direction of the
    vector, not on its length, so the normalisation that [avoidTarget]
    applies first does not change its result; and for a vector that is
    not zero the step returned has a positive component along the
    vector. *)
Theorem vectorToDirection_spec (x y k : Q) :
  (0 < k)%Q →
  vectorToDirection (k * x) (k * y) = vectorToDirection x y ∧
  (¬ (x == 0 ∧ y == 0)%Q →
   ∃ d, Snake.directions (vectorToDirection x y) = Some d ∧
        (0 < inject_Z d.1 * x + inject_Z d.2 * y)%Q).
Proof.
  intros Hk. split.
  - unfold vectorToDirection.
    assert (Hx : (Qabs.Qabs (k * x) == k * Qabs.Qabs x)%Q).
    { rewrite Qabs.Qabs_Qmult, (Qabs.Qabs_pos k); [done|lra]. }
    assert (Hy : (Qabs.Qabs (k * y) == k * Qabs.Qabs y)%Q).
    { rewrite Qabs.Qabs_Qmult, (Qabs.Qabs_pos k); [done|lra]. }
    pose proof (Qabs.Qabs_nonneg x). pose proof (Qabs.Qabs_nonneg y).
    destruct (Qlt_le_dec (Qabs.Qabs y) (Qabs.Qabs x)) as [Hxy|Hxy];
      destruct (Qlt_le_dec (Qabs.Qabs (k * y)) (Qabs.Qabs (k * x)))
        as [Hk'|Hk']; try (exfalso; nra).
    + destruct (Qlt_le_dec 0 x), (Qlt_le_dec 0 (k * x)); try done;
        exfalso; nra.
    + destruct (Qlt_le_dec 0 y), (Qlt_le_dec 0 (k * y)); try done;
        exfalso; nra.
  - intros Hnonzero. unfold vectorToDirection.
    destruct (Qlt_le_dec (Qabs.Qabs y) (Qabs.Qabs x)) as [Hxy|Hxy].
    + pose proof (Qabs.Qabs_nonneg y).
      destruct (Qlt_le_dec 0 x) as [Hx|Hx].
      * exists (1, 0). split; [reflexivity|]. cbn [fst snd].
        change (inject_Z 1) with 1%Q. change (inject_Z 0) with 0%Q. lra.
      * exists (-1, 0). split; [reflexivity|]. cbn [fst snd].
        change (inject_Z (-1)) with (-1)%Q. change (inject_Z 0) with 0%Q.
        assert (¬ x == 0)%Q.
        { intros Hzero.
          assert (Qabs.Qabs x == 0)%Q by (by rewrite Hzero). lra. }
        lra.
    + destruct (Qlt_le_dec 0 y) as [Hy|Hy].
      * exists (0, 1). split; [reflexivity|]. cbn [fst snd].
        change (inject_Z 1) with 1%Q. change (inject_Z 0) with 0%Q. lra.
      * exists (0, -1). split; [reflexivity|]. cbn [fst snd].
        change (inject_Z (-1)) with (-1)%Q. change (inject_Z 0) with 0%Q.
        assert (¬ y == 0)%Q.
        { intros Hzero.
          assert (Qabs.Qabs y == 0)%Q by (by rewrite Hzero).
          apply Hnonzero. split; [|done]. apply Qabs_zero. lra. }
        lra.
Qed.

Lemma vectorToDirection_spec_witness :
  vectorToDirection (2 * 3) (2 * -4) = vectorToDirection 3 (-4) ∧
  (¬ (3 == 0 ∧ -4 == 0)%Q →
   ∃ d, Snake.directions (vectorToDirection 3 (-4)) = Some d ∧
        (0 < inject_Z d.1 * 3 + inject_Z d.2 * -4)%Q).
Proof. apply (vectorToDirection_spec 3 (-4) 2). reflexivity. Defined.

(** *** Avoiding a collision *)


(** The name of the current direction is one of the four names. *)
Lemma getCurrentDirectionName_cases sn :
  Snake.getCurrentDirectionName sn ∈ ["up"; "down"; "left"; "right"].
Proof.
  unfold Snake.getCurrentDirectionName. destruct (Snake.direction sn) as [x y].
  repeat (destruct (_ && _); [set_solver|]). set_solver.
Qed.



End EnemyAISpec.
